(** * ncdu: path/error tracker, option parser and redraw scheduler

    A shallow embedding of [src/dir_common.c] and of the scheduler and
    option parser of [src/main.c], with the properties the specification
    states about them.

    Conventions.
    - A [char] is an [ascii]; the terminator is [NUL].
    - A heap block is the list of its bytes, so the allocated size is the
      length of the list.  A pointer to a block is an [option]: [None] is the
      NULL pointer.
    - A [const char *] argument is given by the bytes it points to; the C
      string it denotes is [cstr], the bytes before the first [NUL].
    - An operation whose C execution would leave the allocated block (or
      dereference NULL, or overflow a signed int) returns [None]. *)

From Stdlib Require Import ZArith Ascii String List Bool Lia.
Import ListNotations.

Notation "x <- e ;; k" :=
  (match e with Some x => k | None => None end)
  (at level 61, e at next level, right associativity).

(** ** C strings inside byte blocks *)
Module CStr.

Definition NUL : ascii := Ascii.zero.

Definition is_nul (c : ascii) : bool := Ascii.eqb c NUL.

(** The characters of a string literal. *)
Definition lit (s : string) : list ascii := list_ascii_of_string s.

(** The C string stored at the start of a block: the bytes before the first
    terminator. *)
Fixpoint cstr (m : list ascii) : list ascii :=
  match m with
  | [] => []
  | c :: m' => if is_nul c then [] else c :: cstr m'
  end.

(** A block holds a string only when a terminator occurs inside it. *)
Definition terminated (m : list ascii) : bool := existsb is_nul m.

Definition strlen (m : list ascii) : nat := length (cstr m).

(** Overwrite [bytes] at offset [off] of the block [dst]; writing past the
    end of the block is undefined. *)
Definition store (dst : list ascii) (off : nat) (bytes : list ascii)
  : option (list ascii) :=
  if (off + length bytes <=? length dst)%nat
  then Some (firstn off dst ++ bytes ++ skipn (off + length bytes) dst)
  else None.

(** [p[i] = c]. *)
Definition poke (dst : list ascii) (i : nat) (c : ascii) : option (list ascii) :=
  store dst i [c].

(** [strcpy(dst, src)]: the string of [src] and its terminator. *)
Definition strcpy (dst src : list ascii) : option (list ascii) :=
  store dst 0 (cstr src ++ [NUL]).

(** [strcat(dst, src)]: [dst] must hold a string. *)
Definition strcat (dst src : list ascii) : option (list ascii) :=
  if terminated dst then store dst (strlen dst) (cstr src ++ [NUL]) else None.

(** Index of the last occurrence of [c] in a string. *)
Fixpoint rindex (c : ascii) (s : list ascii) : option nat :=
  match s with
  | [] => None
  | x :: s' =>
      match rindex c s' with
      | Some i => Some (S i)
      | None => if Ascii.eqb x c then Some 0%nat else None
      end
  end.

(** [strrchr(m, c)] for a character [c] other than the terminator, as an
    offset from [m]. *)
Definition strrchr (m : list ascii) (c : ascii) : option nat := rindex c (cstr m).

(** [malloc(n)] and [realloc(p, n)]: the bytes that were not there before
    are indeterminate; [junk] gives them. *)
Definition fresh (junk : nat -> ascii) (from n : nat) : list ascii :=
  map junk (seq from n).

Definition malloc (junk : nat -> ascii) (n : nat) : list ascii := fresh junk 0 n.

Definition realloc (junk : nat -> ascii) (p : option (list ascii)) (n : nat)
  : list ascii :=
  match p with
  | None => malloc junk n
  | Some m => firstn n m ++ fresh junk (length m) (n - length m)
  end.

(** [vsnprintf(dst, size, ...)] where the expansion of the format is [out]:
    at most [size - 1] of its characters and a terminator.  On an output
    error ([out] is [None]) nothing is known of the bytes of [dst]: they
    stay the indeterminate ones they are. *)
Definition vsnprintf (dst : list ascii) (size : nat) (out : option (list ascii))
  : option (list ascii) :=
  match out, size with
  | Some text, S k => store dst 0 (firstn k text ++ [NUL])
  | _, _ => Some dst
  end.

(** Signed 32-bit [int]. *)
Definition INT_MAX : Z := 2147483647.

(** Conversion of a [size_t] value to [int] (wrap-around). *)
Definition to_int (z : Z) : Z := ((z + 2 ^ 31) mod 2 ^ 32 - 2 ^ 31)%Z.

(** [a * 2] on [int]; signed overflow is undefined. *)
Definition int_double (a : Z) : option Z :=
  if ((- INT_MAX - 1 <=? a * 2) && (a * 2 <=? INT_MAX))%Z then Some (a * 2)%Z else None.

(** [a + 1] on [int], as [a++] computes it; signed overflow is undefined. *)
Definition int_incr (a : Z) : option Z :=
  if ((- INT_MAX - 1 <=? a + 1) && (a + 1 <=? INT_MAX))%Z then Some (a + 1)%Z else None.

(** No occurrence of [c]. *)
Definition lacks (c : ascii) (s : list ascii) : bool :=
  forallb (fun x => negb (Ascii.eqb x c)) s.

End CStr.

(** ** The path and error tracker ([dir_common.c]) *)
Module Tracker.
Import CStr.

Record state := mkState {
  dir_curpath : option (list ascii);  (* Full path of the last seen item. *)
  dir_fatalerr : option (list ascii); (* NULL if there was no fatal error *)
  lasterr : option (list ascii);      (* Path where the last error occured. *)
  curpathl : Z;                       (* Allocated length of dir_curpath *)
  lasterrl : Z                        (* ^ of lasterr *)
}.

(** The program's initial globals. *)
Definition init : state := mkState None None None 0 0.

Definition set_curpath (st : state) (p : option (list ascii)) (l : Z) : state :=
  mkState p (dir_fatalerr st) (lasterr st) l (lasterrl st).

Definition set_curpath_block (st : state) (m : list ascii) : state :=
  set_curpath st (Some m) (curpathl st).

Definition set_lasterr (st : state) (p : option (list ascii)) (l : Z) : state :=
  mkState (dir_curpath st) (dir_fatalerr st) p (curpathl st) l.

Definition set_fatalerr (st : state) (p : option (list ascii)) : state :=
  mkState (dir_curpath st) p (lasterr st) (curpathl st) (lasterrl st).

Definition curpath_resize (junk : nat -> ascii) (s : Z) (st : state) : option state :=
  if (curpathl st <? s)%Z then
    l <- (if (s <? 128)%Z then Some 128%Z
          else d <- int_double (curpathl st) ;;
               Some (if (s <? d)%Z then d else s)) ;;
    Some (set_curpath st (Some (realloc junk (dir_curpath st) (Z.to_nat l))) l)
  else Some st.

Definition dir_curpath_set (junk : nat -> ascii) (path : list ascii) (st : state)
  : option state :=
  st1 <- curpath_resize junk (to_int (Z.of_nat (strlen path) + 1)) st ;;
  m <- dir_curpath st1 ;;
  m' <- strcpy m path ;;
  Some (set_curpath_block st1 m').

Definition dir_curpath_enter (junk : nat -> ascii) (name : list ascii) (st : state)
  : option state :=
  m0 <- dir_curpath st ;;
  if terminated m0 then
    st1 <- curpath_resize junk
             (to_int (Z.of_nat (strlen m0) + Z.of_nat (strlen name) + 2)) st ;;
    m <- dir_curpath st1 ;;
    c <- nth_error m 1 ;;
    m1 <- (if is_nul c then Some m else strcat m (lit "/")) ;;
    m2 <- strcat m1 name ;;
    Some (set_curpath_block st1 m2)
  else None.

(** removes last component from dir_curpath *)
Definition dir_curpath_leave (st : state) : option state :=
  m <- dir_curpath st ;;
  if terminated m then
    m' <- match strrchr m "/"%char with
          | None => strcpy m (lit "/")
          | Some tmp => if negb (tmp =? 0)%nat then poke m tmp NUL
                        else poke m (tmp + 1) NUL
          end ;;
    Some (set_curpath_block st m')
  else None.

Definition dir_setlasterr (junk : nat -> ascii) (path : option (list ascii))
  (st : state) : option state :=
  match path with
  | None => Some (set_lasterr st None 0)
  | Some p =>
      let req := to_int (Z.of_nat (strlen p) + 1) in
      let st1 := if (lasterrl st <? req)%Z
                 then set_lasterr st (Some (realloc junk (lasterr st) (Z.to_nat req))) req
                 else st in
      dst <- lasterr st1 ;;
      src <- dir_curpath st1 ;;
      if terminated src then
        dst' <- strcpy dst src ;;
        Some (set_lasterr st1 (Some dst') (lasterrl st1))
      else None
  end.

(** What the expansion of a [printf] format is belongs to the C library: it
    is a parameter, over any type of argument lists; [None] is an output
    error. *)
Section Formatting.
Variable va_list : Type.
Variable expand : list ascii -> va_list -> option (list ascii).

Definition dir_seterr (junk : nat -> ascii) (fmt : option (list ascii))
  (va : va_list) (st : state) : option state :=
  let st0 := set_fatalerr st None in
  match fmt with
  | None => Some st0
  | Some f =>
      let m := malloc junk 1024 in (* Should be enough for everything... *)
      m1 <- vsnprintf m 1023 (expand f va) ;;
      m2 <- poke m1 1023 NUL ;;
      Some (set_fatalerr st0 (Some m2))
  end.

End Formatting.

(** The rendering calls of the scanning mode.  [draw_progress] and
    [draw_error] are kept as single calls with the strings they show. *)
Inductive widget :=
| BrowseDraw
| ErrorBox (cur : option (list ascii)) (msg : list ascii)
| ProgressBox (cur : option (list ascii)) (warning : option (list ascii)).

Definition draw_progress (st : state) : widget :=
  ProgressBox (option_map cstr (dir_curpath st)) (option_map cstr (lasterr st)).

Definition draw_error (cur : option (list ascii)) (msg : list ascii) : widget :=
  ErrorBox (option_map cstr cur) (cstr msg).

Definition dir_draw (st : state) : list widget :=
  BrowseDraw ::
  match dir_fatalerr st with
  | Some msg => [draw_error (dir_curpath st) msg]
  | None => [draw_progress st]
  end.

Definition dir_key (ch : Z) (st : state) : Z :=
  match dir_fatalerr st with
  | Some _ => 1
  | None => if (ch =? 113)%Z (* 'q' *) then 1 else 0
  end%Z.

(** The strings the tracker holds. *)
Definition curpath_str (st : state) : option (list ascii) :=
  option_map cstr (dir_curpath st).

Definition lasterr_str (st : state) : option (list ascii) :=
  option_map cstr (lasterr st).

Definition fatalerr_str (st : state) : option (list ascii) :=
  option_map cstr (dir_fatalerr st).

(** What [curpath_resize] maintains once a path was set: the block is as
    long as [curpathl] says, at least 128 bytes, and holds a string. *)
Definition wf (st : state) : bool :=
  match dir_curpath st with
  | Some m =>
      (Z.of_nat (length m) =? curpathl st)%Z && (128 <=? curpathl st)%Z
      && (curpathl st <=? INT_MAX)%Z && terminated m
  | None => false
  end.

(** A state whose current path is [path], in a first block of 128 bytes, and
    which holds no error. *)
Definition holding (path : string) : state :=
  mkState (Some (lit path ++ repeat NUL (128 - String.length path))) None None 128 0.

(** What does not belong to the current path. *)
Definition others (st : state) : option (list ascii) * option (list ascii) * Z :=
  (dir_fatalerr st, lasterr st, lasterrl st).

(** The string [enter] builds from a path that is not empty: the test of
    [dir_curpath[1]] tells a path of one character from a longer one. *)
Definition entered (cur name : list ascii) : list ascii :=
  if (length cur =? 1)%nat then cur ++ cstr name
  else cur ++ lit "/" ++ cstr name.

(** The string [leave] leaves, from where the last slash is. *)
Definition left (cur : list ascii) : list ascii :=
  match rindex "/"%char cur with
  | None => lit "/"
  | Some O => firstn 1 cur
  | Some i => firstn i cur
  end.

End Tracker.

(** ** The option parser ([main.c]) *)
Module Args.
Local Open Scope Z_scope.
Local Open Scope string_scope.

(** How a call ends: it returns, or the process ends in [die] (message on
    standard error, nonzero status) or in [exit(0)] after printing, or the
    call reads outside a string. *)
Inductive outcome (A : Type) : Type :=
| Ret (a : A)
| Die (msg : string)
| Exit (out : string)
| Undef.
Arguments Ret {A} a.
Arguments Die {A} msg.
Arguments Exit {A} out.
Arguments Undef {A}.

Definition bind {A B : Type} (e : outcome A) (k : A -> outcome B) : outcome B :=
  match e with
  | Ret a => k a
  | Die m => Die m
  | Exit o => Exit o
  | Undef => Undef
  end.

Notation "x <-- e ;;; k" := (bind e (fun x => k))
  (at level 61, e at next level, right associativity).

(** The argument strings are the ones the system hands to [main]: no
    character of a token is the terminator. *)
Record argparser := mkParser {
  argv : list string;        (* argc is the length *)
  shortopt : option string;
  last : option string;
  last_arg : option string;
  argsep : bool
}.

Definition with_argv (p : argparser) (av : list string) : argparser :=
  mkParser av (shortopt p) (last p) (last_arg p) (argsep p).
Definition with_shortopt (p : argparser) (s : option string) : argparser :=
  mkParser (argv p) s (last p) (last_arg p) (argsep p).
Definition with_last (p : argparser) (s : option string) : argparser :=
  mkParser (argv p) (shortopt p) s (last_arg p) (argsep p).
Definition with_last_arg (p : argparser) (s : option string) : argparser :=
  mkParser (argv p) (shortopt p) (last p) s (argsep p).
Definition with_argsep (p : argparser) (b : bool) : argparser :=
  mkParser (argv p) (shortopt p) (last p) (last_arg p) b.

(** [*s] and [s + 1]. *)
Definition deref (s : string) : ascii :=
  match s with String c _ => c | EmptyString => CStr.NUL end.
Definition advance (s : string) : string :=
  match s with String _ r => r | EmptyString => EmptyString end.

(** The text a ["%s"] shows for a pointer. *)
Definition shown (s : option string) : string :=
  match s with Some t => t | None => "(null)" end.

Definition argparser_pop (p : argparser) : option string * argparser :=
  match argv p with
  | [] => (None, p)
  | a :: av => (Some a, with_argv p av)
  end.

(** [shortbuf] has two bytes and no terminator of its own: the string read
    through [last] runs on into [argsep], the next byte of the struct, and
    stops there when it is 0, else at the zeroed padding behind it. *)
Definition shortbuf_string (c : ascii) (sep : bool) : string :=
  String "-" (String c (if sep then String "001" "" else "")).

Definition argparser_shortopt (p : argparser) (buf : string)
  : outcome (Z * argparser) :=
  match buf with
  | EmptyString => Undef
  | String c rest =>
      let p1 := with_shortopt p (match rest with
                                 | EmptyString => None
                                 | _ => Some rest
                                 end) in
      Ret (1%Z, with_last p1 (Some (shortbuf_string c (argsep p))))
  end.

(** [strchr(s, '=')] followed by cutting [s] there: the text before the
    sign and the text after it. *)
Fixpoint split_eq (s : string) : option (string * string) :=
  match s with
  | EmptyString => None
  | String c r =>
      if Ascii.eqb c "=" then Some (EmptyString, r)
      else match split_eq r with
           | Some (a, b) => Some (String c a, b)
           | None => None
           end
  end.

(** Returns 0 when done, 1 if there's an option, 2 if there's a positional
    argument.  [av] is [argv p]; the call on the token after [--] is the
    recursive one. *)
Fixpoint argparser_next_from (av : list string) (p : argparser)
  : outcome (Z * argparser) :=
  match last_arg p with
  | Some _ =>
      Die ("Option '" ++ shown (last p) ++ "' does not expect an argument."
           ++ String "010" "")
  | None =>
  match shortopt p with
  | Some buf => argparser_shortopt p buf
  | None =>
  match av with
  | [] => Ret (0%Z, with_last p None)
  | a :: av' =>
      let p1 := with_last (with_argv p av') (Some a) in
      if argsep p1 || Ascii.eqb (deref a) CStr.NUL
         || negb (Ascii.eqb (deref a) "-")
      then Ret (2%Z, p1)
      else if Ascii.eqb (deref (advance a)) CStr.NUL
      then Die ("Invalid option '-'." ++ String "010" "")
      else if Ascii.eqb (deref (advance a)) "-"
              && Ascii.eqb (deref (advance (advance a))) CStr.NUL
      then argparser_next_from av' (with_argsep p1 true)
      else if Ascii.eqb (deref (advance a)) "-"
      then match split_eq a with
           | Some (name, value) =>
               Ret (1%Z, with_last_arg (with_last p1 (Some name)) (Some value))
           | None => Ret (1%Z, with_last_arg p1 None)
           end
      else argparser_shortopt p1 (advance a)
  end
  end
  end.

Definition argparser_next (p : argparser) : outcome (Z * argparser) :=
  argparser_next_from (argv p) p.

Definition argparser_arg (p : argparser) : outcome (string * argparser) :=
  match shortopt p with
  | Some tmp => Ret (tmp, with_shortopt p None)
  | None =>
  match last_arg p with
  | Some tmp => Ret (tmp, with_last_arg p None)
  | None =>
  match argparser_pop p with
  | (Some tmp, p') => Ret (tmp, p')
  | (None, _) =>
      Die ("Option '" ++ shown (last p) ++ "' requires an argument."
           ++ String "010" "")
  end
  end
  end.

(** The settings the options write ([ncurses_tty] is the file-static flag
    of [main.c] that [argv_parse] sets). *)
Inductive setting :=
| update_delay | dir_scan_smfs | extended_info | read_only | dir_ui | si
| follow_symlinks | cachedir_tags | exclude_kernfs | follow_firmlinks
| confirm_quit | uic_theme | ncurses_tty.

Definition setting_eqb (a b : setting) : bool :=
  match a, b with
  | update_delay, update_delay | dir_scan_smfs, dir_scan_smfs
  | extended_info, extended_info | read_only, read_only | dir_ui, dir_ui
  | si, si | follow_symlinks, follow_symlinks | cachedir_tags, cachedir_tags
  | exclude_kernfs, exclude_kernfs | follow_firmlinks, follow_firmlinks
  | confirm_quit, confirm_quit | uic_theme, uic_theme
  | ncurses_tty, ncurses_tty => true
  | _, _ => false
  end.

(** Calls into the exclude-rule store. *)
Inductive exclude_call :=
| AddPattern (pattern : string)   (* exclude_add(pattern) *)
| AddFile (file : string).        (* exclude_addfile(file) returned 0 *)

Record globals := mkGlobals {
  var : setting -> Z;
  exclude_calls : list exclude_call;   (* latest first *)
  argparser_state : argparser
}.

Definition assign (x : setting) (v : Z) (g : globals) : globals :=
  mkGlobals (fun y => if setting_eqb y x then v else var g y)
            (exclude_calls g) (argparser_state g).
Definition call_exclude (c : exclude_call) (g : globals) : globals :=
  mkGlobals (var g) (c :: exclude_calls g) (argparser_state g).
Definition with_parser (g : globals) (p : argparser) : globals :=
  mkGlobals (var g) (exclude_calls g) p.

(** The initializers of the globals. *)
Definition initial_var (x : setting) : Z :=
  match x with
  | update_delay => 100
  | follow_firmlinks => 1
  | _ => 0
  end.

Definition OPT (g : globals) (s : string) : bool :=
  String.eqb (shown (last (argparser_state g))) s.

Definition ARG (g : globals) : outcome (string * globals) :=
  r <-- argparser_arg (argparser_state g) ;;;
  Ret (fst r, with_parser g (snd r)).

Definition nl : string := String "010" "".

(** What the parser takes from outside: the result of opening an exclude
    file and the text of the error it leaves, the platform switches of the
    build, the environment, and the export and import backends. *)
Section Startup.
Variable exclude_addfile : string -> Z.
Variable strerror_errno : string -> string.
Variable PACKAGE_VERSION : string.
Variable have_statfs : bool.     (* HAVE_LINUX_MAGIC_H && HAVE_SYS_STATFS_H && HAVE_STATFS *)
Variable have_firmlinks : bool.  (* HAVE_SYS_ATTR_H && HAVE_GETATTRLIST && ... *)
Variable no_color : bool.        (* getenv("NO_COLOR") is not NULL *)
Variable dir_export_init : string -> Z.
Variable dir_import_init : string -> Z.

Definition arg_option (g : globals) : outcome (Z * globals) :=
  if OPT g "-q" || OPT g "--slow-ui-updates" then Ret (1, assign update_delay 2000 g)
  else if OPT g "--fast-ui-updates" then Ret (1, assign update_delay 100 g)
  else if OPT g "-x" || OPT g "--one-file-system" then Ret (1, assign dir_scan_smfs 1 g)
  else if OPT g "--cross-file-system" then Ret (1, assign dir_scan_smfs 0 g)
  else if OPT g "-e" || OPT g "--extended" then Ret (1, assign extended_info 1 g)
  else if OPT g "--no-extended" then Ret (1, assign extended_info 0 g)
  else if OPT g "-r" then
    match CStr.int_incr (var g read_only) with
    | Some v => Ret (1, assign read_only v g)
    | None => Undef
    end
  else if OPT g "-0" then Ret (1, assign dir_ui 0 g)
  else if OPT g "-1" then Ret (1, assign dir_ui 1 g)
  else if OPT g "-2" then Ret (1, assign dir_ui 2 g)
  else if OPT g "--si" then Ret (1, assign si 1 g)
  else if OPT g "--no-si" then Ret (1, assign si 0 g)
  else if OPT g "-L" || OPT g "--follow-symlinks" then Ret (1, assign follow_symlinks 1 g)
  else if OPT g "--no-follow-symlinks" then Ret (1, assign follow_symlinks 0 g)
  else if OPT g "--exclude" then
    a <-- ARG g ;;; Ret (1, call_exclude (AddPattern (fst a)) (snd a))
  else if OPT g "-X" || OPT g "--exclude-form" then
    a <-- ARG g ;;;
    if negb (exclude_addfile (fst a) =? 0)%Z
    then Die ("Can't open " ++ fst a ++ ": " ++ strerror_errno (fst a) ++ nl)
    else Ret (1, call_exclude (AddFile (fst a)) (snd a))
  else if OPT g "--exclude-caches" then Ret (1, assign cachedir_tags 1 g)
  else if OPT g "--include-caches" then Ret (1, assign cachedir_tags 0 g)
  else if OPT g "--exclude-kernfs" then Ret (1, assign exclude_kernfs 1 g)
  else if OPT g "--include-kernfs" then Ret (1, assign exclude_kernfs 0 g)
  else if OPT g "--follow-firmlinks" then Ret (1, assign follow_firmlinks 1 g)
  else if OPT g "--exclude-firmlinks" then Ret (1, assign follow_firmlinks 0 g)
  else if OPT g "--confirm-quit" then Ret (1, assign confirm_quit 1 g)
  else if OPT g "--no-confirm-quit" then Ret (1, assign confirm_quit 0 g)
  else if OPT g "--color" then
    a <-- ARG g ;;;
    if String.eqb (fst a) "off" then Ret (1, assign uic_theme 0 (snd a))
    else if String.eqb (fst a) "dark" then Ret (1, assign uic_theme 1 (snd a))
    else if String.eqb (fst a) "dark-bg" then Ret (1, assign uic_theme 2 (snd a))
    else Die ("Unknown --color option: " ++ fst a ++ nl)
  else Ret (0, g).

(** The lines [arg_help] prints. *)
Definition help_lines : list string :=
  ([ "ncdu <options> <directory>"; "";
    "  -h,--help                  This help message";
    "  -q                         Quiet mode, refresh interval 2 seconds";
    "  -v,-V,--version            Print version";
    "  -x                         Same filesystem";
    "  -e                         Enable extended information";
    "  -r                         Read only";
    "  -o FILE                    Export scanned directory to FILE";
    "  -f FILE                    Import scanned directory from FILE";
    "  -0,-1,-2                   UI to use when scanning (0=none,2=full ncurses)";
    "  --si                       Use base 10 (SI) prefixes instead of base 2";
    "  --exclude PATTERN          Exclude files that match PATTERN";
    "  -X, --exclude-from FILE    Exclude files that match any pattern in FILE";
    "  -L, --follow-symlinks      Follow symbolic links (excluding directories)";
    "  --exclude-caches           Exclude directories containing CACHEDIR.TAG" ]
  ++ (if have_statfs
      then ["  --exclude-kernfs           Exclude Linux pseudo filesystems (procfs,sysfs,cgroup,...)"]
      else [])
  ++ (if have_firmlinks
      then ["  --exclude-firmlinks        Exclude firmlinks on macOS"]
      else [])
  ++ [ "  --confirm-quit             Confirm quitting ncdu";
       "  --color SCHEME             Set color scheme (off/dark/dark-bg)" ])%list.

Definition arg_help {A : Type} : outcome A :=
  Exit (String.concat nl help_lines ++ nl).

(** The locals of [argv_parse]; [emitted] is not in the program: it lists
    what each parse step of the loop returned (its code and [last]). *)
Record locals := mkLocals {
  glob : globals;
  export : option string;
  import : option string;
  dir : option string;
  emitted : list (Z * option string)
}.

Definition loop_body (r : Z) (s : locals) : outcome locals :=
  let g := glob s in
  let em := (emitted s ++ [(r, last (argparser_state g))])%list in
  if (r =? 2)%Z then
    Ret (mkLocals g (export s) (import s) (last (argparser_state g)) em)
  else if OPT g "-v" || OPT g "-V" || OPT g "--version" then
    Exit ("ncdu " ++ PACKAGE_VERSION ++ nl)
  else if OPT g "-h" || OPT g "-?" || OPT g "--help" then arg_help
  else if OPT g "-o" then
    a <-- ARG g ;;; Ret (mkLocals (snd a) (Some (fst a)) (import s) (dir s) em)
  else if OPT g "-f" then
    a <-- ARG g ;;; Ret (mkLocals (snd a) (export s) (Some (fst a)) (dir s) em)
  else
    o <-- arg_option g ;;;
    if (fst o =? 0)%Z
    then Die ("Unknown option '" ++ shown (last (argparser_state (snd o))) ++ "'." ++ nl)
    else Ret (mkLocals (snd o) (export s) (import s) (dir s) em).

(** [while((r = argparser_next(&argparser_state)) > 0) ...], for at most
    [fuel] parse steps; [None] when they do not suffice. *)
Fixpoint parse_loop (fuel : nat) (s : locals) : option (outcome locals) :=
  match fuel with
  | O => None
  | S fuel' =>
      match argparser_next (argparser_state (glob s)) with
      | Ret (r, p) =>
          let s1 := mkLocals (with_parser (glob s) p) (export s) (import s)
                             (dir s) (emitted s) in
          if r >? 0 then
            match loop_body r s1 with
            | Ret s2 => parse_loop fuel' s2
            | Die m => Some (Die m)
            | Exit o => Some (Exit o)
            | Undef => Some Undef
            end
          else Some (Ret s1)
      | Die m => Some (Die m)
      | Exit o => Some (Exit o)
      | Undef => Some Undef
      end
  end.

(** What is left to parse: the rest of the short-option run and the tokens
    not yet popped.  Every parse step that returns an option or an argument
    uses up a character of the run or a whole token. *)
Definition tokens_left (av : list string) : nat :=
  fold_right (fun a n => n + S (String.length a))%nat O av.

Definition remaining (p : argparser) : nat :=
  (match shortopt p with Some buf => String.length buf | None => O end
   + tokens_left (argv p))%nat.

Definition budget (av : list string) : nat := S (tokens_left av).

(** The backends [argv_parse] selects. *)
Inductive sink := dir_export (file : string) | dir_mem.
Inductive source := dir_import (file : string) | dir_scan (path : string).

Record startup := mkStartup {
  settings : globals;
  output : sink;
  input : source;
  tokens : list (Z * option string)
}.

Definition select_backends (s : locals) : outcome startup :=
  let g := glob s in
  if negb have_statfs && negb (var g exclude_kernfs =? 0)%Z then
    Die ("The --exclude-kernfs flag is currently only supported on Linux." ++ nl)
  else
  og <-- match export s with
         | Some e =>
             if negb (dir_export_init e =? 0)%Z
             then Die ("Can't open " ++ e ++ ": " ++ strerror_errno e ++ nl)
             else Ret (dir_export e,
                       if String.eqb e "-" then assign ncurses_tty 1 g else g)
         | None => Ret (dir_mem, g)
         end ;;;
  ig <-- match import s with
         | Some i =>
             if negb (dir_import_init i =? 0)%Z
             then Die ("Can't open " ++ i ++ ": " ++ strerror_errno i ++ nl)
             else Ret (dir_import i,
                       if String.eqb i "-" then assign ncurses_tty 1 (snd og)
                       else snd og)
         | None =>
             Ret (dir_scan (match dir s with Some d => d | None => "." end), snd og)
         end ;;;
  let g2 := snd ig in
  (* Use the single-line scan feedback by default when exporting to file, no
     feedback when exporting to stdout. *)
  let g3 := if (var g2 dir_ui =? -1)%Z
            then assign dir_ui
                   (match export s with
                    | Some e => if String.eqb e "-" then 0 else 1
                    | None => 2
                    end) g2
            else g2 in
  Ret (mkStartup g3 (fst og) (fst ig) (emitted s)).

(** [argv_parse(argc, argv)]; [args] is the whole vector, program name
    first, and [g0] the globals at entry. *)
Definition argv_parse (args : list string) (g0 : globals) : option (outcome startup) :=
  let g1 := assign si 0 (assign dir_ui (-1)
              (assign uic_theme (if no_color then 0 else 2) g0)) in
  match argparser_next (mkParser args None None None false) with
  | Ret (_, p) => (* skip program name *)
      match parse_loop (budget args) (mkLocals (with_parser g1 p) None None None []) with
      | Some (Ret s) => Some (select_backends s)
      | Some (Die m) => Some (Die m)
      | Some (Exit o) => Some (Exit o)
      | Some Undef => Some Undef
      | None => None
      end
  | Die m => Some (Die m)
  | Exit o => Some (Exit o)
  | Undef => Some Undef
  end.

(** The globals when [main] starts. *)
Definition initial_globals : globals :=
  mkGlobals initial_var [] (mkParser [] None None None false).

(** [main] up to its loop: the scan, and everything else the loop drives,
    runs in [main_loop], after the arguments were parsed. *)
Definition main {R : Type} (main_loop : startup -> outcome R) (args : list string)
  : option (outcome R) :=
  match argv_parse args initial_globals with
  | Some r => Some (bind r main_loop)
  | None => None
  end.

End Startup.

(** For the examples: a build on Linux where every file opens and
    [NO_COLOR] is not set. *)
Definition parse_on_linux (args : list string) : option (outcome startup) :=
  argv_parse (fun _ => 0) (fun _ => "No such file or directory") "1.17"
    true false false (fun _ => 0) (fun _ => 0) args initial_globals.

End Args.

(** ** The redraw and input scheduler ([input_handle] of [main.c]) *)
Module Sched.
Local Open Scope Z_scope.

(** The values of [pstate]. *)
Inductive Mode := ST_CALC | ST_BROWSE | ST_HELP | ST_SHELL | ST_DEL | ST_QUIT.

(** Constants of [<curses.h>] and [<errno.h>]. *)
Definition ERR : Z := -1.
Definition KEY_RESIZE : Z := 410.
Definition EPIPE : Z := 32.
Definition EBADF : Z := 9.
Definition EIO : Z := 5.

(** The file-static variables of [main.c]: no other module reaches them. *)
Record statics := mkStatics {
  ncurses_init : bool;
  lastupdate : Z;
  min_rows : Z;
  min_cols : Z
}.

Definition initial_statics : statics := mkStatics false 999 17 60.

(** The globals the modes share, and the terminal: [pending] holds what the
    calls of [getch] will return one after the other ([ERR] once it is
    used up), [errno_left] the [errno] the failing call leaves behind. *)
Record shared := mkShared {
  pstate : Mode;
  update_delay : Z;
  dir : Tracker.state;
  pending : list Z;
  errno_left : Z;
  nodelay : bool
}.

Definition with_pending (sh : shared) (keys : list Z) : shared :=
  mkShared (pstate sh) (update_delay sh) (dir sh) keys (errno_left sh) (nodelay sh).
Definition with_nodelay (sh : shared) (b : bool) : shared :=
  mkShared (pstate sh) (update_delay sh) (dir sh) (pending sh) (errno_left sh) b.
Definition with_lastupdate (s : statics) (b : Z) : statics :=
  mkStatics (ncurses_init s) b (min_rows s) (min_cols s).
Definition with_min (s : statics) (r c : Z) : statics :=
  mkStatics (ncurses_init s) (lastupdate s) r c.

(** [struct timeval]. *)
Record timeval := mkTimeval { tv_sec : Z; tv_usec : Z }.

(** Where [input_handle] calls [screen_draw], and what a call renders. *)
Inductive call_site := Unconditional | Throttled | Resized | Unhandled.

Inductive rendering :=
| dir_draw (ws : list Tracker.widget)
| browse_draw | help_draw | shell_draw | delete_draw | quit_draw.

Record frame := mkFrame { site : call_site; shown : rendering }.

Definition screen_draw (at_site : call_site) (sh : shared) : frame :=
  mkFrame at_site
    match pstate sh with
    | ST_CALC => dir_draw (Tracker.dir_draw (dir sh))
    | ST_BROWSE => browse_draw
    | ST_HELP => help_draw
    | ST_SHELL => shell_draw
    | ST_DEL => delete_draw
    | ST_QUIT => quit_draw
    end.

(** The time bucket of a throttled tick: milliseconds within the 1000
    second cycle over the refresh interval, in C's truncating arithmetic. *)
Definition bucket (delay : Z) (tv : timeval) : Z :=
  Z.quot (1000 * Z.rem (tv_sec tv) 1000 + Z.quot (tv_usec tv) 1000) delay.

(** The key handlers of the other modes and the size renegotiation are
    outside this program part.  A handler may change every shared global;
    of [ncresize] only the result is kept. *)
Section Collaborators.
Variables browse_key help_key delete_key quit_key : Z -> shared -> Z * shared.
Variable ncresize : Z -> Z -> shared -> Z.

(** [while((ch = getch()) != ERR) ...] and the return after it; [keys] is
    [pending sh]. *)
Fixpoint drain (wait : Z) (keys : list Z) (s : statics) (sh : shared)
  (out : list frame) : Z * (statics * shared) * list frame :=
  let finish rest :=
    let errno := errno_left sh in
    (if (errno =? EPIPE) || (errno =? EBADF) || (errno =? EIO) then 1 else 0,
     (s, with_pending sh rest), out) in
  match keys with
  | [] => finish []
  | ch :: rest =>
      if ch =? ERR then finish rest
      else if ch =? KEY_RESIZE then
        let sh1 := with_pending sh rest in
        let s1 := if negb (ncresize (min_rows s) (min_cols s) sh1 =? 0)
                  then with_min s 0 0 else s in
        (* ncresize() may change nodelay state, make sure to revert it. *)
        let sh2 := with_nodelay sh1 (negb (wait =? 0)) in
        drain wait rest s1 sh2 (out ++ [screen_draw Resized sh2])
      else
        let sh1 := with_pending sh rest in
        let handled (r : Z * shared) := (fst r, (s, snd r), out) in
        match pstate sh1 with
        | ST_CALC => (Tracker.dir_key ch (dir sh1), (s, sh1), out)
        | ST_BROWSE => handled (browse_key ch sh1)
        | ST_HELP => handled (help_key ch sh1)
        | ST_DEL => handled (delete_key ch sh1)
        | ST_QUIT => handled (quit_key ch sh1)
        | ST_SHELL => drain wait rest s sh1 (out ++ [screen_draw Unhandled sh1])
        end
  end.

(** wait:
     -1: non-blocking, always draw screen
      0: blocking wait for input and always draw screen
      1: non-blocking, draw screen only if a configured delay has passed or
         after keypress
    [tv] is what [gettimeofday] reports.  The result is the value returned,
    the variables afterwards and the frames drawn, in order; [None] when the
    bucket is a division by zero. *)
Definition input_handle (wait : Z) (tv : timeval) (s : statics) (sh : shared)
  : option (Z * (statics * shared) * list frame) :=
  drawn <- (if negb (wait =? 1) then Some (s, [screen_draw Unconditional sh])
            else if update_delay sh =? 0 then None
            else let b := bucket (update_delay sh) tv in
                 if negb (lastupdate s =? b)
                 then Some (with_lastupdate s b, [screen_draw Throttled sh])
                 else Some (s, [])) ;;
  let s1 := fst drawn in
  (* No actual input handling is done if ncurses hasn't been initialized yet. *)
  if negb (ncurses_init s1) then
    Some (if wait =? 0 then 1 else 0, (s1, sh), snd drawn)
  else
    let sh1 := with_nodelay sh (negb (wait =? 0)) in
    Some (drain wait (pending sh1) s1 sh1 (snd drawn)).

(** A series of throttled ticks.  Between two ticks the rest of the program
    runs, so each tick comes with the variables it starts from; only
    [lastupdate], which nothing but [input_handle] writes, is carried over
    from the tick before.  The result lists the frames of each tick. *)
Fixpoint throttled_ticks (recorded : Z) (ts : list (timeval * (statics * shared)))
  : option (list (list frame)) :=
  match ts with
  | [] => Some []
  | (tv, (s, sh)) :: rest =>
      r <- input_handle 1 tv (with_lastupdate s recorded) sh ;;
      more <- throttled_ticks (lastupdate (fst (snd (fst r)))) rest ;;
      Some (snd r :: more)
  end.

End Collaborators.

Definition is_site (c : call_site) (f : frame) : bool :=
  match c, site f with
  | Unconditional, Unconditional | Throttled, Throttled
  | Resized, Resized | Unhandled, Unhandled => true
  | _, _ => false
  end.

(** A tick redraws when it draws any frame; its redraw is the scheduled one
    when the frame comes from the throttled branch. *)
Definition redraws (fs : list frame) : bool := negb (Nat.eqb (length fs) 0).

Definition scheduled (fs : list frame) : bool := existsb (is_site Throttled) fs.

(** A frame drawn while the input is drained: after a resize notification,
    or after a key that no handler took, which is a key in [ST_SHELL]. *)
Definition answers_input (keys : list Z) (f : frame) : Prop :=
  (site f = Resized /\ In KEY_RESIZE keys)
  \/ (site f = Unhandled /\ shown f = shell_draw).

(** The frames of a throttled tick that starts from [s] and [sh]: the
    scheduled frame, if the tick draws it, and then only answers to the input
    of an initialized terminal. *)
Definition tick_frames (s : statics) (sh : shared) (fs : list frame) : Prop :=
  exists extra,
    fs = (if scheduled fs then [screen_draw Throttled sh] else []) ++ extra
    /\ Forall (answers_input (pending sh)) extra
    /\ (ncurses_init s = false \/ pending sh = [] -> extra = []).

(** For the examples: handlers that take every key and go on, a terminal
    that is large enough, and shared variables in the mode [m], with refresh
    interval 100 and the keys [keys] pending. *)
Definition go_on (ch : Z) (sh : shared) : Z * shared := (0, sh).
Definition fits (rows cols : Z) (sh : shared) : Z := 0.

Definition idle (m : Mode) (keys : list Z) : shared :=
  mkShared m 100 Tracker.init keys 0 false.

(** The minimum sizes [s1] has: those of [s], or both 0. *)
Definition same_or_collapsed (s s1 : statics) : Prop :=
  (min_rows s1 = min_rows s /\ min_cols s1 = min_cols s)
  \/ (min_rows s1 = 0 /\ min_cols s1 = 0).

(** All ticks of a series fall into the bucket [b]. *)
Definition same_bucket (b : Z) (ts : list (timeval * (statics * shared))) : Prop :=
  Forall (fun t => bucket (update_delay (snd (snd t))) (fst t) = b) ts.

End Sched.

(** ** Walks of the current path *)
Module Walk.
Import CStr Tracker.

(** [dir_curpath_enter] for each name of a list, in order. *)
Fixpoint enter_all (junk : nat -> ascii) (names : list (list ascii)) (st : state)
  : option state :=
  match names with
  | [] => Some st
  | name :: rest =>
      st1 <- dir_curpath_enter junk name st ;;
      enter_all junk rest st1
  end.

(** [dir_curpath_leave], [k] times. *)
Fixpoint leave_times (k : nat) (st : state) : option state :=
  match k with
  | O => Some st
  | S k' =>
      st1 <- dir_curpath_leave st ;;
      leave_times k' st1
  end.

(** The characters the names of a walk add to the path, slashes included. *)
Definition walk_length (names : list (list ascii)) : nat :=
  fold_right (fun name n => S (strlen name) + n)%nat O names.

(** A path that starts with a slash, and one that starts with two. *)
Definition leading_slash (p : list ascii) : bool :=
  match p with
  | a :: _ => Ascii.eqb a "/"
  | [] => false
  end.

Definition double_slash (p : list ascii) : bool :=
  match p with
  | a :: b :: _ => Ascii.eqb a "/" && Ascii.eqb b "/"
  | _ => false
  end.

(** The length a block has, or 0 for no block. *)
Definition block_length (p : option (list ascii)) : Z :=
  match p with Some m => Z.of_nat (length m) | None => 0%Z end.

End Walk.

(** ** The progress box ([draw_progress] of [dir_common.c]) *)
Module Progress.
Import CStr.
Local Open Scope Z_scope.

(** [static const char antext[] = "Scanning...";] with its terminator. *)
Definition antext : list ascii := lit "Scanning..." ++ [NUL].

(** [size_t] arithmetic. *)
Definition size_t (z : Z) : Z := z mod 2 ^ 64.

(** [for(i=0; i<=anpos; i++) ani[i] = antext[i];] with [n] rounds to go. *)
Fixpoint copy_up (n i : nat) (ani : list ascii) : option (list ascii) :=
  match n with
  | O => Some ani
  | S n' =>
      c <- nth_error antext i ;;
      ani' <- poke ani i c ;;
      copy_up n' (S i) ani'
  end.

(** [for(i; i>bound; i--) ani[i] = antext[i];] where [bound] is
    [anpos-strlen(antext)]; [i--] at 0 wraps around and leaves the array. *)
Fixpoint copy_down (i : nat) (bound : Z) (ani : list ascii) : option (list ascii) :=
  if Z.of_nat i >? bound then
    c <- nth_error antext i ;;
    ani' <- poke ani i c ;;
    match i with
    | O => None
    | S i' => copy_down i' bound ani'
    end
  else Some ani.

(** The animation of [draw_progress]: the new [anpos] and the array [ani]
    handed to [ncaddstr]. *)
Definition animate (update_delay anpos : Z) : option (Z * list ascii) :=
  let ani := repeat NUL 20 in
  (* animation - but only if the screen refreshes more than or once every second *)
  if update_delay <=? 1000 then
    let anpos1 := size_t (anpos + 1) in
    let anpos2 := if anpos1 =? Z.of_nat (strlen antext) * 2 then 0 else anpos1 in
    a1 <- store ani 0 (repeat " "%char (strlen antext)) ;;
    a2 <- (if anpos2 <? Z.of_nat (strlen antext)
           then copy_up (Z.to_nat (anpos2 + 1)) 0 a1
           else copy_down (strlen antext - 1) (anpos2 - Z.of_nat (strlen antext)) a1) ;;
    Some (anpos2, a2)
  else
    a <- strcpy ani antext ;;
    Some (anpos, a).

(** The calls into the terminal layer. *)
Inductive arg := IntArg (z : Z) | StrArg (s : list ascii).

Inductive call :=
| nccreate (height width : Z) (title : list ascii)
| ncprint (y x : Z) (fmt : list ascii) (args : list arg)
| ncaddstr (y x : Z) (s : list ascii)
| attron_bold
| attroff_bold.

(** The width of the window and the helpers [formatsize] and [cropstr]
    come from the terminal layer. *)
Section Rendering.
Variable wincols : Z.
Variable formatsize : Z -> list ascii.
Variable cropstr : list ascii -> Z -> list ascii.

(** [draw_progress()], with the item count and size of [dir_output]: the new
    [anpos] and the calls made, in order. *)
Definition draw_progress (items size update_delay : Z) (st : Tracker.state)
  (anpos : Z) : option (Z * list call) :=
  let width := wincols - 5 in
  cur <- Tracker.dir_curpath st ;;
  if terminated cur then
    warning <- match Tracker.lasterr st with
               | Some e =>
                   (* show warning if we couldn't open a dir *)
                   if terminated e then
                     Some [ attron_bold; ncaddstr 5 2 (lit "Warning:"); attroff_bold;
                            ncprint 5 11 (lit "error scanning %-32s")
                              [StrArg (cropstr (cstr e) (width - 28))];
                            ncaddstr 6 3 (lit "some directory sizes may not be correct") ]
                   else None
               | None => Some []
               end ;;
    a <- animate update_delay anpos ;;
    Some (fst a,
          [ nccreate 10 width (lit "Scanning...");
            ncprint 2 2 (lit "Total items: %-8d size: %s")
              [IntArg items; StrArg (formatsize size)];
            ncprint 3 2 (lit "Current item: %s")
              [StrArg (cropstr (cstr cur) (width - 18))];
            ncaddstr 8 (width - 18) (lit "Press q to abort") ]
          ++ warning
          ++ [ ncaddstr 8 3 (cstr (snd a)) ])
  else None.

End Rendering.

(** The frame of the marquee at position [k]: the label grows from its
    first character, and is then wiped out from the left. *)
Definition marquee (k : Z) : list ascii :=
  if k <? 11
  then firstn (Z.to_nat (k + 1)) (lit "Scanning...")
       ++ repeat " "%char (Z.to_nat (10 - k))
  else repeat " "%char (Z.to_nat (k - 10))
       ++ skipn (Z.to_nat (k - 10)) (lit "Scanning...").

(** A text made of blanks and of characters of the label at their places. *)
Definition drawn_from_label (text : list ascii) : Prop :=
  Forall2 (fun c t => c = " "%char \/ c = t) text (lit "Scanning...").

(** [n] draws in a row: the last [anpos] and the texts shown. *)
Fixpoint animate_times (n : nat) (update_delay anpos : Z)
  : option (Z * list (list ascii)) :=
  match n with
  | O => Some (anpos, [])
  | S n' =>
      a <- animate update_delay anpos ;;
      more <- animate_times n' update_delay (fst a) ;;
      Some (fst more, cstr (snd a) :: snd more)
  end.

End Progress.

(** ** Runs of parse steps *)
Module Tokens.
Import Args.
Local Open Scope Z_scope.
Local Open Scope string_scope.

(** What [argparser_next] relies on: a pending short-option run is not
    empty, and there is none once the separator was seen (so that [argsep]
    is 0 whenever [shortbuf] is read as a string). *)
Definition tidy (p : argparser) : bool :=
  match shortopt p with
  | Some EmptyString => false
  | Some _ => negb (argsep p)
  | None => true
  end.

(** A parser before a token is popped: no run and no value pending. *)
Definition between_tokens (p : argparser) : bool :=
  match shortopt p, last_arg p with
  | None, None => true
  | _, _ => false
  end.

(** [n] parse steps in a row, with what each returned. *)
Fixpoint parse_steps (n : nat) (p : argparser)
  : outcome (list (Z * option string) * argparser) :=
  match n with
  | O => Ret ([], p)
  | S n' =>
      r <-- argparser_next p ;;;
      more <-- parse_steps n' (snd r) ;;;
      Ret ((fst r, last (snd r)) :: fst more, snd more)
  end.

(** A parse step and the retrieval of the value of its option. *)
Definition next_with_value (p : argparser) : outcome (string * argparser) :=
  r <-- argparser_next p ;;;
  argparser_arg (snd r).

(** The short option [-c]. *)
Definition short (c : ascii) : string := String "-" (String c "").

(** [c] occurs in [s]. *)
Fixpoint occurs (c : ascii) (s : string) : bool :=
  match s with
  | EmptyString => false
  | String x r => Ascii.eqb x c || occurs c r
  end.

(** A name that starts with two dashes. *)
Definition long_form (name : string) : bool :=
  Ascii.eqb (deref name) "-" && Ascii.eqb (deref (advance name)) "-".

(** What a parse step returns: the end of the arguments, an option, or a
    positional argument taken from the arguments. *)
Definition step_result (av : list string) (r : Z) (p' : argparser) : Prop :=
  (r = 0 /\ last p' = None /\ argv p' = [])
  \/ (r = 1 /\ exists name, last p' = Some name
                            /\ ((exists c, name = short c)
                                \/ long_form name = true))
  \/ (r = 2 /\ exists a, last p' = Some a /\ In a av /\ between_tokens p' = true).

(** The values the option parser can leave in the settings. *)
Definition sane (g : globals) : Prop :=
  (var g update_delay = 100 \/ var g update_delay = 2000)
  /\ (var g dir_ui = -1 \/ var g dir_ui = 0 \/ var g dir_ui = 1 \/ var g dir_ui = 2)
  /\ (var g uic_theme = 0 \/ var g uic_theme = 1 \/ var g uic_theme = 2)
  /\ 0 <= var g read_only
  /\ (forall x, In x [dir_scan_smfs; extended_info; si; follow_symlinks;
                       cachedir_tags; exclude_kernfs; follow_firmlinks;
                       confirm_quit; ncurses_tty] ->
                var g x = 0 \/ var g x = 1).

(** The values an assignment of the parser may give to a setting. *)
Definition allowed (x : setting) (v : Z) : Prop :=
  match x with
  | update_delay => v = 100 \/ v = 2000
  | dir_ui => v = -1 \/ v = 0 \/ v = 1 \/ v = 2
  | uic_theme => v = 0 \/ v = 1 \/ v = 2
  | read_only => 0 <= v
  | _ => v = 0 \/ v = 1
  end.

End Tokens.

(** ** The terminal set-up and the main loop ([init_nc], [close_nc] and
    [main] of [main.c]) *)
Module Driver.
Import Args Sched.
Local Open Scope Z_scope.
Local Open Scope string_scope.

(** The calls into the terminal library and the standard streams, and the
    frames drawn. *)
Inductive term_call :=
| fopen_tty | newterm | set_term | isatty_stdin | initscr
| uic_init | cbreak | noecho | curs_set (visibility : Z) | keypad | bkgd
| ncresize_call (rows cols : Z)
| erase | refresh | endwin
| newline_stderr
| exclude_clear
| screen (f : frame).

Definition with_init (s : statics) (b : bool) : statics :=
  mkStatics b (lastupdate s) (min_rows s) (min_cols s).

(** The state the main loop runs on: the file-static variables, the shared
    variables, the global [dir_ui], and the calls made so far. *)
Record world := mkWorld {
  vars : statics;
  shared_vars : shared;
  dir_ui : Z;
  calls : list term_call
}.

Definition log (w : world) (cs : list term_call) : world :=
  mkWorld (vars w) (shared_vars w) (dir_ui w) (calls w ++ cs)%list.

(** What the terminal answers, and the steps of the scan and of the
    deletion, which the loop only calls.  [ncurses_tty] is static in
    [main.c] and written by [argv_parse] only. *)
Section Environment.
Variable ncurses_tty : Z.
Variable tty_opens : bool.       (* fopen("/dev/tty", "r+") is not NULL *)
Variable newterm_ok : bool.      (* newterm() is not NULL *)
Variable stdin_is_tty : bool.    (* isatty(0) *)
Variable initscr_ok : bool.      (* initscr() is not NULL *)
Variable strerror_errno : string.
Variable ncresize : Z -> Z -> shared -> Z.
Variables browse_key help_key delete_key quit_key : Z -> shared -> Z * shared.
Variable dir_process : world -> Z * world.
Variable delete_process : world -> world.

(** Initializes ncurses only when not done yet. *)
Definition init_nc (w : world) : outcome world :=
  if ncurses_init (vars w) then Ret w
  else
    let w1 := mkWorld (with_init (vars w) true) (shared_vars w) (dir_ui w) (calls w) in
    opened <-- (if negb (ncurses_tty =? 0)%Z then
                  if negb tty_opens
                  then Die ("Error opening /dev/tty: " ++ strerror_errno ++ nl)
                  else Ret (newterm_ok,
                            log w1 ([fopen_tty; newterm]
                                    ++ (if newterm_ok then [set_term] else []))%list)
                else
                  (* Make sure the user doesn't accidentally pipe in data to
                     ncdu's standard input without using "-f -". *)
                  if negb stdin_is_tty
                  then Die ("Standard input is not a TTY. Did you mean to import a file using '-f -'?" ++ nl)
                  else Ret (initscr_ok, log w1 [isatty_stdin; initscr])) ;;;
    if negb (fst opened) then Die ("Error while initializing ncurses." ++ nl)
    else
      let w2 := log (snd opened)
                  [uic_init; cbreak; noecho; curs_set 0; keypad; bkgd;
                   ncresize_call (min_rows (vars w1)) (min_cols (vars w1))] in
      if negb (ncresize (min_rows (vars w1)) (min_cols (vars w1)) (shared_vars w1) =? 0)%Z
      then Ret (mkWorld (with_min (vars w2) 0 0) (shared_vars w2) (dir_ui w2) (calls w2))
      else Ret w2.

Definition close_nc (w : world) : world :=
  if ncurses_init (vars w) then log w [erase; refresh; endwin] else w.

(** One round of [while(1)] in [main]: [true] is [break].  [input_handle(0)]
    does not look at the clock, so that any time serves. *)
Definition main_round (w : world) : outcome (bool * world) :=
  (* We may need to initialize/clean up the screen when switching from the
     (sometimes non-ncurses) CALC state to something else. *)
  w1 <-- (match pstate (shared_vars w) with
          | ST_CALC => Ret w
          | _ => init_nc (if (dir_ui w =? 1)%Z then log w [newline_stderr] else w)
          end) ;;;
  match pstate (shared_vars w1) with
  | ST_CALC =>
      let r := dir_process w1 in
      if negb (fst r =? 0)%Z
      then Ret (true, if (dir_ui (snd r) =? 1)%Z
                      then log (snd r) [newline_stderr] else snd r)
      else Ret (false, snd r)
  | ST_DEL => Ret (false, delete_process w1)
  | _ =>
      match input_handle browse_key help_key delete_key quit_key ncresize
              0 (mkTimeval 0 0) (vars w1) (shared_vars w1) with
      | Some (r, (s, sh), fs) =>
          Ret (negb (r =? 0)%Z,
               mkWorld s sh (dir_ui w1) (calls w1 ++ map screen fs)%list)
      | None => Undef
      end
  end.

(** [while(1)] for at most [rounds] rounds: the world at the [break], or
    [None] when the loop goes on after them. *)
Fixpoint main_loop (rounds : nat) (w : world) : outcome (option world) :=
  match rounds with
  | O => Ret None
  | S more =>
      r <-- main_round w ;;;
      if fst r then Ret (Some (snd r)) else main_loop more (snd r)
  end.

(** [main] after [argv_parse]. *)
Definition run (rounds : nat) (w0 : world) : outcome (option world) :=
  w <-- (if (dir_ui w0 =? 2)%Z then init_nc w0 else Ret w0) ;;;
  r <-- main_loop rounds w ;;;
  Ret (match r with
       | Some w' => Some (log (close_nc w') [exclude_clear])
       | None => None
       end).

(** The handler [input_handle] passes a key to in the mode [m]; a key in
    [ST_SHELL] goes to none. *)
Definition handler (m : Mode) : option (Z -> shared -> Z * shared) :=
  match m with
  | ST_BROWSE => Some browse_key
  | ST_HELP => Some help_key
  | ST_DEL => Some delete_key
  | ST_QUIT => Some quit_key
  | ST_CALC | ST_SHELL => None
  end.

(** The shared variables a key handler receives in a blocking tick that
    starts from [sh], when the keys behind its key are [rest]. *)
Definition handed (sh : shared) (rest : list Z) : shared :=
  with_pending (with_nodelay sh false) rest.

(** In the blocking tick that starts from [sh] a pending key, behind resize
    notifications only, reaches the handler of the mode, which returns [r]
    and leaves the shared variables [sh']. *)
Definition handler_answers (sh : shared) (r : Z) (sh' : shared) : Prop :=
  exists h k ch rest,
    handler (pstate sh) = Some h
    /\ pending sh = (repeat KEY_RESIZE k ++ ch :: rest)%list
    /\ ch <> ERR /\ ch <> KEY_RESIZE
    /\ h ch (handed sh rest) = (r, sh').

End Environment.

(** The [errno] values after which [input_handle] returns 1. *)
Definition input_failed (sh : shared) : bool :=
  (errno_left sh =? EPIPE)%Z || (errno_left sh =? EBADF)%Z || (errno_left sh =? EIO)%Z.

(** The world when [main] starts its loop. *)
Definition fresh (sh : shared) (ui : Z) : world := mkWorld initial_statics sh ui [].

(** The calls that open the terminal, and the call that ends it. *)
Definition opens (c : term_call) : bool :=
  match c with initscr | newterm => true | _ => false end.

Definition ends (c : term_call) : bool :=
  match c with endwin => true | _ => false end.

(** The calls of [init_nc] once the screen is open. *)
Definition setup_calls (rows cols : Z) : list term_call :=
  [uic_init; cbreak; noecho; curs_set 0; keypad; bkgd; ncresize_call rows cols].

(** A step of the scan or of the deletion does not reach [ncurses_init],
    and neither opens nor ends the terminal. *)
Definition outside (step : world -> world) : Prop :=
  forall w, ncurses_init (vars (step w)) = ncurses_init (vars w)
            /\ exists cs, calls (step w) = (calls w ++ cs)%list
                          /\ filter opens cs = [] /\ filter ends cs = [].

(** The terminal was not ended, and was opened once if [ncurses_init] is
    set and not at all otherwise. *)
Definition consistent (w : world) : Prop :=
  filter ends (calls w) = []
  /\ length (filter opens (calls w)) = (if ncurses_init (vars w) then 1 else 0)%nat.

(** For the examples: a scan that ends at once. *)
Definition scan_done (w : world) : Z * world := (1, w).

End Driver.

(** * Properties *)

(** ** Strings in blocks *)
Module CStrFacts.
Import CStr.

Lemma is_nul_true (c : ascii) : is_nul c = true <-> c = NUL.
Proof. unfold is_nul. apply Ascii.eqb_eq. Qed.

Lemma cstr_lacks_nul (m : list ascii) : lacks NUL (cstr m) = true.
Proof.
  induction m as [|c m IH]; simpl; [reflexivity|].
  destruct (is_nul c) eqn:E; simpl; [reflexivity|].
  unfold is_nul in E. rewrite E. simpl. exact IH.
Qed.

Lemma cstr_app_nul (s r : list ascii) :
  lacks NUL s = true -> cstr (s ++ NUL :: r) = s.
Proof.
  induction s as [|c s IH]; simpl; intros H.
  - reflexivity.
  - apply andb_prop in H. destruct H as [Hc Hs].
    unfold is_nul. apply negb_true_iff in Hc. rewrite Hc.
    f_equal. apply IH, Hs.
Qed.

Lemma cstr_fixed (s : list ascii) : lacks NUL s = true -> cstr s = s.
Proof.
  induction s as [|c s IH]; simpl; intros H; [reflexivity|].
  apply andb_prop in H. destruct H as [Hc Hs].
  unfold is_nul. apply negb_true_iff in Hc. rewrite Hc.
  f_equal. apply IH, Hs.
Qed.

Lemma lacks_app (c : ascii) (a b : list ascii) :
  lacks c (a ++ b) = lacks c a && lacks c b.
Proof. unfold lacks. apply forallb_app. Qed.

Lemma lacks_firstn (c : ascii) (n : nat) (s : list ascii) :
  lacks c s = true -> lacks c (firstn n s) = true.
Proof.
  revert n. induction s as [|x s IH]; intros [|n] H; simpl in *; try reflexivity.
  apply andb_prop in H. destruct H as [Hx Hs].
  rewrite Hx. simpl. apply IH, Hs.
Qed.

Lemma terminated_app_nul (a b : list ascii) : terminated (a ++ NUL :: b) = true.
Proof.
  unfold terminated. rewrite existsb_app. simpl.
  apply orb_true_r.
Qed.

(** A block that holds a string is that string, its terminator and the
    bytes behind it. *)
Lemma terminated_split (m : list ascii) :
  terminated m = true -> m = cstr m ++ NUL :: skipn (S (strlen m)) m.
Proof.
  unfold strlen.
  induction m as [|c m IH]; simpl; intros H; [discriminate|].
  destruct (is_nul c) eqn:E.
  - apply is_nul_true in E. subst c. reflexivity.
  - simpl in H. simpl. f_equal. apply IH, H.
Qed.

Lemma strlen_lt (m : list ascii) :
  terminated m = true -> (strlen m < length m)%nat.
Proof.
  intros H. apply terminated_split in H.
  rewrite H at 2. rewrite length_app. simpl. unfold strlen. lia.
Qed.

Lemma firstn_cstr (n : nat) (m : list ascii) :
  (n <= strlen m)%nat -> firstn n m = firstn n (cstr m).
Proof.
  unfold strlen. revert n.
  induction m as [|c m IH]; intros [|n] H; simpl in *; try reflexivity.
  destruct (is_nul c); simpl in *; [lia|].
  f_equal. apply IH. lia.
Qed.

Lemma store_length (m : list ascii) (off : nat) (bytes m' : list ascii) :
  store m off bytes = Some m' -> length m' = length m.
Proof.
  unfold store. destruct (Nat.leb_spec (off + length bytes) (length m)); [|discriminate].
  intros E. injection E as <-.
  rewrite !length_app, length_firstn, length_skipn. lia.
Qed.

(** Writing a terminated text inside the string of a block. *)
Lemma store_text (m : list ascii) (off : nat) (bytes : list ascii) :
  lacks NUL bytes = true ->
  (off <= strlen m)%nat ->
  (off + length bytes + 1 <= length m)%nat ->
  exists m', store m off (bytes ++ [NUL]) = Some m'
             /\ cstr m' = firstn off (cstr m) ++ bytes
             /\ length m' = length m
             /\ terminated m' = true.
Proof.
  intros Hb Hoff Hfit.
  assert (E : store m off (bytes ++ [NUL])
              = Some (firstn off m ++ (bytes ++ [NUL])
                        ++ skipn (off + length (bytes ++ [NUL])) m)).
  { unfold store. rewrite length_app. simpl.
    destruct (Nat.leb_spec (off + (length bytes + 1)) (length m)); [reflexivity | lia]. }
  eexists. split; [exact E|].
  split; [|split].
  - rewrite firstn_cstr by exact Hoff.
    rewrite <- app_assoc. simpl.
    rewrite app_assoc. apply cstr_app_nul.
    rewrite lacks_app, Hb, lacks_firstn; [reflexivity | apply cstr_lacks_nul].
  - apply store_length in E. exact E.
  - rewrite <- app_assoc. simpl. rewrite app_assoc. apply terminated_app_nul.
Qed.

Lemma strcpy_spec (m src : list ascii) :
  (strlen src + 1 <= length m)%nat ->
  exists m', strcpy m src = Some m' /\ cstr m' = cstr src
             /\ length m' = length m /\ terminated m' = true.
Proof.
  intros H. unfold strcpy.
  destruct (store_text m 0 (cstr src)) as (m' & E & C & L & T).
  - apply cstr_lacks_nul.
  - lia.
  - unfold strlen in H. lia.
  - exists m'. simpl in C. auto.
Qed.

Lemma strcat_spec (m src : list ascii) :
  terminated m = true ->
  (strlen m + strlen src + 1 <= length m)%nat ->
  exists m', strcat m src = Some m' /\ cstr m' = cstr m ++ cstr src
             /\ length m' = length m /\ terminated m' = true.
Proof.
  intros T H. unfold strcat. rewrite T.
  destruct (store_text m (strlen m) (cstr src)) as (m' & E & C & L & T').
  - apply cstr_lacks_nul.
  - lia.
  - unfold strlen in *. lia.
  - exists m'. unfold strlen in C. rewrite firstn_all in C. auto.
Qed.

(** Cutting a string: [p[i] = 0] inside it. *)
Lemma poke_nul_spec (m : list ascii) (i : nat) :
  terminated m = true ->
  (i <= strlen m)%nat ->
  exists m', poke m i NUL = Some m' /\ cstr m' = firstn i (cstr m)
             /\ length m' = length m /\ terminated m' = true.
Proof.
  intros T H. unfold poke.
  destruct (store_text m i []) as (m' & E & C & L & T').
  - reflexivity.
  - exact H.
  - apply strlen_lt in T. simpl. lia.
  - exists m'. simpl in E. rewrite app_nil_r in C. auto.
Qed.

Lemma cstr_app_fresh (m extra : list ascii) :
  terminated m = true -> cstr (m ++ extra) = cstr m.
Proof.
  intros T. rewrite (terminated_split m T) at 1.
  rewrite <- app_assoc. simpl. apply cstr_app_nul, cstr_lacks_nul.
Qed.

(** Growing a block keeps its string. *)
Lemma realloc_spec (junk : nat -> ascii) (m : list ascii) (n : nat) :
  terminated m = true ->
  (length m <= n)%nat ->
  cstr (realloc junk (Some m) n) = cstr m
  /\ length (realloc junk (Some m) n) = n
  /\ terminated (realloc junk (Some m) n) = true.
Proof.
  intros T H. unfold realloc, fresh.
  rewrite firstn_all2 by exact H.
  split; [|split].
  - apply cstr_app_fresh, T.
  - rewrite length_app, length_map, length_seq. lia.
  - unfold terminated in *. rewrite existsb_app, T. reflexivity.
Qed.

(** The last occurrence of a character that the tail does not hold. *)
Lemma rindex_app_last (c : ascii) (a b : list ascii) :
  lacks c b = true -> rindex c (a ++ c :: b) = Some (length a).
Proof.
  intros Hb.
  assert (Hnone : rindex c b = None).
  { induction b as [|x b IH]; simpl in *; [reflexivity|].
    apply andb_prop in Hb. destruct Hb as [Hx Hb].
    rewrite (IH Hb). apply negb_true_iff in Hx. rewrite Hx. reflexivity. }
  induction a as [|x a IH]; simpl.
  - rewrite Hnone, Ascii.eqb_refl. reflexivity.
  - rewrite IH. reflexivity.
Qed.

Lemma rindex_lacks (c : ascii) (s : list ascii) :
  lacks c s = true -> rindex c s = None.
Proof.
  induction s as [|x s IH]; simpl; intros H; [reflexivity|].
  apply andb_prop in H. destruct H as [Hx Hs].
  rewrite (IH Hs). apply negb_true_iff in Hx. rewrite Hx. reflexivity.
Qed.

Lemma int_incr_some (a v : Z) :
  int_incr a = Some v -> v = (a + 1)%Z /\ (v <= INT_MAX)%Z.
Proof.
  unfold int_incr. intros H.
  destruct (- INT_MAX - 1 <=? a + 1)%Z; [|discriminate].
  destruct (Z.leb_spec (a + 1) INT_MAX); [|discriminate].
  injection H as <-. split; [reflexivity | assumption].
Qed.

Lemma int_incr_small (a : Z) :
  (- INT_MAX - 2 <= a < INT_MAX)%Z -> int_incr a = Some (a + 1)%Z.
Proof.
  intros B. unfold int_incr.
  destruct (Z.leb_spec (- INT_MAX - 1) (a + 1)); [|lia].
  destruct (Z.leb_spec (a + 1) INT_MAX); [reflexivity | lia].
Qed.

End CStrFacts.

(** ** The current path *)
Module TrackerFacts.
Import CStr CStrFacts Tracker.

Lemma wf_inv (st : state) :
  wf st = true ->
  exists m, dir_curpath st = Some m
            /\ Z.of_nat (length m) = curpathl st
            /\ (128 <= curpathl st <= INT_MAX)%Z
            /\ terminated m = true.
Proof.
  unfold wf. destruct (dir_curpath st) as [m|]; [|discriminate].
  intros H. repeat (apply andb_prop in H; destruct H as [H ?]).
  exists m. repeat split; auto; lia.
Qed.

Lemma wf_intro (st : state) (m : list ascii) :
  dir_curpath st = Some m ->
  Z.of_nat (length m) = curpathl st ->
  (128 <= curpathl st <= INT_MAX)%Z ->
  terminated m = true ->
  wf st = true.
Proof.
  intros E L B T. unfold wf. rewrite E, T.
  repeat (apply andb_true_intro; split); auto; lia.
Qed.

Lemma to_int_small (z : Z) : (0 <= z <= INT_MAX)%Z -> to_int z = z.
Proof.
  unfold to_int, INT_MAX. intros H.
  rewrite Z.mod_small; lia.
Qed.

(** [curpath_resize] keeps the string and makes room for [s] bytes. *)
Lemma curpath_resize_spec (junk : nat -> ascii) (s : Z) (st : state) :
  wf st = true ->
  (s <= 2 ^ 30)%Z ->
  exists st1, curpath_resize junk s st = Some st1
              /\ wf st1 = true
              /\ curpath_str st1 = curpath_str st
              /\ (s <= curpathl st1)%Z
              /\ others st1 = others st.
Proof.
  intros W Hs. destruct (wf_inv st W) as (m & E & L & B & T).
  unfold curpath_resize.
  destruct (Z.ltb_spec (curpathl st) s) as [Hlt|Hge].
  - destruct (Z.ltb_spec s 128) as [?|_]; [lia|].
    unfold int_double.
    assert (D : ((- INT_MAX - 1 <=? curpathl st * 2)
                 && (curpathl st * 2 <=? INT_MAX))%Z = true).
    { unfold INT_MAX in *. apply andb_true_intro; split; lia. }
    rewrite D.
    set (l := if (s <? curpathl st * 2)%Z then (curpathl st * 2)%Z else s).
    assert (Hl : (s <= l /\ curpathl st <= l /\ l <= INT_MAX)%Z).
    { subst l. unfold INT_MAX in *.
      destruct (Z.ltb_spec s (curpathl st * 2)); lia. }
    rewrite E.
    destruct (realloc_spec junk m (Z.to_nat l) T) as (C & Len & T'); [lia|].
    eexists. split; [reflexivity|].
    split; [|split; [|split]].
    + apply (wf_intro _ (realloc junk (Some m) (Z.to_nat l)));
        cbn [dir_curpath curpathl set_curpath]; [reflexivity | | lia | exact T'].
      rewrite Len. lia.
    + unfold curpath_str. simpl. rewrite E. simpl. f_equal. exact C.
    + simpl. lia.
    + reflexivity.
  - exists st. repeat split; auto.
Qed.

Lemma set_block_wf (st : state) (m m' : list ascii) :
  wf st = true ->
  dir_curpath st = Some m ->
  length m' = length m ->
  terminated m' = true ->
  wf (set_curpath_block st m') = true
  /\ curpath_str (set_curpath_block st m') = Some (cstr m')
  /\ others (set_curpath_block st m') = others st.
Proof.
  intros W E L T. destruct (wf_inv st W) as (m0 & E0 & L0 & B & _).
  rewrite E in E0. injection E0 as <-.
  split; [|split; reflexivity].
  eapply wf_intro; simpl; [reflexivity | | exact B | exact T].
  rewrite L. exact L0.
Qed.

(** [set] makes the state well formed, from the initial state and from every
    well-formed one. *)
Lemma set_spec (junk : nat -> ascii) (path : list ascii) (st : state) :
  wf st = true \/ (dir_curpath st = None /\ curpathl st = 0%Z) ->
  (Z.of_nat (strlen path) + 1 <= 2 ^ 30)%Z ->
  exists st1, dir_curpath_set junk path st = Some st1
              /\ wf st1 = true
              /\ curpath_str st1 = Some (cstr path)
              /\ others st1 = others st.
Proof.
  intros Start Hs. unfold dir_curpath_set.
  rewrite to_int_small by (unfold INT_MAX; lia).
  destruct Start as [W | [Null Zero]].
  - destruct (curpath_resize_spec junk _ st W Hs) as (st1 & R & W1 & _ & Room & O1).
    rewrite R.
    destruct (wf_inv st1 W1) as (m1 & E1 & L1 & B1 & T1). rewrite E1.
    destruct (strcpy_spec m1 path) as (m' & Cp & C' & L' & T'); [lia|].
    rewrite Cp.
    destruct (set_block_wf st1 m1 m' W1 E1 L' T') as (W2 & C2 & O2).
    eexists. split; [reflexivity|]. split; [exact W2|]. split.
    + rewrite C2, C'. reflexivity.
    + rewrite O2. exact O1.
  - unfold curpath_resize. rewrite Zero, Null.
    destruct (Z.ltb_spec 0 (Z.of_nat (strlen path) + 1)) as [_|?]; [|lia].
    set (s := (Z.of_nat (strlen path) + 1)%Z) in *.
    assert (Pick : exists l,
               (if (s <? 128)%Z then Some 128%Z
                else d <- int_double 0 ;; Some (if (s <? d)%Z then d else s))
               = Some l /\ (s <= l)%Z /\ (128 <= l <= INT_MAX)%Z).
    { unfold INT_MAX. destruct (Z.ltb_spec s 128).
      - exists 128%Z. split; [reflexivity | lia].
      - exists s. change (int_double 0) with (Some 0%Z). cbv iota beta.
        destruct (Z.ltb_spec s 0); [lia|]. split; [reflexivity | lia]. }
    destruct Pick as (l & -> & Room & B).
    cbn [dir_curpath set_curpath realloc].
    assert (Lm : length (malloc junk (Z.to_nat l)) = Z.to_nat l).
    { unfold malloc, fresh. rewrite length_map, length_seq. reflexivity. }
    destruct (strcpy_spec (malloc junk (Z.to_nat l)) path)
      as (m' & Cp & C' & L' & T'); [subst s; lia|].
    rewrite Cp. eexists. split; [reflexivity|].
    split; [|split; [|reflexivity]].
    + apply (wf_intro _ m'); cbn [dir_curpath curpathl set_curpath_block set_curpath];
        [reflexivity | | exact B | exact T'].
      rewrite L', Lm. lia.
    + unfold curpath_str. simpl. rewrite C'. reflexivity.
Qed.

Lemma second_byte (m : list ascii) :
  terminated m = true ->
  cstr m <> [] ->
  exists c, nth_error m 1 = Some c
            /\ is_nul c = (length (cstr m) =? 1)%nat.
Proof.
  intros T NE.
  destruct m as [|a [|b r]]; simpl in *.
  - discriminate.
  - destruct (is_nul a); simpl in *; [congruence | discriminate].
  - destruct (is_nul a) eqn:Ea; [congruence|].
    exists b. split; [reflexivity|].
    destruct (is_nul b); reflexivity.
Qed.

Lemma enter_spec (junk : nat -> ascii) (name : list ascii) (st : state)
  (cur : list ascii) :
  wf st = true ->
  curpath_str st = Some cur ->
  cur <> [] ->
  (Z.of_nat (length cur + strlen name) + 2 <= 2 ^ 30)%Z ->
  exists st1, dir_curpath_enter junk name st = Some st1
              /\ wf st1 = true
              /\ curpath_str st1 = Some (entered cur name)
              /\ others st1 = others st.
Proof.
  intros W C NE Hs.
  destruct (wf_inv st W) as (m & E & L & B & T).
  unfold curpath_str in C. rewrite E in C. simpl in C. injection C as C.
  unfold dir_curpath_enter. rewrite E, T.
  assert (Hint : to_int (Z.of_nat (strlen m) + Z.of_nat (strlen name) + 2)
                 = (Z.of_nat (length cur + strlen name) + 2)%Z).
  { unfold strlen at 1. rewrite C. rewrite to_int_small; unfold INT_MAX; lia. }
  rewrite Hint.
  destruct (curpath_resize_spec junk _ st W Hs) as (st1 & R & W1 & C1 & Room & O1).
  rewrite R.
  destruct (wf_inv st1 W1) as (m1 & E1 & L1 & B1 & T1).
  rewrite E1.
  unfold curpath_str in C1. rewrite E, E1 in C1. simpl in C1.
  injection C1 as C1. rewrite C in C1.
  destruct (second_byte m1 T1) as (c & Hc & Hnul); [rewrite C1; exact NE|].
  rewrite Hc, Hnul, C1.
  unfold entered.
  destruct (length cur =? 1)%nat eqn:One.
  - apply Nat.eqb_eq in One.
    destruct (strcat_spec m1 name T1) as (m2 & S2 & C2 & L2 & T2).
    { unfold strlen at 1. rewrite C1. lia. }
    rewrite S2.
    destruct (set_block_wf st1 m1 m2 W1 E1 L2 T2) as (W2 & Cs & O2).
    eexists. split; [reflexivity|].
    split; [exact W2|]. split.
    + rewrite Cs, C2, C1. reflexivity.
    + rewrite O2. exact O1.
  - apply Nat.eqb_neq in One.
    assert (Hslash : strlen (lit "/") = 1%nat) by reflexivity.
    destruct (strcat_spec m1 (lit "/") T1) as (ms & Ss & Cs & Ls & Ts).
    { unfold strlen at 1. rewrite C1, Hslash. lia. }
    rewrite Ss.
    destruct (strcat_spec ms name Ts) as (m2 & S2 & C2 & L2 & T2).
    { unfold strlen at 1. rewrite Cs, C1, length_app, Ls.
      change (length (cstr (lit "/"))) with 1%nat. lia. }
    rewrite S2.
    destruct (set_block_wf st1 m1 m2 W1 E1) as (W2 & Cs2 & O2);
      [congruence | exact T2 |].
    eexists. split; [reflexivity|].
    split; [exact W2|]. split.
    + rewrite Cs2, C2, Cs, C1, <- app_assoc. reflexivity.
    + rewrite O2. exact O1.
Qed.

Lemma rindex_lt (c : ascii) (s : list ascii) (i : nat) :
  rindex c s = Some i -> (i < length s)%nat.
Proof.
  revert i. induction s as [|x s IH]; simpl; intros i H; [discriminate|].
  destruct (rindex c s) as [j|].
  - injection H as <-. specialize (IH j eq_refl). lia.
  - destruct (Ascii.eqb x c); [injection H as <-; lia | discriminate].
Qed.

Lemma leave_spec (st : state) (cur : list ascii) :
  wf st = true ->
  curpath_str st = Some cur ->
  exists st1, dir_curpath_leave st = Some st1
              /\ wf st1 = true
              /\ curpath_str st1 = Some (left cur)
              /\ others st1 = others st.
Proof.
  intros W C.
  destruct (wf_inv st W) as (m & E & L & B & T).
  unfold curpath_str in C. rewrite E in C. simpl in C. injection C as C.
  unfold dir_curpath_leave, left, strrchr. rewrite E, T, C.
  assert (Finish : forall m', length m' = length m -> terminated m' = true ->
            forall s, cstr m' = s ->
            exists st1, Some (set_curpath_block st m') = Some st1
                        /\ wf st1 = true /\ curpath_str st1 = Some s
                        /\ others st1 = others st).
  { intros m' L' T' s Cs.
    destruct (set_block_wf st m m' W E L' T') as (W2 & Cs2 & O2).
    eexists. split; [reflexivity|]. rewrite Cs2, Cs. auto. }
  destruct (rindex "/"%char cur) as [i|] eqn:R.
  - apply rindex_lt in R.
    destruct i as [|i]; simpl negb; cbv iota.
    + destruct (poke_nul_spec m 1 T) as (m' & P & Cm & Lm & Tm).
      { unfold strlen. rewrite C. lia. }
      simpl Nat.add. rewrite P. apply Finish; auto. rewrite Cm, C. reflexivity.
    + destruct (poke_nul_spec m (S i) T) as (m' & P & Cm & Lm & Tm).
      { unfold strlen. rewrite C. lia. }
      rewrite P. apply Finish; auto. rewrite Cm, C. reflexivity.
  - destruct (strcpy_spec m (lit "/")) as (m' & P & Cm & Lm & Tm).
    { change (strlen (lit "/")) with 1%nat. lia. }
    rewrite P. apply Finish; auto.
Qed.

End TrackerFacts.

(** ** What the specification states about the tracker *)
Module TrackerSpec.
Import CStr CStrFacts Tracker TrackerFacts.

Lemma cstr_before_nul (a r : list ascii) : cstr (a ++ NUL :: r) = cstr a.
Proof.
  induction a as [|c a IH]; simpl; [reflexivity|].
  destruct (is_nul c); [reflexivity | f_equal; exact IH].
Qed.

Lemma cstr_length_le (m : list ascii) : (length (cstr m) <= length m)%nat.
Proof.
  induction m as [|c m IH]; simpl; [lia|].
  destruct (is_nul c); simpl; lia.
Qed.

Lemma strcpy_result (dst src dst' : list ascii) :
  strcpy dst src = Some dst' -> cstr dst' = cstr src.
Proof.
  unfold strcpy, store.
  destruct (0 + length (cstr src ++ [NUL]) <=? length dst)%nat; [|discriminate].
  intros E. injection E as <-. simpl.
  rewrite <- app_assoc. simpl. apply cstr_app_nul, cstr_lacks_nul.
Qed.

(** Whatever path is handed in, [dir_setlasterr] copies the current path. *)
Lemma setlasterr_copies_curpath (junk : nat -> ascii) (p : list ascii)
  (st st' : state) :
  dir_setlasterr junk (Some p) st = Some st' ->
  lasterr_str st' = curpath_str st
  /\ dir_fatalerr st' = dir_fatalerr st
  /\ dir_curpath st' = dir_curpath st.
Proof.
  unfold dir_setlasterr.
  set (req := to_int (Z.of_nat (strlen p) + 1)).
  set (st1 := if (lasterrl st <? req)%Z then _ else st).
  assert (Same : dir_curpath st1 = dir_curpath st
                 /\ dir_fatalerr st1 = dir_fatalerr st).
  { subst st1. destruct (lasterrl st <? req)%Z; split; reflexivity. }
  destruct Same as [Sc Sf].
  destruct (lasterr st1) as [dst|]; [|discriminate].
  rewrite Sc. unfold curpath_str.
  destruct (dir_curpath st) as [src|] eqn:E; [|discriminate].
  destruct (terminated src); [|discriminate].
  destruct (strcpy dst src) as [dst'|] eqn:Cp; [|discriminate].
  intros H. injection H as <-.
  unfold lasterr_str. simpl.
  rewrite (strcpy_result _ _ _ Cp). auto.
Qed.

(** C1, as the code has it: with the current path [/a], recording an error
    at [/b] stores [/a], the current path, and not the path handed in; and
    with a current path longer than the path handed in, the copy leaves the
    block that was sized for the latter. *)
Theorem record_error_stores_curpath :
  option_map (fun st => (lasterr_str st, curpath_str st, dir_fatalerr st))
    (dir_setlasterr (fun _ => "x"%char) (Some (lit "/b")) (holding "/a"))
  = Some (Some (lit "/a"), Some (lit "/a"), None)
  /\ dir_setlasterr (fun _ => "x"%char) (Some (lit "/b")) (holding "/a/long/path")
     = None.
Proof. split; vm_compute; reflexivity. Qed.

Lemma left_entered (cur name : list ascii) :
  cur = lit "/" \/ (2 <= length cur)%nat ->
  lacks "/"%char (cstr name) = true ->
  left (entered cur name) = cur.
Proof.
  intros [-> | Len] Hn; unfold left, entered.
  - change (length (lit "/") =? 1)%nat with true. cbv iota.
    change (lit "/" ++ cstr name) with ([] ++ "/"%char :: cstr name).
    rewrite rindex_app_last by exact Hn. reflexivity.
  - destruct (Nat.eqb_spec (length cur) 1) as [?|_]; [lia|].
    change (cur ++ lit "/" ++ cstr name) with (cur ++ "/"%char :: cstr name).
    rewrite rindex_app_last by exact Hn.
    destruct (length cur) as [|n] eqn:E; [lia|].
    rewrite <- E, firstn_app, firstn_all, Nat.sub_diag. simpl.
    apply app_nil_r.
Qed.




Lemma root_block (m : list ascii) :
  terminated m = true -> cstr m = lit "/" -> poke m 1 NUL = Some m.
Proof.
  intros T C.
  destruct m as [|a [|b r]]; simpl in *.
  - discriminate.
  - destruct (is_nul a); simpl in *; discriminate.
  - destruct (is_nul a) eqn:Ea; [discriminate|].
    destruct (is_nul b) eqn:Eb; [|discriminate].
    apply is_nul_true in Eb. subst b.
    injection C as ->. reflexivity.
Qed.

(** C9: [leave] at [/] changes nothing, and [leave] on a path without a
    slash makes the path [/]. *)
Theorem leave_at_root_and_without_slash (st : state) :
  wf st = true ->
  (curpath_str st = Some (lit "/") -> dir_curpath_leave st = Some st)
  /\ (forall cur, curpath_str st = Some cur ->
        lacks "/"%char cur = true ->
        exists st1, dir_curpath_leave st = Some st1
                    /\ curpath_str st1 = Some (lit "/")
                    /\ wf st1 = true
                    /\ others st1 = others st).
Proof.
  intros W. split.
  - intros C. destruct (wf_inv st W) as (m & E & _ & _ & T).
    unfold curpath_str in C. rewrite E in C. simpl in C. injection C as C.
    unfold dir_curpath_leave, strrchr. rewrite E, T, C. simpl.
    rewrite (root_block m T C).
    destruct st; simpl in *; subst; reflexivity.
  - intros cur C Hn.
    destruct (leave_spec st cur W C) as (st1 & E1 & W1 & C1 & O1).
    exists st1. repeat split; auto.
    rewrite C1. unfold left. rewrite rindex_lacks by exact Hn. reflexivity.
Qed.

Lemma leave_at_root_and_without_slash_witness :
  dir_curpath_leave (holding "/") = Some (holding "/")
  /\ exists st1, dir_curpath_leave (holding "tmp") = Some st1
                 /\ curpath_str st1 = Some (lit "/")
                 /\ wf st1 = true
                 /\ others st1 = others (holding "tmp").
Proof.
  split.
  - apply (proj1 (leave_at_root_and_without_slash (holding "/") eq_refl)).
    reflexivity.
  - apply (proj2 (leave_at_root_and_without_slash (holding "tmp") eq_refl)
             (lit "tmp")); reflexivity.
Defined.

Section FatalError.
Variable va_list : Type.
Variable expand : list ascii -> va_list -> option (list ascii).

Lemma nul_bounds_strlen (m : list ascii) (i : nat) :
  nth_error m i = Some NUL -> (strlen m <= i)%nat /\ terminated m = true.
Proof.
  unfold strlen. revert i. induction m as [|c m IH]; intros [|i] H;
    simpl in *; try discriminate.
  - injection H as ->. simpl. split; [lia | reflexivity].
  - destruct (IH i H) as [L T].
    destruct (is_nul c); simpl; split; auto; lia.
Qed.

(** The block [dir_seterr] builds is terminated at its last byte, and holds
    the first 1022 characters the format expands to. *)
Lemma fatal_block (junk : nat -> ascii) (out : option (list ascii)) :
  exists m, (m1 <- vsnprintf (malloc junk 1024) 1023 out ;; poke m1 1023 NUL) = Some m
            /\ length m = 1024%nat
            /\ nth_error m 1023 = Some NUL
            /\ (forall text, out = Some text -> cstr m = cstr (firstn 1022 text)).
Proof.
  assert (Lm : length (malloc junk 1024) = 1024%nat).
  { unfold malloc, fresh. rewrite length_map, length_seq. reflexivity. }
  set (blk := malloc junk 1024) in *. clearbody blk.
  assert (Last : forall m1, length m1 = 1024%nat ->
            exists m, poke m1 1023 NUL = Some m
                      /\ m = firstn 1023 m1 ++ [NUL]
                      /\ length m = 1024%nat
                      /\ nth_error m 1023 = Some NUL).
  { intros m1 L1. unfold poke, store.
    assert (F : (1023 + length [NUL] <=? length m1)%nat = true).
    { apply Nat.leb_le. simpl. lia. }
    rewrite F. eexists. split; [reflexivity|].
    assert (E : skipn (1023 + length [NUL]) m1 = []).
    { apply skipn_all2. simpl. lia. }
    rewrite E.
    assert (Lp : length (firstn 1023 m1) = 1023%nat).
    { rewrite length_firstn. lia. }
    split; [reflexivity|]. split.
    - rewrite length_app, Lp. reflexivity.
    - rewrite nth_error_app2 by lia. rewrite Lp, Nat.sub_diag. reflexivity. }
  destruct out as [text|].
  - set (t := firstn 1022 text).
    assert (Lt : (length t <= 1022)%nat) by (subst t; apply firstn_le_length).
    change (vsnprintf blk 1023 (Some text)) with (store blk 0 (t ++ [NUL])).
    unfold store at 1.
    assert (F1 : (0 + length (t ++ [NUL]) <=? length blk)%nat = true).
    { apply Nat.leb_le. rewrite length_app. simpl. lia. }
    rewrite F1. cbn [firstn app Nat.add].
    set (r := skipn (length (t ++ [NUL])) blk).
    assert (L1 : length ((t ++ [NUL]) ++ r) = 1024%nat).
    { subst r. repeat (rewrite ?length_app, ?length_skipn; cbn [length]). lia. }
    destruct (Last _ L1) as (m & P & Em & L & N).
    exists m. repeat split; auto.
    intros text' E. injection E as <-. rewrite Em.
    rewrite <- app_assoc. cbn [app].
    rewrite firstn_app, (firstn_all2 t) by lia.
    rewrite <- app_assoc.
    replace (1023 - length t)%nat with (S (1022 - length t)) by lia.
    cbn [firstn app]. apply cstr_before_nul.
  - change (vsnprintf blk 1023 None) with (Some blk).
    destruct (Last _ Lm) as (m & P & Em & L & N).
    exists m. repeat split; auto. discriminate.
Qed.

Lemma seterr_some (junk : nat -> ascii) (f : list ascii) (va : va_list)
  (st : state) :
  exists m, dir_seterr va_list expand junk (Some f) va st
            = Some (set_fatalerr st (Some m))
            /\ (m1 <- vsnprintf (malloc junk 1024) 1023 (expand f va) ;;
                poke m1 1023 NUL) = Some m.
Proof.
  destruct (fatal_block junk (expand f va)) as (m & E & _).
  exists m. split; [|exact E].
  unfold dir_seterr.
  destruct (vsnprintf (malloc junk 1024) 1023 (expand f va)) as [m1|];
    [|discriminate].
  rewrite E. reflexivity.
Qed.

(** C8: a call of [dir_seterr] after another ends as it would have with no
    fatal error stored before, and its message is the new one alone; a call
    without a format leaves no fatal error; and with no fatal error
    [dir_draw] renders the progress box with the current path and the last
    warning, while the error box is rendered exactly when a fatal error is
    set, with its message. *)
Theorem seterr_replaces_and_clear_draws_progress
  (junk1 junk2 : nat -> ascii) (fmt1 fmt2 : option (list ascii))
  (f : list ascii) (va1 va2 : va_list) (st : state) :
  (exists st1,
     dir_seterr va_list expand junk1 fmt1 va1 st = Some st1
     /\ dir_seterr va_list expand junk2 fmt2 va2 st1
        = dir_seterr va_list expand junk2 fmt2 va2 (set_fatalerr st None)
     /\ exists st2 m,
          dir_seterr va_list expand junk2 (Some f) va2 st1 = Some st2
          /\ dir_fatalerr st2 = Some m
          /\ forall text, expand f va2 = Some text ->
                          cstr m = cstr (firstn 1022 text))
  /\ (exists st1,
        dir_seterr va_list expand junk1 None va1 st = Some st1
        /\ dir_fatalerr st1 = None
        /\ dir_draw st1
           = [BrowseDraw; ProgressBox (curpath_str st) (lasterr_str st)])
  /\ (forall st0,
        (dir_fatalerr st0 = None ->
         dir_draw st0
         = [BrowseDraw; ProgressBox (curpath_str st0) (lasterr_str st0)])
        /\ (forall msg, dir_fatalerr st0 = Some msg ->
              dir_draw st0 = [BrowseDraw; ErrorBox (curpath_str st0) (cstr msg)])
        /\ ((exists cur msg, In (ErrorBox cur msg) (dir_draw st0))
            <-> dir_fatalerr st0 <> None)).
Proof.
  assert (Draw : forall st0, dir_fatalerr st0 = None ->
                   dir_draw st0
                   = [BrowseDraw; ProgressBox (curpath_str st0) (lasterr_str st0)]).
  { intros st0 E. unfold dir_draw. rewrite E. reflexivity. }
  assert (Box : forall st0 msg, dir_fatalerr st0 = Some msg ->
                  dir_draw st0
                  = [BrowseDraw; ErrorBox (curpath_str st0) (cstr msg)]).
  { intros st0 msg E. unfold dir_draw. rewrite E. reflexivity. }
  split; [|split].
  - assert (First : exists x, dir_seterr va_list expand junk1 fmt1 va1 st
                              = Some (set_fatalerr st x)).
    { destruct fmt1 as [f1|].
      - destruct (seterr_some junk1 f1 va1 st) as (m & E & _). eauto.
      - exists None. reflexivity. }
    destruct First as (x & E1). rewrite E1.
    eexists. split; [reflexivity|]. split.
    + unfold dir_seterr. reflexivity.
    + destruct (seterr_some junk2 f va2 (set_fatalerr st x)) as (m & E2 & B).
      destruct (fatal_block junk2 (expand f va2)) as (m' & B' & _ & _ & C).
      rewrite B in B'. injection B' as <-.
      eexists. exists m. split; [exact E2|]. split; [reflexivity | exact C].
  - eexists. split; [reflexivity|]. split; [reflexivity|].
    rewrite Draw by reflexivity. reflexivity.
  - intros st0. split; [exact (Draw st0)|]. split; [exact (Box st0)|].
    destruct (dir_fatalerr st0) as [msg|] eqn:F.
    + split; [discriminate|]. intros _.
      exists (curpath_str st0), (cstr msg).
      rewrite (Box st0 msg F). right. left. reflexivity.
    + split; [|intros N; contradiction N; reflexivity].
      intros (cur & msg & I). rewrite (Draw st0 F) in I.
      destruct I as [I|[I|[]]]; discriminate I.
Qed.

(** C10: a call of [dir_seterr] with a format stores a terminated message
    of at most 1023 characters; it is the start of what the format expands
    to, 1022 characters at most, so that an expansion of more than 1023
    characters is not stored in full, and the call returns all the same. *)
Theorem seterr_message_bounded (junk : nat -> ascii) (f : list ascii)
  (va : va_list) (st : state) :
  exists st1 m,
    dir_seterr va_list expand junk (Some f) va st = Some st1
    /\ dir_fatalerr st1 = Some m
    /\ length m = 1024%nat
    /\ (strlen m <= 1023)%nat
    /\ terminated m = true
    /\ nth_error m 1023 = Some NUL
    /\ (forall text, expand f va = Some text ->
          cstr m = cstr (firstn 1022 text)
          /\ (strlen m <= 1022)%nat
          /\ ((1023 < length text)%nat -> cstr m <> text)).
Proof.
  destruct (seterr_some junk f va st) as (m & E & B).
  destruct (fatal_block junk (expand f va)) as (m' & B' & L & N & C).
  rewrite B in B'. injection B' as <-.
  destruct (nul_bounds_strlen m 1023 N) as [Len T].
  exists (set_fatalerr st (Some m)), m.
  do 6 (split; [assumption || reflexivity|]).
  intros text Ex.
  assert (Short : (strlen m <= 1022)%nat).
  { unfold strlen. rewrite (C text Ex).
    etransitivity; [apply cstr_length_le | apply firstn_le_length]. }
  split; [exact (C text Ex)|]. split; [exact Short|].
  intros Long Eq. unfold strlen in Short. rewrite Eq in Short. lia.
Qed.

End FatalError.

(** With formats that hold no directive, so that a format expands to
    itself. *)
Lemma seterr_replaces_and_clear_draws_progress_witness :
  (exists st2 m,
     (st1 <- dir_seterr unit (fun f _ => Some f) (fun _ => "x"%char)
               (Some (lit "first")) tt (holding "/") ;;
      dir_seterr unit (fun f _ => Some f) (fun _ => "y"%char)
        (Some (lit "second")) tt st1) = Some st2
     /\ dir_fatalerr st2 = Some m
     /\ cstr m = lit "second"
     /\ dir_draw st2 = [BrowseDraw; ErrorBox (curpath_str st2) (lit "second")])
  /\ dir_draw (set_fatalerr (holding "/") None)
     = [BrowseDraw; ProgressBox (Some (lit "/")) None].
Proof.
  destruct (seterr_replaces_and_clear_draws_progress unit
              (fun f _ => Some f) (fun _ => "x"%char) (fun _ => "y"%char)
              (Some (lit "first")) (Some (lit "second")) (lit "second") tt tt
              (holding "/"))
    as ((st1 & E1 & _ & st2 & m & E2 & F & Text) & _ & Draw).
  split.
  - exists st2, m. rewrite E1. split; [exact E2|]. split; [exact F|].
    assert (T : cstr m = lit "second") by (rewrite (Text _ eq_refl); reflexivity).
    split; [exact T|].
    destruct (Draw st2) as (_ & Box & _). rewrite (Box m F), T. reflexivity.
  - destruct (Draw (set_fatalerr (holding "/") None)) as (Progress & _).
    apply Progress. reflexivity.
Defined.

Lemma seterr_message_bounded_witness :
  exists st1 m,
    dir_seterr unit (fun f _ => Some f) (fun _ => "x"%char)
      (Some (repeat "e"%char 1024)) tt (holding "/") = Some st1
    /\ dir_fatalerr st1 = Some m
    /\ cstr m = repeat "e"%char 1022
    /\ cstr m <> repeat "e"%char 1024.
Proof.
  destruct (seterr_message_bounded unit (fun f _ => Some f) (fun _ => "x"%char)
              (repeat "e"%char 1024) tt (holding "/"))
    as (st1 & m & E & F & _ & _ & _ & _ & C).
  destruct (C _ eq_refl) as (Cm & _ & D).
  exists st1, m. split; [exact E|]. split; [exact F|]. split.
  - rewrite Cm. vm_compute. reflexivity.
  - apply D. rewrite repeat_length. lia.
Defined.

End TrackerSpec.

(** ** What the specification states about the option parser *)
Module ArgsSpec.
Import Args.
Local Open Scope Z_scope.
Local Open Scope string_scope.

Lemma split_eq_spec (s a b : string) :
  split_eq s = Some (a, b) -> s = a ++ "=" ++ b.
Proof.
  revert a. induction s as [|c s IH]; simpl; intros a H; [discriminate|].
  destruct (Ascii.eqb_spec c "=") as [->|_].
  - injection H as <- <-. reflexivity.
  - destruct (split_eq s) as [[a' b']|]; [|discriminate].
    injection H as <- <-. simpl. f_equal. apply IH. reflexivity.
Qed.

Lemma shortopt_keeps_last_arg (p p' : argparser) (buf : string) (r : Z) :
  argparser_shortopt p buf = Ret (r, p') -> last_arg p' = last_arg p.
Proof.
  unfold argparser_shortopt. destruct buf; [discriminate|].
  intros H. injection H as _ <-. reflexivity.
Qed.

(** A parse step leaves a value attached only for a long option written
    [name=value]; [last] is then the name. *)
Lemma next_attached (av : list string) :
  forall (p p' : argparser) (r : Z) (v : string),
    argparser_next_from av p = Ret (r, p') ->
    last_arg p' = Some v ->
    exists name, last p' = Some name /\ In (name ++ "=" ++ v) av /\ r = 1.
Proof.
  induction av as [|a av IH]; intros p p' r v H V;
    cbn [argparser_next_from] in H;
    destruct (last_arg p) eqn:LA; try discriminate;
    (destruct (shortopt p) as [buf|];
     [apply shortopt_keeps_last_arg in H; congruence|]).
  - injection H as _ <-. simpl in V. congruence.
  - match type of H with (if ?c then _ else _) = _ => destruct c end.
    { injection H as _ <-. simpl in V. congruence. }
    match type of H with (if ?c then _ else _) = _ => destruct c end;
      [discriminate|].
    match type of H with (if ?c then _ else _) = _ => destruct c end.
    { destruct (IH _ _ _ _ H V) as (name & L & I & R).
      exists name. simpl. auto. }
    match type of H with (if ?c then _ else _) = _ => destruct c end.
    + destruct (split_eq a) as [[name value]|] eqn:S.
      * injection H as <- <-. simpl in V. injection V as <-.
        exists name. simpl. apply split_eq_spec in S. auto.
      * injection H as _ <-. simpl in V. discriminate.
    + apply shortopt_keeps_last_arg in H. simpl in H. congruence.
Qed.

(** C7, amended: when a parse step has produced a long option with a value
    attached to it by an equals sign (the token [--name=value], the one form
    that leaves [last_arg] set) and the value is not retrieved, the next
    parse step ends the process with the message that this option does not
    expect an argument. *)
Theorem unretrieved_value_fails (p0 p : argparser) (r : Z) (v : string) :
  argparser_next p0 = Ret (r, p) ->
  last_arg p = Some v ->
  exists name,
    r = 1
    /\ last p = Some name
    /\ In (name ++ "=" ++ v) (argv p0)
    /\ argparser_next p
       = Die ("Option '" ++ name ++ "' does not expect an argument." ++ nl).
Proof.
  intros H V.
  destruct (next_attached _ _ _ _ _ H V) as (name & L & I & R).
  exists name. repeat split; auto.
  unfold argparser_next.
  destruct (argv p); cbn [argparser_next_from]; rewrite V, L; reflexivity.
Qed.

Lemma unretrieved_value_fails_witness :
  exists name,
    1 = 1
    /\ last (mkParser ["-x"] None (Some "--si") (Some "3") false) = Some name
    /\ In (name ++ "=" ++ "3") ["--si=3"; "-x"]
    /\ argparser_next (mkParser ["-x"] None (Some "--si") (Some "3") false)
       = Die ("Option '" ++ name ++ "' does not expect an argument." ++ nl).
Proof.
  apply (unretrieved_value_fails
           (mkParser ["--si=3"; "-x"] None (Some "ncdu") None false)
           (mkParser ["-x"] None (Some "--si") (Some "3") false) 1 "3");
    reflexivity.
Defined.

(** C7, as stated, fails for a value attached to a short option: for the
    token [-ofile] the parse step returns the option [-o], [argparser_arg]
    hands out [file] as its value, and when the value is not retrieved the
    next parse step returns the option [-f] and reports no error. *)
Lemma unretrieved_short_value_is_option :
  exists p1 p2 p3,
    argparser_next (mkParser ["-ofile"; "dir"] None (Some "ncdu") None false)
    = Ret (1, p1)
    /\ last p1 = Some "-o"
    /\ argparser_arg p1 = Ret ("file", p3)
    /\ argparser_next p1 = Ret (1, p2)
    /\ last p2 = Some "-f".
Proof.
  eexists. eexists. eexists.
  split; [reflexivity|]. split; [reflexivity|]. split; [reflexivity|].
  split; reflexivity.
Qed.

(** Retrieving the value first, the next parse step goes on. *)
Lemma retrieved_value_passes (p : argparser) (v : string) :
  shortopt p = None ->
  last_arg p = Some v ->
  argparser_arg p = Ret (v, with_last_arg p None)
  /\ last_arg (with_last_arg p None) = None.
Proof.
  intros S V. unfold argparser_arg. rewrite S, V. split; reflexivity.
Qed.

(** *** The loop of [argv_parse] ends *)

Lemma advance_length (a : string) :
  (String.length (advance a) <= String.length a)%nat.
Proof. destruct a; simpl; lia. Qed.

Lemma shortopt_remaining (p p' : argparser) (buf : string) (r : Z) :
  argparser_shortopt p buf = Ret (r, p') ->
  (S (String.length (match shortopt p' with Some b => b | None => "" end))
   = String.length buf)%nat
  /\ argv p' = argv p.
Proof.
  unfold argparser_shortopt. destruct buf as [|c rest]; [discriminate|].
  intros H. injection H as _ <-. simpl.
  destruct rest; split; reflexivity.
Qed.

Lemma rest_length (o : option string) :
  match o with Some buf => String.length buf | None => O end
  = String.length (match o with Some b => b | None => "" end).
Proof. destruct o; reflexivity. Qed.

Lemma next_remaining (av : list string) :
  forall (p p' : argparser) (r : Z),
    argv p = av ->
    argparser_next_from av p = Ret (r, p') ->
    (remaining p' <= remaining p)%nat
    /\ (0 < r -> (remaining p' < remaining p)%nat).
Proof.
  induction av as [|a av IH]; intros p p' r A H;
    cbn [argparser_next_from] in H;
    (destruct (last_arg p); [discriminate|]);
    unfold remaining in *;
    (destruct (shortopt p) as [buf|] eqn:SO;
     [apply shortopt_remaining in H; destruct H as [L ->];
      rewrite rest_length; lia|]).
  - injection H as <- <-. simpl. rewrite SO. lia.
  - rewrite A. cbn [tokens_left fold_right].
    fold (tokens_left av).
    match type of H with (if ?c then _ else _) = _ => destruct c end.
    { injection H as <- <-. simpl. rewrite SO. lia. }
    match type of H with (if ?c then _ else _) = _ => destruct c end;
      [discriminate|].
    match type of H with (if ?c then _ else _) = _ => destruct c end.
    { apply IH in H; [|reflexivity]. simpl in H. rewrite SO in H. lia. }
    match type of H with (if ?c then _ else _) = _ => destruct c end.
    + destruct (split_eq a) as [[name value]|];
        injection H as <- <-; simpl; rewrite SO; lia.
    + apply shortopt_remaining in H. destruct H as [L ->].
      rewrite rest_length. simpl argv.
      pose proof (advance_length a). lia.
Qed.

Lemma arg_remaining (p p' : argparser) (v : string) :
  argparser_arg p = Ret (v, p') -> (remaining p' <= remaining p)%nat.
Proof.
  unfold argparser_arg, argparser_pop, remaining.
  destruct (shortopt p) eqn:SO.
  { intros H. injection H as _ <-. simpl. lia. }
  destruct (last_arg p).
  { intros H. injection H as _ <-. simpl. rewrite SO. lia. }
  destruct (argv p) as [|a av]; [discriminate|].
  intros H. injection H as _ <-. simpl. rewrite SO. lia.
Qed.

Lemma ARG_remaining (g g' : globals) (v : string) :
  ARG g = Ret (v, g') ->
  (remaining (argparser_state g') <= remaining (argparser_state g))%nat.
Proof.
  unfold ARG, bind.
  destruct (argparser_arg (argparser_state g)) as [[v0 p0]| | |] eqn:E;
    try discriminate.
  intros H. injection H as _ <-. simpl. apply (arg_remaining _ _ _ E).
Qed.

Section Startup.
Variable exclude_addfile : string -> Z.
Variable strerror_errno : string -> string.
Variable PACKAGE_VERSION : string.
Variables have_statfs have_firmlinks no_color : bool.
Variables dir_export_init dir_import_init : string -> Z.

Local Abbreviation argv_parse :=
  (Args.argv_parse exclude_addfile strerror_errno PACKAGE_VERSION have_statfs
     have_firmlinks no_color dir_export_init dir_import_init).

(** A program name that does not start with a dash is skipped as a
    positional argument. *)
Lemma skip_program_name (prog : string) (raw : list string) :
  Ascii.eqb (deref prog) "-" = false ->
  argparser_next (mkParser (prog :: raw) None None None false)
  = Ret (2, mkParser raw None (Some prog) None false).
Proof.
  intros H. unfold argparser_next. cbn. rewrite H.
  rewrite orb_true_r. reflexivity.
Qed.

(** C6: the arguments [-x -q -- -weird] switch the one-file-system setting
    on, set the refresh interval to 2000, and give one positional argument,
    [-weird]: the parse steps return the two options and that argument,
    never the separator, and no error ends the process. *)
Theorem separator_makes_positional (prog : string) :
  Ascii.eqb (deref prog) "-" = false ->
  exists s,
    argv_parse (prog :: ["-x"; "-q"; "--"; "-weird"]) initial_globals = Some (Ret s)
    /\ var (settings s) dir_scan_smfs = 1
    /\ var (settings s) update_delay = 2000
    /\ tokens s = [(1, Some "-x"); (1, Some "-q"); (2, Some "-weird")]
    /\ input s = dir_scan "-weird".
Proof.
  intros H. unfold Args.argv_parse.
  rewrite (skip_program_name prog _ H).
  destruct have_statfs;
    (eexists; split; [vm_compute; reflexivity|]; repeat split; reflexivity).
Qed.

Local Abbreviation arg_option := (Args.arg_option exclude_addfile strerror_errno).
Local Abbreviation loop_body :=
  (Args.loop_body exclude_addfile strerror_errno PACKAGE_VERSION have_statfs
     have_firmlinks).
Local Abbreviation parse_loop :=
  (Args.parse_loop exclude_addfile strerror_errno PACKAGE_VERSION have_statfs
     have_firmlinks).
Local Abbreviation main :=
  (Args.main exclude_addfile strerror_errno PACKAGE_VERSION have_statfs
     have_firmlinks no_color dir_export_init dir_import_init).

Ltac split_ifs H :=
  repeat match type of H with
         | (if ?c then _ else _) = _ => destruct c
         | match CStr.int_incr ?x with _ => _ end = _ =>
             destruct (CStr.int_incr x) eqn:?
         end.

Lemma arg_option_remaining (g g' : globals) (r : Z) :
  arg_option g = Ret (r, g') ->
  (remaining (argparser_state g') <= remaining (argparser_state g))%nat.
Proof.
  unfold Args.arg_option. intros H. split_ifs H;
    try (injection H as _ <-; simpl; lia);
    (unfold bind in H;
     destruct (ARG g) as [[v g1]| | |] eqn:E; try discriminate;
     apply ARG_remaining in E; cbn [fst snd] in H; split_ifs H;
     try discriminate; injection H as _ <-; simpl; exact E).
Qed.

Lemma loop_body_remaining (r : Z) (s s' : locals) :
  loop_body r s = Ret s' ->
  (remaining (argparser_state (glob s')) <= remaining (argparser_state (glob s)))%nat.
Proof.
  unfold Args.loop_body. intros H. split_ifs H; try discriminate.
  - injection H as <-. simpl. lia.
  - unfold bind in H.
    destruct (ARG (glob s)) as [[v g1]| | |] eqn:E; try discriminate.
    injection H as <-. simpl. apply (ARG_remaining _ _ _ E).
  - unfold bind in H.
    destruct (ARG (glob s)) as [[v g1]| | |] eqn:E; try discriminate.
    injection H as <-. simpl. apply (ARG_remaining _ _ _ E).
  - unfold bind in H.
    destruct (Args.arg_option exclude_addfile strerror_errno (glob s))
      as [[r0 g1]| | |] eqn:E; try discriminate.
    cbn [fst snd] in H. split_ifs H; try discriminate.
    injection H as <-. simpl. apply (arg_option_remaining _ _ _ E).
Qed.

(** With more parse steps allowed than there is left to parse, the loop
    comes to its end. *)
Lemma parse_loop_total (fuel : nat) :
  forall s : locals,
    (remaining (argparser_state (glob s)) < fuel)%nat ->
    parse_loop fuel s <> None.
Proof.
  induction fuel as [|fuel IH]; intros s Lt; [lia|].
  cbn [Args.parse_loop].
  destruct (argparser_next (argparser_state (glob s))) as [[r p]| | |] eqn:N;
    try discriminate.
  apply next_remaining in N; [|reflexivity]. destruct N as [Le Dec].
  destruct (Z.gtb_spec r 0) as [Pos|_]; [|discriminate].
  match goal with
  | |- match ?b with _ => _ end <> None => destruct b as [s2| | |] eqn:B
  end; try discriminate.
  apply IH. apply loop_body_remaining in B. simpl in B.
  specialize (Dec ltac:(lia)). lia.
Qed.

(** [argv_parse] gives a result for every argument vector. *)
Lemma argv_parse_total (args : list string) (g0 : globals) :
  argv_parse args g0 <> None.
Proof.
  unfold Args.argv_parse.
  destruct (argparser_next (mkParser args None None None false))
    as [[r p]| | |] eqn:N; try discriminate.
  apply next_remaining in N; [|reflexivity]. destruct N as [Le _].
  match goal with
  | |- match ?b with _ => _ end <> None =>
      pose proof (parse_loop_total (budget args) _ : _ -> b <> None) as T;
      destruct b as [[s| | |]|]
  end; try discriminate.
  exfalso. apply T; [|reflexivity].
  unfold budget. cbn [glob argparser_state with_parser].
  unfold remaining in *. cbn [shortopt argv] in Le. lia.
Qed.

(** An option that nothing recognizes ends the process. *)
Lemma unknown_option_is_fatal (s : locals) (g' : globals) :
  (OPT (glob s) "-v" || OPT (glob s) "-V" || OPT (glob s) "--version") = false ->
  (OPT (glob s) "-h" || OPT (glob s) "-?" || OPT (glob s) "--help") = false ->
  OPT (glob s) "-o" = false ->
  OPT (glob s) "-f" = false ->
  arg_option (glob s) = Ret (0, g') ->
  loop_body 1 s
  = Die ("Unknown option '" ++ shown (last (argparser_state g')) ++ "'." ++ nl).
Proof.
  intros V H O F A. unfold Args.loop_body.
  change (1 =? 2)%Z with false. cbv iota.
  rewrite V, H, O, F, A. reflexivity.
Qed.

(** C5, as the code has it: the help text announces [--exclude-from], but
    the parser compares with [--exclude-form]: [--exclude-from FILE] ends
    the process as an unknown option before the main loop is entered, while
    [-X FILE] and [--exclude-form FILE] read the exclude file (and end the
    process only when it cannot be opened). *)
Theorem exclude_from_is_unknown (file : string) :
  argv_parse ["ncdu"; "--exclude-from"; file] initial_globals
  = Some (Die ("Unknown option '--exclude-from'." ++ nl))
  /\ (forall (R : Type) (main_loop : startup -> outcome R),
        main main_loop ["ncdu"; "--exclude-from"; file]
        = Some (Die ("Unknown option '--exclude-from'." ++ nl)))
  /\ In "  -X, --exclude-from FILE    Exclude files that match any pattern in FILE"
        (help_lines have_statfs have_firmlinks)
  /\ (forall opt, opt = "-X" \/ opt = "--exclude-form" ->
        match argv_parse ["ncdu"; opt; file] initial_globals with
        | Some (Ret s) =>
            exclude_addfile file = 0
            /\ exclude_calls (settings s) = [AddFile file]
        | Some (Die msg) =>
            exclude_addfile file <> 0
            /\ msg = "Can't open " ++ file ++ ": " ++ strerror_errno file ++ nl
        | _ => False
        end).
Proof.
  assert (Rejected : argv_parse ["ncdu"; "--exclude-from"; file] initial_globals
                     = Some (Die ("Unknown option '--exclude-from'." ++ nl))).
  { vm_compute. reflexivity. }
  split; [exact Rejected|]. split; [|split].
  - intros R main_loop. unfold Args.main. rewrite Rejected. reflexivity.
  - unfold help_lines. apply in_or_app. left. simpl. tauto.
  - intros opt [-> | ->].
    + unfold Args.argv_parse. cbn.
      destruct (Z.eqb_spec (exclude_addfile file) 0) as [E|E]; cbn.
      * destruct have_statfs; cbn; auto.
      * auto.
    + unfold Args.argv_parse. cbn.
      destruct (Z.eqb_spec (exclude_addfile file) 0) as [E|E]; cbn.
      * destruct have_statfs; cbn; auto.
      * auto.
Qed.

End Startup.

Lemma separator_makes_positional_witness :
  exists s,
    parse_on_linux ["ncdu"; "-x"; "-q"; "--"; "-weird"] = Some (Ret s)
    /\ var (settings s) dir_scan_smfs = 1
    /\ var (settings s) update_delay = 2000
    /\ tokens s = [(1, Some "-x"); (1, Some "-q"); (2, Some "-weird")]
    /\ input s = dir_scan "-weird".
Proof.
  apply (separator_makes_positional (fun _ => 0)
           (fun _ => "No such file or directory") "1.17" true false false
           (fun _ => 0) (fun _ => 0) "ncdu").
  reflexivity.
Defined.

(** The other argument vectors the specification lists. *)
Example exclude_pattern_then_directory :
  option_map (fun r => match r with
                       | Ret s => Some (tokens s, exclude_calls (settings s), input s)
                       | _ => None
                       end)
    (parse_on_linux ["ncdu"; "--exclude"; "*.tmp"; "/home"])
  = Some (Some ([(1, Some "--exclude"); (2, Some "/home")],
                [AddPattern "*.tmp"], dir_scan "/home")).
Proof. reflexivity. Qed.

Example short_run_gives_three_options :
  option_map (fun r => match r with
                       | Ret s => Some (tokens s, var (settings s) read_only,
                                        var (settings s) follow_symlinks,
                                        var (settings s) dir_scan_smfs)
                       | _ => None
                       end)
    (parse_on_linux ["ncdu"; "-rLx"])
  = Some (Some ([(1, Some "-r"); (1, Some "-L"); (1, Some "-x")], 1, 1, 1)).
Proof. reflexivity. Qed.

(** The rest of a short-option run is no attached value: left alone, it is
    read as the next option. *)
Example rest_of_run_is_next_option :
  (r1 <-- argparser_next (mkParser ["-xq"] None None None false) ;;;
   r2 <-- argparser_next (snd r1) ;;;
   Ret (last (snd r1), last_arg (snd r1), last (snd r2)))
  = Ret (Some "-x", None, Some "-q").
Proof. reflexivity. Qed.

End ArgsSpec.

(** ** What the specification states about the scheduler *)
Module SchedSpec.
Import Sched.
Local Open Scope Z_scope.

Section Collaborators.
Variables browse_key help_key delete_key quit_key : Z -> shared -> Z * shared.
Variable ncresize : Z -> Z -> shared -> Z.

Local Abbreviation drain :=
  (Sched.drain browse_key help_key delete_key quit_key ncresize).
Local Abbreviation input_handle :=
  (Sched.input_handle browse_key help_key delete_key quit_key ncresize).
Local Abbreviation throttled_ticks :=
  (Sched.throttled_ticks browse_key help_key delete_key quit_key ncresize).

(** Draining the input leaves [lastupdate] alone, and draws only in answer
    to what it reads. *)
Lemma drain_spec (wait : Z) (keys : list Z) :
  forall (s : statics) (sh : shared) (out : list frame)
         (r : Z) (s' : statics) (sh' : shared) (fs : list frame),
    drain wait keys s sh out = (r, (s', sh'), fs) ->
    lastupdate s' = lastupdate s
    /\ ncurses_init s' = ncurses_init s
    /\ exists extra, fs = out ++ extra
                     /\ Forall (answers_input keys) extra
                     /\ (keys = [] -> extra = []).
Proof.
  induction keys as [|ch rest IH]; intros s sh out r s' sh' fs H.
  - cbn in H. injection H as _ <- _ <-.
    split; [reflexivity|]. split; [reflexivity|].
    exists []. rewrite app_nil_r. auto.
  - cbn [Sched.drain] in H.
    assert (Done : forall (x : Z * (statics * shared) * list frame),
              x = (r, (s', sh'), fs) ->
              fst (snd (fst x)) = s -> snd x = out ->
              lastupdate s' = lastupdate s
              /\ ncurses_init s' = ncurses_init s
              /\ exists extra, fs = out ++ extra
                               /\ Forall (answers_input (ch :: rest)) extra
                               /\ (ch :: rest = [] -> extra = [])).
    { intros x -> <- <-. simpl.
      split; [reflexivity|]. split; [reflexivity|].
      exists []. rewrite app_nil_r. auto. }
    assert (Later : forall (f : frame) (extra : list frame),
              answers_input (ch :: rest) f ->
              Forall (answers_input rest) extra ->
              Forall (answers_input (ch :: rest)) (f :: extra)).
    { intros f extra A F. constructor; [exact A|].
      eapply Forall_impl; [|exact F].
      intros g [[B C]|[B C]]; [left | right]; split; auto.
      right. exact C. }
    destruct (ch =? ERR); [apply (Done _ H); reflexivity|].
    destruct (Z.eqb_spec ch KEY_RESIZE) as [->|NR].
    + apply IH in H. destruct H as (L & I & extra & -> & F & _).
      split; [|split].
      * rewrite L. destruct (negb _); reflexivity.
      * rewrite I. destruct (negb _); reflexivity.
      * eexists. split; [rewrite <- app_assoc; reflexivity|].
        split; [|discriminate].
        apply Later; [|exact F].
        left. split; [reflexivity | left; reflexivity].
    + cbn [pstate with_pending] in H.
      destruct (pstate sh) eqn:P;
        try (apply (Done _ H); reflexivity).
      apply IH in H. destruct H as (L & I & extra & -> & F & _).
      split; [exact L|]. split; [exact I|].
      eexists. split; [rewrite <- app_assoc; reflexivity|].
      split; [|discriminate].
      apply Later; [|exact F].
      right. split; [reflexivity|]. unfold screen_draw. simpl.
      rewrite P. reflexivity.
Qed.

Lemma answers_not_scheduled (keys : list Z) (extra : list frame) :
  Forall (answers_input keys) extra -> scheduled extra = false.
Proof.
  unfold scheduled. induction 1 as [|f extra A _ IH]; [reflexivity|].
  simpl. rewrite IH.
  destruct A as [[A _]|[A _]]; unfold is_site; rewrite A; reflexivity.
Qed.

(** One throttled tick: it records its bucket, draws the scheduled frame
    exactly when the bucket is not the recorded one, and draws nothing else
    but answers to input. *)
Lemma throttled_tick_spec (tv : timeval) (s s' : statics) (sh sh' : shared)
  (r : Z) (fs : list frame) :
  input_handle 1 tv s sh = Some (r, (s', sh'), fs) ->
  lastupdate s' = bucket (update_delay sh) tv
  /\ scheduled fs = negb (lastupdate s =? bucket (update_delay sh) tv)
  /\ tick_frames s sh fs.
Proof.
  unfold Sched.input_handle. change (negb (1 =? 1)) with false. cbv iota.
  destruct (update_delay sh =? 0); [discriminate|].
  set (b := bucket (update_delay sh) tv).
  assert (Shape : forall (s1 : statics) (first : list frame),
            lastupdate s1 = b ->
            ncurses_init s1 = ncurses_init s ->
            first = (if negb (lastupdate s =? b)
                     then [screen_draw Throttled sh] else []) ->
            (if negb (ncurses_init s1)
             then Some (if 1 =? 0 then 1 else 0, (s1, sh), first)
             else Some (drain 1 (pending (with_nodelay sh (negb (1 =? 0)))) s1
                          (with_nodelay sh (negb (1 =? 0))) first))
            = Some (r, (s', sh'), fs) ->
            lastupdate s' = b
            /\ scheduled fs = negb (lastupdate s =? b)
            /\ tick_frames s sh fs).
  { intros s1 first L I F H.
    assert (Sch : scheduled first = negb (lastupdate s =? b)).
    { rewrite F. destruct (negb (lastupdate s =? b)); reflexivity. }
    assert (Conclude : forall extra,
              fs = first ++ extra ->
              Forall (answers_input (pending sh)) extra ->
              (ncurses_init s = false \/ pending sh = [] -> extra = []) ->
              scheduled fs = negb (lastupdate s =? b) /\ tick_frames s sh fs).
    { intros extra -> A E.
      assert (S2 : scheduled (first ++ extra) = negb (lastupdate s =? b)).
      { unfold scheduled in *. rewrite existsb_app, Sch.
        fold (scheduled extra). rewrite (answers_not_scheduled _ _ A).
        apply orb_false_r. }
      split; [exact S2|].
      exists extra. rewrite S2, <- F. auto. }
    rewrite I in H.
    destruct (ncurses_init s) eqn:NI; cbn [negb] in H.
    - injection H as H. apply drain_spec in H.
      destruct H as (L' & _ & extra & E & A & Nil).
      split; [congruence|].
      apply (Conclude extra E A).
      intros [?|P]; [discriminate | exact (Nil P)].
    - injection H as _ <- _ <-.
      split; [exact L|].
      apply (Conclude []); [rewrite app_nil_r; reflexivity | constructor | auto]. }
  destruct (lastupdate s =? b) eqn:Same; cbn [negb fst snd].
  - apply Shape; [apply Z.eqb_eq; exact Same | reflexivity | reflexivity].
  - apply Shape; reflexivity.
Qed.

Lemma ticks_scheduled (b : Z) (ts : list (timeval * (statics * shared))) :
  same_bucket b ts ->
  forall (recorded : Z) (out : list (list frame)),
    throttled_ticks recorded ts = Some out ->
    map scheduled out
    = match ts with
      | [] => []
      | _ :: rest => negb (recorded =? b) :: map (fun _ => false) rest
      end
    /\ Forall2 (fun t fs => tick_frames (fst (snd t)) (snd (snd t)) fs) ts out.
Proof.
  induction 1 as [|[tv [s sh]] rest B _ IH]; intros recorded out H.
  - injection H as <-. split; [reflexivity | constructor].
  - cbn [Sched.throttled_ticks] in H.
    destruct (input_handle 1 tv (with_lastupdate s recorded) sh)
      as [[[r [s' sh']] fs]|] eqn:T; [|discriminate].
    cbn [fst snd] in H.
    destruct (throttled_ticks (lastupdate s') rest) as [more|] eqn:M;
      [|discriminate].
    injection H as <-.
    apply throttled_tick_spec in T. destruct T as (L & Sch & Fr).
    cbn [fst snd] in B. rewrite B in L, Sch. cbn [lastupdate with_lastupdate] in Sch.
    rewrite L in M. apply IH in M. destruct M as [Ms Mf].
    split.
    + cbn [map]. rewrite Sch. f_equal. rewrite Ms.
      destruct rest; [reflexivity|].
      rewrite Z.eqb_refl. reflexivity.
    + constructor; [exact Fr | exact Mf].
Qed.

Lemma filter_never (A B : Type) (f : A -> bool) (l : list A) (l' : list B) :
  map f l = map (fun _ => false) l' -> filter f l = [].
Proof.
  revert l'. induction l as [|x l IH]; intros [|y l'] H; try discriminate;
    [reflexivity|].
  simpl in H. injection H as Hx Hl. simpl. rewrite Hx. apply (IH _ Hl).
Qed.

(** C4, amended: of a series of throttled ticks in one bucket, only the
    first can draw the scheduled frame, and it does so exactly when the
    bucket is not the one recorded before; every other frame of such a tick
    answers a resize notification or a key read in the shell mode, so that a
    tick without an initialized terminal or without pending input draws
    nothing else. *)
Theorem throttled_ticks_schedule_one_redraw (b recorded : Z)
  (ts : list (timeval * (statics * shared))) (out : list (list frame)) :
  same_bucket b ts ->
  throttled_ticks recorded ts = Some out ->
  (length (filter scheduled out) <= 1)%nat
  /\ map scheduled out
     = match ts with
       | [] => []
       | _ :: rest => negb (recorded =? b) :: map (fun _ => false) rest
       end
  /\ Forall2 (fun t fs => tick_frames (fst (snd t)) (snd (snd t)) fs) ts out.
Proof.
  intros B H. destruct (ticks_scheduled b ts B recorded out H) as [Ms Fr].
  split; [|split; assumption].
  destruct ts as [|t rest]; destruct out as [|fs more]; try discriminate;
    [simpl; lia|].
  cbn [map] in Ms. injection Ms as _ Mm.
  cbn [filter]. rewrite (filter_never _ _ _ _ _ Mm).
  destruct (scheduled fs); simpl; lia.
Qed.

(** C3, amended: while the terminal is not initialized a tick reads no
    input and leaves the shared variables as they are; it returns 0 under
    the throttled and the always-drawing policy, and 1 under the blocking
    one. *)
Theorem uninitialized_tick_skips_input (wait : Z) (tv : timeval)
  (s : statics) (sh : shared) :
  ncurses_init s = false ->
  (wait = 1 -> update_delay sh <> 0) ->
  exists s' fs,
    input_handle wait tv s sh
    = Some (if wait =? 0 then 1 else 0, (s', sh), fs)
    /\ ncurses_init s' = false.
Proof.
  intros NI D. unfold Sched.input_handle.
  destruct (Z.eqb_spec wait 1) as [W|W]; cbn [negb].
  - destruct (Z.eqb_spec (update_delay sh) 0) as [Z0|_];
      [exfalso; exact (D W Z0)|].
    destruct (negb (lastupdate s =? bucket (update_delay sh) tv));
      cbn [fst snd]; [cbn [ncurses_init with_lastupdate] | ]; rewrite NI;
      eexists; eexists; (split; [reflexivity | assumption || reflexivity]).
  - cbn [fst snd]. rewrite NI. eexists; eexists. split; [reflexivity | exact NI].
Qed.

End Collaborators.

Lemma uninitialized_tick_skips_input_witness :
  exists s' fs,
    input_handle go_on go_on go_on go_on fits 1 (mkTimeval 5 0) initial_statics
      (idle ST_CALC [113])
    = Some (if 1 =? 0 then 1 else 0, (s', idle ST_CALC [113]), fs)
    /\ ncurses_init s' = false.
Proof.
  apply (uninitialized_tick_skips_input go_on go_on go_on go_on fits 1
           (mkTimeval 5 0) initial_statics (idle ST_CALC [113])).
  - reflexivity.
  - intros _. simpl. lia.
Defined.

(** C3, as stated, fails for the blocking policy: without an initialized
    terminal [input_handle(0)] returns 1, which ends the loop of [main]. *)
Lemma uninitialized_blocking_tick_terminates :
  ncurses_init initial_statics = false
  /\ option_map (fun r => fst (fst r))
       (input_handle go_on go_on go_on go_on fits 0 (mkTimeval 5 0)
          initial_statics (idle ST_BROWSE []))
     = Some 1.
Proof. split; reflexivity. Qed.

Lemma throttled_ticks_schedule_one_redraw_witness :
  same_bucket 50
    [ (mkTimeval 5 0, (initial_statics, idle ST_CALC []));
      (mkTimeval 5 40000, (initial_statics, idle ST_CALC []));
      (mkTimeval 5 99999, (initial_statics, idle ST_CALC [])) ]
  /\ throttled_ticks go_on go_on go_on go_on fits 999
       [ (mkTimeval 5 0, (initial_statics, idle ST_CALC []));
         (mkTimeval 5 40000, (initial_statics, idle ST_CALC []));
         (mkTimeval 5 99999, (initial_statics, idle ST_CALC [])) ]
     = Some [[screen_draw Throttled (idle ST_CALC [])]; []; []]
  /\ (length (filter scheduled
        [[screen_draw Throttled (idle ST_CALC [])]; []; []]) <= 1)%nat.
Proof.
  assert (B : same_bucket 50
                [ (mkTimeval 5 0, (initial_statics, idle ST_CALC []));
                  (mkTimeval 5 40000, (initial_statics, idle ST_CALC []));
                  (mkTimeval 5 99999, (initial_statics, idle ST_CALC [])) ])
    by (repeat constructor).
  split; [exact B|]. split; [reflexivity|].
  apply (throttled_ticks_schedule_one_redraw go_on go_on go_on go_on fits 50 999
           _ _ B eq_refl).
Defined.

(** C4, as stated, fails: two throttled ticks in one bucket both redraw when
    the second one reads a resize notification, and this second redraw
    comes with the bucket equal to the recorded one. *)
Lemma resize_redraws_within_bucket :
  same_bucket 50
    [ (mkTimeval 5 0, (mkStatics true 999 17 60, idle ST_BROWSE []));
      (mkTimeval 5 40000, (mkStatics true 999 17 60, idle ST_BROWSE [KEY_RESIZE])) ]
  /\ option_map (map redraws)
       (throttled_ticks go_on go_on go_on go_on fits 999
          [ (mkTimeval 5 0, (mkStatics true 999 17 60, idle ST_BROWSE []));
            (mkTimeval 5 40000,
             (mkStatics true 999 17 60, idle ST_BROWSE [KEY_RESIZE])) ])
     = Some [true; true]
  /\ option_map (map (map site))
       (throttled_ticks go_on go_on go_on go_on fits 999
          [ (mkTimeval 5 0, (mkStatics true 999 17 60, idle ST_BROWSE []));
            (mkTimeval 5 40000,
             (mkStatics true 999 17 60, idle ST_BROWSE [KEY_RESIZE])) ])
     = Some [[Throttled]; [Resized]].
Proof.
  split; [repeat constructor | split; reflexivity].
Qed.

End SchedSpec.

(** ** More on the current path and the recorded error *)
Module TrackerMore.
Import CStr CStrFacts Tracker TrackerFacts Walk.

(** X1: [dir_curpath_set] replaces the path as a whole: from the initial
    state or from any state that holds a path, the new path is the string
    handed in, whatever the old one was, and the errors are not touched. *)
Theorem set_replaces_path (junk : nat -> ascii) (path : list ascii) (st : state) :
  wf st = true \/ st = init ->
  (Z.of_nat (strlen path) + 1 <= 2 ^ 30)%Z ->
  exists st1, dir_curpath_set junk path st = Some st1
              /\ curpath_str st1 = Some (cstr path)
              /\ wf st1 = true
              /\ (curpathl st <= curpathl st1)%Z
              /\ others st1 = others st.
Proof.
  intros Start Hs.
  assert (Start' : wf st = true \/ (dir_curpath st = None /\ curpathl st = 0%Z)).
  { destruct Start as [W | ->]; [left; exact W | right; split; reflexivity]. }
  destruct (set_spec junk path st Start' Hs) as (st1 & E & W1 & C1 & O1).
  exists st1. repeat split; auto.
  unfold dir_curpath_set in E.
  destruct (curpath_resize junk _ st) as [st0|] eqn:R; [|discriminate].
  assert (Grow : (curpathl st <= curpathl st0)%Z).
  { unfold curpath_resize in R.
    destruct (Z.ltb_spec (curpathl st) (to_int (Z.of_nat (strlen path) + 1)));
      [|injection R as <-; lia].
    destruct (Z.ltb_spec (to_int (Z.of_nat (strlen path) + 1)) 128).
    - injection R as <-. simpl. lia.
    - unfold int_double in R.
      destruct ((- INT_MAX - 1 <=? curpathl st * 2)%Z
                && (curpathl st * 2 <=? INT_MAX)%Z); [|discriminate].
      injection R as <-. simpl.
      destruct (Z.ltb_spec (to_int (Z.of_nat (strlen path) + 1)) (curpathl st * 2));
        lia. }
  destruct (dir_curpath st0); [|discriminate].
  destruct (strcpy l path); [|discriminate].
  injection E as <-. simpl. exact Grow.
Qed.

Lemma set_replaces_path_witness :
  exists st1, dir_curpath_set (fun _ => "x"%char) (lit "/srv/data") (holding "/old")
              = Some st1
              /\ curpath_str st1 = Some (cstr (lit "/srv/data"))
              /\ wf st1 = true
              /\ (curpathl (holding "/old") <= curpathl st1)%Z
              /\ others st1 = others (holding "/old").
Proof.
  apply (set_replaces_path (fun _ => "x"%char) (lit "/srv/data") (holding "/old")).
  - left. reflexivity.
  - vm_compute. discriminate.
Defined.

(** X2: [curpath_resize] fails in one case only: the block is too small,
    the request is 128 or more, and twice the old size is outside [int].  In
    every other case it returns, never shrinks the block and makes room for
    the request: a block that is large enough is left alone, and one that
    is too small becomes 128 bytes for a request below 128, and else the
    larger of the request and twice the old size, so that it at least
    doubles. *)
Theorem resize_grows_by_doubling (junk : nat -> ascii) (s : Z) (st : state) :
  (curpath_resize junk s st = None
   <-> (curpathl st < s /\ 128 <= s
        /\ ~ (- INT_MAX - 1 <= 2 * curpathl st <= INT_MAX))%Z)
  /\ forall st1,
       curpath_resize junk s st = Some st1 ->
       (curpathl st <= curpathl st1)%Z
       /\ (s <= curpathl st1)%Z
       /\ ((s <= curpathl st)%Z -> st1 = st)
       /\ ((curpathl st < s)%Z ->
             curpathl st1
             = (if (s <? 128)%Z then 128 else Z.max s (2 * curpathl st))%Z
             /\ block_length (dir_curpath st1) = curpathl st1
             /\ others st1 = others st)
       /\ ((curpathl st < s)%Z -> (128 <= s)%Z ->
           (2 * curpathl st <= curpathl st1)%Z).
Proof.
  split.
  - unfold curpath_resize, int_double.
    destruct (Z.ltb_spec (curpathl st) s) as [Lt|Ge];
      [|split; [discriminate | lia]].
    destruct (Z.ltb_spec s 128) as [Small|Big];
      [split; [discriminate | lia]|].
    destruct (Z.leb_spec (- INT_MAX - 1) (curpathl st * 2));
      destruct (Z.leb_spec (curpathl st * 2) INT_MAX); cbn [andb];
      split; try discriminate; try reflexivity; try lia;
      intros _; (split; [exact Lt|]); (split; [exact Big|]); lia.
  - unfold curpath_resize. intros st1 R.
    destruct (Z.ltb_spec (curpathl st) s) as [Lt|Ge].
    + assert (Len : forall l, (0 <= l)%Z ->
                block_length (Some (realloc junk (dir_curpath st) (Z.to_nat l))) = l).
      { intros l Hl. unfold block_length, realloc, malloc, fresh.
        destruct (dir_curpath st) as [m|].
        - rewrite length_app, length_firstn, length_map, length_seq. lia.
        - rewrite length_map, length_seq. lia. }
      destruct (Z.ltb_spec s 128) as [Small|Big].
      * injection R as <-. cbn [curpathl set_curpath dir_curpath].
        repeat split; try lia. exact (Len 128%Z ltac:(lia)).
      * unfold int_double in R.
        destruct ((- INT_MAX - 1 <=? curpathl st * 2)%Z
                  && (curpathl st * 2 <=? INT_MAX)%Z); [|discriminate].
        injection R as <-. cbn [curpathl set_curpath dir_curpath].
        destruct (Z.ltb_spec s (curpathl st * 2)); repeat split; try lia;
          apply Len; lia.
    + injection R as <-. repeat split; try lia; auto.
Qed.

Lemma resize_grows_by_doubling_witness :
  (curpathl (holding "/") <= 300)%Z
  /\ (exists st1, curpath_resize (fun _ => "x"%char) 300 (holding "/") = Some st1
                  /\ curpathl st1 = 300%Z)
  /\ curpath_resize (fun _ => "x"%char) INT_MAX
       (set_curpath (holding "/") (dir_curpath (holding "/")) (2 ^ 30)) = None.
Proof.
  split; [vm_compute; discriminate|]. split.
  - destruct (curpath_resize (fun _ => "x"%char) 300 (holding "/")) as [st1|] eqn:R;
      [|vm_compute in R; discriminate].
    destruct (proj2 (resize_grows_by_doubling _ _ _) _ R) as (_ & _ & _ & New & _).
    exists st1. split; [reflexivity|].
    destruct New as (N & _); [vm_compute; reflexivity|]. exact N.
  - apply (proj1 (resize_grows_by_doubling (fun _ => "x"%char) INT_MAX
                    (set_curpath (holding "/") (dir_curpath (holding "/")) (2 ^ 30)))).
    split; [vm_compute; reflexivity|]. split; [vm_compute; discriminate|].
    intros [_ Hi]. vm_compute in Hi. apply Hi. reflexivity.
Defined.

(** X3: [dir_curpath_enter] appends the name after a slash, and at the root
    without one more.  The new path starts with two slashes only if the old
    one did, or if the name entered at the root starts with a slash
    itself. *)
Theorem enter_appends_segment (junk : nat -> ascii) (name : list ascii)
  (st : state) (cur : list ascii) :
  wf st = true ->
  curpath_str st = Some cur ->
  cur = lit "/" \/ (2 <= length cur)%nat ->
  (Z.of_nat (length cur + strlen name) + 2 <= 2 ^ 30)%Z ->
  exists st1, dir_curpath_enter junk name st = Some st1
              /\ curpath_str st1
                 = Some (if list_eq_dec ascii_dec cur (lit "/")
                         then lit "/" ++ cstr name
                         else cur ++ lit "/" ++ cstr name)
              /\ wf st1 = true
              /\ others st1 = others st
              /\ (forall new, curpath_str st1 = Some new ->
                    double_slash new
                    = double_slash cur
                      || (if list_eq_dec ascii_dec cur (lit "/")
                          then leading_slash (cstr name) else false)).
Proof.
  intros W C Shape Hs.
  destruct (enter_spec junk name st cur W C) as (st1 & E & W1 & C1 & O1).
  { destruct Shape as [-> | Len]; [discriminate|].
    intros ->. simpl in Len. lia. }
  { exact Hs. }
  assert (New : curpath_str st1
                = Some (if list_eq_dec ascii_dec cur (lit "/")
                        then lit "/" ++ cstr name
                        else cur ++ lit "/" ++ cstr name)).
  { rewrite C1. unfold entered. f_equal.
    destruct (list_eq_dec ascii_dec cur (lit "/")) as [->|Ne]; [reflexivity|].
    destruct Shape as [-> | Len]; [congruence|].
    destruct (Nat.eqb_spec (length cur) 1); [lia | reflexivity]. }
  exists st1. split; [exact E|]. split; [exact New|].
  split; [exact W1|]. split; [exact O1|].
  intros new N. rewrite New in N. injection N as <-.
  destruct (list_eq_dec ascii_dec cur (lit "/")) as [->|Ne].
  - destruct (cstr name) as [|b rest]; reflexivity.
  - rewrite orb_false_r.
    destruct Shape as [-> | Len]; [congruence|].
    destruct cur as [|a [|b rest]]; cbn [length] in Len; try lia.
    match goal with
    | |- context [list_eq_dec ?d ?x ?y] =>
        destruct (list_eq_dec d x y) as [Eq|_]
    end; [exfalso; apply Ne; exact Eq | reflexivity].
Qed.

Lemma enter_appends_segment_witness :
  exists st1, dir_curpath_enter (fun _ => "x"%char) (lit "etc") (holding "/") = Some st1
              /\ curpath_str st1
                 = Some (if list_eq_dec ascii_dec (lit "/") (lit "/")
                         then lit "/" ++ cstr (lit "etc")
                         else lit "/" ++ lit "/" ++ cstr (lit "etc"))
              /\ wf st1 = true
              /\ others st1 = others (holding "/")
              /\ (forall new, curpath_str st1 = Some new ->
                    double_slash new
                    = double_slash (lit "/")
                      || (if list_eq_dec ascii_dec (lit "/") (lit "/")
                          then leading_slash (cstr (lit "etc")) else false)).
Proof.
  apply (enter_appends_segment (fun _ => "x"%char) (lit "etc") (holding "/") (lit "/")).
  - reflexivity.
  - reflexivity.
  - left. reflexivity.
  - vm_compute. discriminate.
Defined.

(** X4: [dir_curpath_leave] removes the last component: from
    [parent/name] it goes to [parent], and from [/name] to [/]. *)
Theorem leave_removes_last_component (st : state) (parent name : list ascii) :
  wf st = true ->
  curpath_str st = Some (parent ++ lit "/" ++ name) ->
  lacks "/"%char name = true ->
  exists st1, dir_curpath_leave st = Some st1
              /\ curpath_str st1
                 = Some (match parent with [] => lit "/" | _ => parent end)
              /\ wf st1 = true
              /\ others st1 = others st.
Proof.
  intros W C Hn.
  destruct (leave_spec st _ W C) as (st1 & E & W1 & C1 & O1).
  exists st1. repeat split; auto.
  rewrite C1. unfold left.
  change (parent ++ lit "/" ++ name) with (parent ++ "/"%char :: name).
  rewrite rindex_app_last by exact Hn.
  destruct parent as [|c parent]; [reflexivity|].
  cbn [length]. rewrite firstn_app.
  change (S (length parent)) with (length (c :: parent)).
  rewrite firstn_all, Nat.sub_diag. simpl. rewrite app_nil_r. reflexivity.
Qed.

Lemma leave_removes_last_component_witness :
  exists st1, dir_curpath_leave (holding "/usr/lib") = Some st1
              /\ curpath_str st1
                 = Some (match lit "/usr" with [] => lit "/" | _ => lit "/usr" end)
              /\ wf st1 = true
              /\ others st1 = others (holding "/usr/lib").
Proof.
  apply (leave_removes_last_component (holding "/usr/lib") (lit "/usr") (lit "lib"));
    reflexivity.
Defined.

Lemma leave_times_last (k : nat) :
  forall st : state,
    leave_times (S k) st = (st1 <- leave_times k st ;; dir_curpath_leave st1).
Proof.
  induction k as [|k IH]; intros st.
  - simpl. destruct (dir_curpath_leave st); reflexivity.
  - change (leave_times (S (S k)) st)
      with (st1 <- dir_curpath_leave st ;; leave_times (S k) st1).
    destruct (dir_curpath_leave st) as [st1|] eqn:E.
    + rewrite IH. cbn [leave_times]. rewrite E. reflexivity.
    + cbn [leave_times]. rewrite E. reflexivity.
Qed.

Lemma entered_shape (cur name : list ascii) :
  cur = lit "/" \/ (2 <= length cur)%nat ->
  (entered cur name = lit "/" \/ (2 <= length (entered cur name))%nat)
  /\ (length (entered cur name) <= length cur + 1 + strlen name)%nat.
Proof.
  unfold entered, strlen. intros [-> | Len].
  - change (length (lit "/") =? 1)%nat with true. cbv iota.
    destruct (cstr name) as [|c r]; simpl; (split; [|lia]);
      [left; reflexivity | right; lia].
  - destruct (Nat.eqb_spec (length cur) 1); [lia|].
    rewrite !length_app. simpl. split; [right|]; lia.
Qed.

(** X5: going down through any number of directories and up again as many
    times restores the current path. *)
Theorem walk_down_and_up_restores (junk : nat -> ascii) (names : list (list ascii)) :
  forall (st : state) (cur : list ascii),
    wf st = true ->
    curpath_str st = Some cur ->
    cur = lit "/" \/ (2 <= length cur)%nat ->
    Forall (fun name => lacks "/"%char (cstr name) = true) names ->
    (Z.of_nat (length cur + walk_length names) + 2 <= 2 ^ 30)%Z ->
    exists st1 st2,
      enter_all junk names st = Some st1
      /\ leave_times (length names) st1 = Some st2
      /\ curpath_str st2 = Some cur
      /\ wf st2 = true
      /\ others st2 = others st.
Proof.
  induction names as [|name names IH]; intros st cur W C Shape Hn Hs.
  - exists st, st. repeat split; auto.
  - inversion Hn as [|? ? Hname Hrest]; subst.
    cbn [walk_length fold_right] in Hs. fold (walk_length names) in Hs.
    destruct (enter_spec junk name st cur W C) as (sa & Ea & Wa & Ca & Oa).
    { destruct Shape as [-> | Len]; [discriminate|].
      intros ->. simpl in Len. lia. }
    { lia. }
    destruct (entered_shape cur name Shape) as [Shape' Bound].
    destruct (IH sa _ Wa Ca Shape' Hrest) as (s1 & s2 & E1 & E2 & C2 & W2 & O2).
    { lia. }
    destruct (leave_spec s2 _ W2 C2) as (s3 & E3 & W3 & C3 & O3).
    exists s1, s3. split; [|split; [|split; [|split]]].
    + cbn [enter_all]. rewrite Ea. exact E1.
    + cbn [length]. rewrite leave_times_last, E2. exact E3.
    + rewrite C3, TrackerSpec.left_entered; auto.
    + exact W3.
    + congruence.
Qed.

Lemma walk_down_and_up_restores_witness :
  exists st1 st2,
    enter_all (fun _ => "x"%char) [lit "usr"; lit "share"; lit "doc"] (holding "/")
    = Some st1
    /\ leave_times 3 st1 = Some st2
    /\ curpath_str st2 = Some (lit "/")
    /\ wf st2 = true
    /\ others st2 = others (holding "/").
Proof.
  apply (walk_down_and_up_restores (fun _ => "x"%char)
           [lit "usr"; lit "share"; lit "doc"] (holding "/") (lit "/")).
  - reflexivity.
  - reflexivity.
  - left. reflexivity.
  - repeat constructor.
  - vm_compute. discriminate.
Defined.

Lemma realloc_length (junk : nat -> ascii) (p : option (list ascii)) (n : nat) :
  length (realloc junk p n) = n.
Proof.
  unfold realloc, malloc, fresh. destruct p as [m|].
  - rewrite length_app, length_firstn, length_map, length_seq. lia.
  - rewrite length_map, length_seq. reflexivity.
Qed.

(** X6: when the path handed to [dir_setlasterr] is at least as long as the
    current path (as it is when the caller hands in the current path), the
    call records the current path; the block of the error only grows, to the
    length of the path handed in and its terminator; and a call with NULL
    afterwards leaves no error and no block. *)
Theorem setlasterr_records_and_clears (junk : nat -> ascii) (p : list ascii)
  (st : state) (cur : list ascii) :
  wf st = true ->
  curpath_str st = Some cur ->
  block_length (lasterr st) = lasterrl st ->
  (length cur <= strlen p)%nat ->
  (Z.of_nat (strlen p) + 1 <= INT_MAX)%Z ->
  exists st1,
    dir_setlasterr junk (Some p) st = Some st1
    /\ lasterr_str st1 = Some cur
    /\ lasterrl st1 = Z.max (lasterrl st) (Z.of_nat (strlen p) + 1)
    /\ block_length (lasterr st1) = lasterrl st1
    /\ dir_curpath st1 = dir_curpath st
    /\ dir_fatalerr st1 = dir_fatalerr st
    /\ exists st2, dir_setlasterr junk None st1 = Some st2
                   /\ lasterr st2 = None
                   /\ lasterrl st2 = 0%Z
                   /\ draw_progress st2 = ProgressBox (Some cur) None.
Proof.
  intros W C Cons Fit Hint.
  destruct (wf_inv st W) as (m & E & L & B & T).
  unfold curpath_str in C. rewrite E in C. simpl in C. injection C as C.
  unfold dir_setlasterr.
  rewrite to_int_small by lia.
  set (req := (Z.of_nat (strlen p) + 1)%Z) in *.
  assert (Dst : exists dst l,
            (if (lasterrl st <? req)%Z
             then set_lasterr st (Some (realloc junk (lasterr st) (Z.to_nat req))) req
             else st) = set_lasterr st (Some dst) l
            /\ Z.of_nat (length dst) = l
            /\ l = Z.max (lasterrl st) req).
  { destruct (Z.ltb_spec (lasterrl st) req) as [Lt|Ge].
    - eexists. exists req. split; [reflexivity|].
      rewrite realloc_length. lia.
    - destruct (lasterr st) as [dst|] eqn:LE; simpl in Cons.
      + exists dst, (lasterrl st). split; [|lia].
        destruct st; simpl in *; subst; reflexivity.
      + subst req. lia. }
  destruct Dst as (dst & l & -> & Ld & Lmax).
  cbn [lasterr dir_curpath set_lasterr]. rewrite E, T.
  destruct (strcpy_spec dst m) as (dst' & Cp & Cd & Ld' & _).
  { unfold strlen. rewrite C. subst req. lia. }
  rewrite Cp. eexists. split; [reflexivity|].
  cbn [lasterr_str lasterr lasterrl set_lasterr dir_curpath dir_fatalerr
       block_length option_map].
  split; [rewrite Cd, C; reflexivity|].
  split; [exact Lmax|]. split; [rewrite Ld'; exact Ld|].
  split; [exact E|]. split; [reflexivity|].
  eexists. split; [reflexivity|].
  split; [reflexivity|]. split; [reflexivity|].
  unfold draw_progress. cbn [dir_curpath lasterr set_lasterr option_map].
  rewrite E. cbn [option_map]. rewrite C. reflexivity.
Qed.

Lemma setlasterr_records_and_clears_witness :
  exists st1,
    dir_setlasterr (fun _ => "x"%char) (Some (lit "/var/log")) (holding "/var/log")
    = Some st1
    /\ lasterr_str st1 = Some (lit "/var/log")
    /\ lasterrl st1 = Z.max (lasterrl (holding "/var/log"))
                        (Z.of_nat (strlen (lit "/var/log")) + 1)
    /\ block_length (lasterr st1) = lasterrl st1
    /\ dir_curpath st1 = dir_curpath (holding "/var/log")
    /\ dir_fatalerr st1 = dir_fatalerr (holding "/var/log")
    /\ exists st2, dir_setlasterr (fun _ => "x"%char) None st1 = Some st2
                   /\ lasterr st2 = None
                   /\ lasterrl st2 = 0%Z
                   /\ draw_progress st2 = ProgressBox (Some (lit "/var/log")) None.
Proof.
  apply (setlasterr_records_and_clears (fun _ => "x"%char) (lit "/var/log")
           (holding "/var/log") (lit "/var/log")).
  - reflexivity.
  - reflexivity.
  - reflexivity.
  - vm_compute. lia.
  - vm_compute. discriminate.
Defined.

(** X7: with no error recorded yet, a path handed to [dir_setlasterr] that
    is shorter than the current path gives a block the copy of the current
    path does not fit into: the call has no defined result. *)
Theorem setlasterr_overruns_short_block (junk : nat -> ascii) (p : list ascii)
  (st : state) (cur : list ascii) :
  wf st = true ->
  curpath_str st = Some cur ->
  lasterr st = None ->
  lasterrl st = 0%Z ->
  (strlen p < length cur)%nat ->
  (Z.of_nat (strlen p) + 1 <= INT_MAX)%Z ->
  dir_setlasterr junk (Some p) st = None.
Proof.
  intros W C Null Zero Long Hint.
  destruct (wf_inv st W) as (m & E & L & B & T).
  unfold curpath_str in C. rewrite E in C. simpl in C. injection C as C.
  unfold dir_setlasterr.
  rewrite to_int_small by lia. rewrite Zero.
  destruct (Z.ltb_spec 0 (Z.of_nat (strlen p) + 1)) as [_|?]; [|lia].
  cbn [lasterr dir_curpath set_lasterr]. rewrite E, T.
  unfold strcpy, store. rewrite realloc_length, length_app, C.
  destruct (Nat.leb_spec (0 + (length cur + length [NUL]))
              (Z.to_nat (Z.of_nat (strlen p) + 1))) as [Le|_]; [|reflexivity].
  simpl in Le. lia.
Qed.

Lemma setlasterr_overruns_short_block_witness :
  dir_setlasterr (fun _ => "x"%char) (Some (lit "/b")) (holding "/a/long/path") = None.
Proof.
  apply (setlasterr_overruns_short_block (fun _ => "x"%char) (lit "/b")
           (holding "/a/long/path") (lit "/a/long/path")).
  - reflexivity.
  - reflexivity.
  - reflexivity.
  - reflexivity.
  - vm_compute. lia.
  - vm_compute. discriminate.
Defined.

End TrackerMore.

(** ** The marquee of the progress box *)
Module ProgressSpec.
Import CStr Progress.
Local Open Scope Z_scope.

Lemma copy_down_done (i : nat) (bound : Z) (ani : list ascii) :
  Z.of_nat i <= bound -> copy_down i bound ani = Some ani.
Proof.
  intros H. destruct i as [|i]; cbn [copy_down].
  - destruct (Z.gtb_spec (Z.of_nat 0) bound); [lia | reflexivity].
  - destruct (Z.gtb_spec (Z.of_nat (S i)) bound); [lia | reflexivity].
Qed.

Lemma animate_by_test (d1 d2 anpos : Z) :
  (d1 <=? 1000) = (d2 <=? 1000) -> animate d1 anpos = animate d2 anpos.
Proof. unfold animate. intros ->. reflexivity. Qed.

Lemma animate_times_by_test (n : nat) (d1 d2 : Z) :
  (d1 <=? 1000) = (d2 <=? 1000) ->
  forall anpos, animate_times n d1 anpos = animate_times n d2 anpos.
Proof.
  intros T. induction n as [|n IH]; intros anpos; [reflexivity|].
  cbn [animate_times]. rewrite (animate_by_test d1 d2 anpos T).
  destruct (animate d2 anpos) as [a|]; [|reflexivity].
  rewrite IH. reflexivity.
Qed.

Lemma below_22 (z : Z) :
  0 <= z < 22 ->
  In z [0; 1; 2; 3; 4; 5; 6; 7; 8; 9; 10; 11; 12; 13; 14; 15; 16; 17; 18; 19; 20; 21].
Proof.
  intros H. replace z with (Z.of_nat (Z.to_nat z)) by lia.
  assert (L : (Z.to_nat z < 22)%nat) by lia.
  revert L. generalize (Z.to_nat z). intros n L.
  do 22 (destruct n as [|n]; [simpl; tauto|]). lia.
Qed.

Ltac label_chars :=
  unfold drawn_from_label;
  repeat (constructor; [first [left; reflexivity | right; reflexivity]|]);
  constructor.

(** X8: whatever the position and the refresh interval, the animation stays
    inside its array of 20 bytes and shows a text of 11 characters, each a
    blank or the character of the label at that place; with a refresh
    interval above one second the label is shown whole and the position is
    left alone. *)
Theorem animation_stays_in_array (update_delay anpos : Z) :
  0 <= anpos < 2 ^ 64 ->
  exists anpos' ani,
    animate update_delay anpos = Some (anpos', ani)
    /\ length ani = 20%nat
    /\ strlen ani = 11%nat
    /\ drawn_from_label (cstr ani)
    /\ (1000 < update_delay ->
        anpos' = anpos /\ cstr ani = lit "Scanning...").
Proof.
  intros Range.
  destruct (Z.leb_spec update_delay 1000) as [Fast|Slow].
  - assert (T : (update_delay <=? 1000) = (0 <=? 1000)).
    { apply Z.leb_le in Fast. rewrite Fast. reflexivity. }
    rewrite (animate_by_test _ _ anpos T).
    destruct (Z_lt_dec anpos 22) as [Low|High].
    + pose proof (below_22 anpos ltac:(lia)) as Cases. simpl in Cases.
      repeat (destruct Cases as [<-|Cases];
              [eexists; eexists; split; [vm_compute; reflexivity|];
               split; [reflexivity|]; split; [reflexivity|];
               split; [label_chars | lia]|]).
      contradiction.
    + destruct (Z.eq_dec anpos (2 ^ 64 - 1)) as [->|NotLast].
      * eexists; eexists; split; [vm_compute; reflexivity|].
        split; [reflexivity|]. split; [reflexivity|].
        split; [label_chars | lia].
      * unfold animate. change (0 <=? 1000) with true. cbv iota.
        unfold size_t. rewrite Z.mod_small by lia.
        change (strlen antext) with 11%nat.
        destruct (Z.eqb_spec (anpos + 1) (Z.of_nat 11 * 2)) as [?|_]; [lia|].
        destruct (Z.ltb_spec (anpos + 1) (Z.of_nat 11)) as [?|_]; [lia|].
        set (a1 := store (repeat NUL 20) 0 (repeat " "%char 11)).
        vm_compute in a1. subst a1. cbv iota beta.
        rewrite copy_down_done by lia.
        eexists; eexists; split; [reflexivity|].
        split; [reflexivity|]. split; [reflexivity|].
        split; [label_chars | lia].
  - assert (T : (update_delay <=? 1000) = (1001 <=? 1000)).
    { destruct (Z.leb_spec update_delay 1000); [lia | reflexivity]. }
    rewrite (animate_by_test _ _ anpos T).
    eexists; eexists; split; [vm_compute; reflexivity|].
    split; [reflexivity|]. split; [reflexivity|].
    split; [label_chars|]. intros _. split; reflexivity.
Qed.

Lemma animation_stays_in_array_witness :
  exists anpos' ani,
    animate 2000 7 = Some (anpos', ani)
    /\ length ani = 20%nat
    /\ strlen ani = 11%nat
    /\ drawn_from_label (cstr ani)
    /\ (1000 < 2000 -> anpos' = 7 /\ cstr ani = lit "Scanning...").
Proof.
  apply (animation_stays_in_array 2000 7).
  vm_compute. split; [discriminate | reflexivity].
Defined.

(** X9: with a refresh interval of at most one second, each draw moves the
    position one step round a cycle of 22 and shows the frame of the new
    position: the label grown to one more character, up to the whole label,
    and then wiped out from the left, down to blanks; 22 draws bring the
    position back. *)
Theorem marquee_cycle (update_delay anpos : Z) :
  update_delay <= 1000 ->
  0 <= anpos < 22 ->
  (exists ani,
     animate update_delay anpos = Some ((anpos + 1) mod 22, ani)
     /\ cstr ani = marquee ((anpos + 1) mod 22))
  /\ animate_times 22 update_delay anpos
     = Some (anpos,
             map (fun i => marquee ((anpos + Z.of_nat i) mod 22)) (seq 1 22)).
Proof.
  intros Fast Range.
  assert (T : (update_delay <=? 1000) = (0 <=? 1000)).
  { apply Z.leb_le in Fast. rewrite Fast. reflexivity. }
  rewrite (animate_by_test _ _ anpos T), (animate_times_by_test 22 _ _ T).
  pose proof (below_22 anpos Range) as Cases. simpl in Cases.
  repeat (destruct Cases as [<-|Cases];
          [split; [eexists; split; vm_compute; reflexivity
                  | vm_compute; reflexivity]|]).
  contradiction.
Qed.

Lemma marquee_cycle_witness :
  (exists ani,
     animate 100 21 = Some ((21 + 1) mod 22, ani)
     /\ cstr ani = marquee ((21 + 1) mod 22))
  /\ animate_times 22 100 21
     = Some (21, map (fun i => marquee ((21 + Z.of_nat i) mod 22)) (seq 1 22)).
Proof.
  apply (marquee_cycle 100 21); lia.
Defined.

End ProgressSpec.

(** ** More on the option parser *)
Module ArgsMore.
Import Args ArgsSpec Tokens.
Local Open Scope Z_scope.
Local Open Scope string_scope.

Lemma split_eq_none (s : string) : occurs "=" s = false -> split_eq s = None.
Proof.
  induction s as [|c s IH]; simpl; intros H; [reflexivity|].
  apply orb_false_iff in H. destruct H as [Hc Hs].
  rewrite Hc, (IH Hs). reflexivity.
Qed.

Lemma split_eq_first (a b : string) :
  occurs "=" a = false -> split_eq (a ++ "=" ++ b) = Some (a, b).
Proof.
  induction a as [|c a IH]; simpl; intros H; [reflexivity|].
  apply orb_false_iff in H. destruct H as [Hc Ha].
  specialize (IH Ha). simpl in IH. rewrite Hc, IH. reflexivity.
Qed.

(** X10: [split_eq] cuts a token at its first equals sign: the name before
    it holds none, putting the parts together again gives the token, and a
    token without the sign is not cut. *)
Theorem split_eq_cuts_at_first_sign (s : string) :
  match split_eq s with
  | Some (name, value) => s = name ++ "=" ++ value /\ occurs "=" name = false
  | None => occurs "=" s = false
  end
  /\ (forall name value, occurs "=" name = false ->
        split_eq (name ++ "=" ++ value) = Some (name, value)).
Proof.
  split; [|intros; apply split_eq_first; assumption].
  induction s as [|c s IH]; simpl; [reflexivity|].
  destruct (Ascii.eqb_spec c "=") as [->|Ne].
  - split; reflexivity.
  - destruct (split_eq s) as [[a b]|].
    + destruct IH as [-> IH]. simpl. split; [reflexivity|].
      apply Ascii.eqb_neq in Ne. rewrite Ne. exact IH.
    + simpl. exact IH.
Qed.

Lemma deref_advance (a : string) :
  Ascii.eqb (deref (advance a)) CStr.NUL = false ->
  exists c rest, advance a = String c rest.
Proof.
  destruct (advance a) as [|c rest]; simpl; intros H; [discriminate|].
  exists c, rest. reflexivity.
Qed.

Lemma shortopt_step (p : argparser) (c : ascii) (rest : string) :
  argsep p = false ->
  exists p', argparser_shortopt p (String c rest) = Ret (1, p')
             /\ tidy p' = true
             /\ last p' = Some (short c)
             /\ shortopt p' = match rest with EmptyString => None | _ => Some rest end
             /\ argv p' = argv p /\ last_arg p' = last_arg p /\ argsep p' = false.
Proof.
  intros Sep. unfold argparser_shortopt. eexists. split; [reflexivity|].
  unfold tidy. cbn. rewrite Sep. destruct rest; repeat split; reflexivity.
Qed.

Lemma long_name (a name value : string) :
  Ascii.eqb (deref a) "-" = true ->
  Ascii.eqb (deref (advance a)) "-" = true ->
  a = name ++ "=" ++ value ->
  long_form name = true.
Proof.
  intros H1 H2 E.
  destruct a as [|x [|y r]]; simpl in H1, H2; try discriminate.
  apply Ascii.eqb_eq in H1, H2. subst x y.
  destruct name as [|x [|y n]]; simpl in E; try discriminate.
  inversion E. reflexivity.
Qed.

Lemma long_token (a : string) :
  Ascii.eqb (deref a) "-" = true ->
  Ascii.eqb (deref (advance a)) "-" = true ->
  long_form a = true.
Proof.
  intros H1 H2.
  destruct a as [|x [|y r]]; simpl in H1, H2; try discriminate.
  apply Ascii.eqb_eq in H1, H2. subst x y. reflexivity.
Qed.

Lemma next_tidy (av : list string) :
  forall p : argparser,
    argv p = av ->
    tidy p = true ->
    argparser_next_from av p <> Undef
    /\ forall r p', argparser_next_from av p = Ret (r, p') ->
                    tidy p' = true /\ step_result av r p'.
Proof.
  induction av as [|a av IH]; intros p A T;
    cbn [argparser_next_from];
    (destruct (last_arg p) eqn:LA; [split; [discriminate | intros; discriminate]|]);
    (destruct (shortopt p) as [[|c rest]|] eqn:SO;
     [unfold tidy in T; rewrite SO in T; discriminate
     | assert (Sep : argsep p = false)
         by (unfold tidy in T; rewrite SO in T; apply negb_true_iff in T; exact T);
       destruct (shortopt_step p c rest Sep) as (q & E & Tq & Lq & _);
       rewrite E; split; [discriminate|];
       intros r p' H; injection H as <- <-; split; [exact Tq|];
       right; left; split; [reflexivity|]; exists (short c); split; [exact Lq|];
       left; exists c; reflexivity
     |]).
  - split; [discriminate|]. intros r p' H. injection H as <- <-.
    split; [unfold tidy; simpl; rewrite SO; reflexivity|].
    left. repeat split. exact A.
  - set (p1 := with_last (with_argv p av) (Some a)).
    assert (T1 : shortopt p1 = None /\ last_arg p1 = None)
      by (split; simpl; assumption).
    destruct T1 as [SO1 LA1].
    destruct (argsep p1 || Ascii.eqb (deref a) CStr.NUL
              || negb (Ascii.eqb (deref a) "-")) eqn:C1.
    { split; [discriminate|]. intros r p' H. injection H as <- <-.
      split; [unfold tidy; rewrite SO1; reflexivity|].
      right; right. split; [reflexivity|]. exists a.
      split; [reflexivity|]. split; [left; reflexivity|].
      unfold between_tokens. rewrite SO1, LA1. reflexivity. }
    apply orb_false_iff in C1. destruct C1 as [C1 Dash].
    apply orb_false_iff in C1. destruct C1 as [Sep _].
    apply negb_false_iff in Dash.
    destruct (Ascii.eqb (deref (advance a)) CStr.NUL) eqn:C2;
      [split; [discriminate | intros; discriminate]|].
    destruct (Ascii.eqb (deref (advance a)) "-"
              && Ascii.eqb (deref (advance (advance a))) CStr.NUL) eqn:C3.
    { destruct (IH (with_argsep p1 true)) as [NU Step].
      { reflexivity. }
      { unfold tidy. simpl. rewrite SO. reflexivity. }
      split; [exact NU|]. intros r p' H.
      destruct (Step r p' H) as [Tp [R0|[R1|(R2 & b & Lb & Ib & Bb)]]].
      - split; [exact Tp|]. left. exact R0.
      - split; [exact Tp|]. right; left. exact R1.
      - split; [exact Tp|]. right; right. split; [exact R2|].
        exists b. split; [exact Lb|]. split; [right; exact Ib | exact Bb]. }
    destruct (Ascii.eqb (deref (advance a)) "-") eqn:C4.
    + split; [destruct (split_eq a) as [[name value]|]; discriminate|].
      intros r p' H.
      destruct (split_eq a) as [[name value]|] eqn:S; injection H as <- <-.
      * split; [unfold tidy; simpl; rewrite SO; reflexivity|].
        right; left. split; [reflexivity|]. exists name.
        split; [reflexivity|]. right.
        apply (long_name a name value Dash C4). apply split_eq_spec, S.
      * split; [unfold tidy; simpl; rewrite SO; reflexivity|].
        right; left. split; [reflexivity|]. exists a.
        split; [reflexivity|]. right. apply (long_token a Dash C4).
    + destruct (deref_advance a C2) as (c & rest & ->).
      destruct (shortopt_step p1 c rest Sep) as (q & E & Tq & Lq & _).
      rewrite E. split; [discriminate|].
      intros r p' H. injection H as <- <-. split; [exact Tq|].
      right; left. split; [reflexivity|]. exists (short c).
      split; [exact Lq|]. left. exists c. reflexivity.
Qed.

Lemma parse_step_safe_parts (p : argparser) :
  tidy p = true ->
  argparser_next p <> Undef
  /\ forall r p', argparser_next p = Ret (r, p') ->
                  tidy p' = true /\ step_result (argv p) r p'.
Proof. intros T. apply next_tidy; [reflexivity | exact T]. Qed.

(** X11: from a tidy parser a parse step reads no character outside a
    string, leaves the parser tidy, and returns 0 with the arguments used
    up, or 1 with an option named by a dash and one character or by two
    dashes and more, or 2 with one of the arguments as it stands. *)
Theorem parse_step_is_safe (p : argparser) :
  tidy p = true ->
  argparser_next p <> Undef
  /\ forall r p', argparser_next p = Ret (r, p') ->
                  tidy p' = true /\ step_result (argv p) r p'.
Proof. intros T. apply next_tidy; [reflexivity | exact T]. Qed.

Lemma parse_step_is_safe_witness :
  argparser_next (mkParser ["-xq"; "dir"] None None None false) <> Undef
  /\ forall r p',
       argparser_next (mkParser ["-xq"; "dir"] None None None false) = Ret (r, p') ->
       tidy p' = true
       /\ step_result (argv (mkParser ["-xq"; "dir"] None None None false)) r p'.
Proof.
  apply (parse_step_is_safe (mkParser ["-xq"; "dir"] None None None false)).
  reflexivity.
Defined.

Lemma arg_never_undef (p : argparser) : argparser_arg p <> Undef.
Proof.
  unfold argparser_arg, argparser_pop.
  destruct (shortopt p); [discriminate|].
  destruct (last_arg p); [discriminate|].
  destruct (argv p); discriminate.
Qed.

Lemma arg_tidy (p p' : argparser) (v : string) :
  argparser_arg p = Ret (v, p') -> tidy p' = true.
Proof.
  unfold argparser_arg, argparser_pop, tidy.
  destruct (shortopt p) eqn:SO; [intros H; injection H as _ <-; reflexivity|].
  destruct (last_arg p); [intros H; injection H as _ <-; simpl; rewrite SO; reflexivity|].
  destruct (argv p); [discriminate|].
  intros H; injection H as _ <-. simpl. rewrite SO. reflexivity.
Qed.

Lemma ARG_parts (g g' : globals) (v : string) :
  ARG g = Ret (v, g') ->
  var g' = var g
  /\ exclude_calls g' = exclude_calls g
  /\ argparser_arg (argparser_state g) = Ret (v, argparser_state g').
Proof.
  unfold ARG, bind.
  destruct (argparser_arg (argparser_state g)) as [[v0 p0]| | |]; try discriminate.
  intros H. injection H as <- <-. repeat split.
Qed.

Lemma ARG_never_undef (g : globals) : ARG g <> Undef.
Proof.
  unfold ARG, bind. pose proof (arg_never_undef (argparser_state g)) as N.
  destruct (argparser_arg (argparser_state g)) as [[v0 p0]| | |];
    congruence.
Qed.

Section Safety.
Variable exclude_addfile : string -> Z.
Variable strerror_errno : string -> string.
Variable PACKAGE_VERSION : string.
Variables have_statfs have_firmlinks no_color : bool.
Variables dir_export_init dir_import_init : string -> Z.

Local Abbreviation arg_option := (Args.arg_option exclude_addfile strerror_errno).
Local Abbreviation loop_body :=
  (Args.loop_body exclude_addfile strerror_errno PACKAGE_VERSION have_statfs
     have_firmlinks).
Local Abbreviation parse_loop :=
  (Args.parse_loop exclude_addfile strerror_errno PACKAGE_VERSION have_statfs
     have_firmlinks).
Local Abbreviation select_backends :=
  (Args.select_backends strerror_errno have_statfs dir_export_init dir_import_init).
Local Abbreviation argv_parse :=
  (Args.argv_parse exclude_addfile strerror_errno PACKAGE_VERSION have_statfs
     have_firmlinks no_color dir_export_init dir_import_init).

Ltac split_ifs H :=
  repeat match type of H with
         | (if ?c then _ else _) = _ => destruct c
         | match CStr.int_incr ?x with _ => _ end = _ =>
             destruct (CStr.int_incr x) eqn:?
         end.

(** [arg_option] leaves the parser alone or retrieves one value. *)
Lemma arg_option_parser (g g' : globals) (r : Z) :
  arg_option g = Ret (r, g') ->
  argparser_state g' = argparser_state g
  \/ exists v, argparser_arg (argparser_state g) = Ret (v, argparser_state g').
Proof.
  unfold Args.arg_option. intros H. split_ifs H;
    try (injection H as _ <-; left; reflexivity);
    (unfold bind in H;
     destruct (ARG g) as [[v g1]| | |] eqn:E; try discriminate;
     apply ARG_parts in E; destruct E as (_ & _ & E);
     cbn [fst snd] in H; split_ifs H;
     try discriminate; injection H as _ <-; right; exists v; exact E).
Qed.

(** [arg_option] leaves [read_only] alone or adds 1 to it. *)
Lemma arg_option_read_only (g g' : globals) (r : Z) :
  arg_option g = Ret (r, g') ->
  var g read_only <= var g' read_only <= var g read_only + 1.
Proof.
  unfold Args.arg_option. intros H. split_ifs H;
    try discriminate;
    try (injection H as _ <-; cbn [var assign setting_eqb]; lia);
    try (match goal with
         | E : CStr.int_incr _ = Some _ |- _ =>
             apply CStrFacts.int_incr_some in E; destruct E as [-> _]
         end;
         injection H as _ <-; cbn [var assign setting_eqb]; lia);
    (unfold bind in H;
     destruct (ARG g) as [[v g1]| | |] eqn:E; try discriminate;
     apply ARG_parts in E; destruct E as (E & _ & _);
     cbn [fst snd] in H; split_ifs H;
     try discriminate; injection H as _ <-;
     cbn [var assign call_exclude setting_eqb]; rewrite E; lia).
Qed.

(** Below [INT_MAX] the increment of [read_only] is defined, and so is
    [arg_option]. *)
Lemma arg_option_defined (g : globals) :
  - CStr.INT_MAX - 2 <= var g read_only < CStr.INT_MAX ->
  arg_option g <> Undef.
Proof.
  unfold Args.arg_option. intros B H. split_ifs H; try discriminate;
    try (match goal with
         | E : CStr.int_incr _ = None |- _ =>
             rewrite (CStrFacts.int_incr_small _ B) in E; discriminate E
         end);
    (unfold bind in H;
     pose proof (ARG_never_undef g) as N;
     destruct (ARG g) as [[v g1]| | |]; try discriminate; try congruence;
     cbn [fst snd] in H; split_ifs H; discriminate).
Qed.

Lemma loop_body_defined (r : Z) (s : locals) :
  - CStr.INT_MAX - 2 <= var (glob s) read_only < CStr.INT_MAX ->
  loop_body r s <> Undef.
Proof.
  unfold Args.loop_body. intros B H. split_ifs H; try discriminate.
  - unfold bind in H. pose proof (ARG_never_undef (glob s)) as N.
    destruct (ARG (glob s)) as [[v g1]| | |]; try discriminate; congruence.
  - unfold bind in H. pose proof (ARG_never_undef (glob s)) as N.
    destruct (ARG (glob s)) as [[v g1]| | |]; try discriminate; congruence.
  - unfold bind in H. pose proof (arg_option_defined (glob s) B) as N.
    destruct (Args.arg_option exclude_addfile strerror_errno (glob s))
      as [[r0 g1]| | |]; try discriminate; try congruence.
    cbn [fst snd] in H. split_ifs H; discriminate.
Qed.

Lemma loop_body_tidy (r : Z) (s s' : locals) :
  loop_body r s = Ret s' ->
  tidy (argparser_state (glob s)) = true ->
  tidy (argparser_state (glob s')) = true.
Proof.
  unfold Args.loop_body. intros H T. split_ifs H; try discriminate.
  - injection H as <-. exact T.
  - unfold bind in H.
    destruct (ARG (glob s)) as [[v g1]| | |] eqn:E; try discriminate.
    injection H as <-. apply ARG_parts in E. destruct E as (_ & _ & E).
    apply (arg_tidy _ _ _ E).
  - unfold bind in H.
    destruct (ARG (glob s)) as [[v g1]| | |] eqn:E; try discriminate.
    injection H as <-. apply ARG_parts in E. destruct E as (_ & _ & E).
    apply (arg_tidy _ _ _ E).
  - unfold bind in H.
    destruct (Args.arg_option exclude_addfile strerror_errno (glob s))
      as [[r0 g1]| | |] eqn:E; try discriminate.
    cbn [fst snd] in H. split_ifs H; try discriminate.
    injection H as <-. cbn [glob].
    destruct (arg_option_parser _ _ _ E) as [-> | (v & A)];
      [exact T | apply (arg_tidy _ _ _ A)].
Qed.

Lemma loop_body_read_only (r : Z) (s s' : locals) :
  loop_body r s = Ret s' ->
  var (glob s) read_only <= var (glob s') read_only <= var (glob s) read_only + 1.
Proof.
  unfold Args.loop_body. intros H. split_ifs H; try discriminate.
  - injection H as <-. cbn [glob]. lia.
  - unfold bind in H.
    destruct (ARG (glob s)) as [[v g1]| | |] eqn:E; try discriminate.
    injection H as <-. apply ARG_parts in E. destruct E as (E & _ & _).
    cbn [glob snd]. rewrite E. lia.
  - unfold bind in H.
    destruct (ARG (glob s)) as [[v g1]| | |] eqn:E; try discriminate.
    injection H as <-. apply ARG_parts in E. destruct E as (E & _ & _).
    cbn [glob snd]. rewrite E. lia.
  - unfold bind in H.
    destruct (Args.arg_option exclude_addfile strerror_errno (glob s))
      as [[r0 g1]| | |] eqn:E; try discriminate.
    cbn [fst snd] in H. split_ifs H; try discriminate.
    injection H as <-. cbn [glob]. exact (arg_option_read_only _ _ _ E).
Qed.

(** While [read_only] and what is left to parse stay together within
    [int], no step of the loop is undefined: every [-r] uses up a character
    of the arguments. *)
Lemma parse_loop_defined (fuel : nat) :
  forall s : locals,
    tidy (argparser_state (glob s)) = true ->
    - CStr.INT_MAX - 2 <= var (glob s) read_only ->
    var (glob s) read_only + Z.of_nat (remaining (argparser_state (glob s)))
    <= CStr.INT_MAX ->
    parse_loop fuel s <> Some Undef.
Proof.
  induction fuel as [|fuel IH]; intros s T Lo Hi; [discriminate|].
  cbn [Args.parse_loop].
  destruct (parse_step_safe_parts (argparser_state (glob s)) T) as [NU Step].
  destruct (argparser_next (argparser_state (glob s))) as [[r p]| | |] eqn:N;
    try discriminate; [|congruence].
  destruct (Step r p eq_refl) as [Tp _].
  destruct (ArgsSpec.next_remaining _ _ _ _ eq_refl N) as [Le Dec].
  destruct (Z.gtb_spec r 0) as [Pos|_]; [|discriminate].
  specialize (Dec ltac:(lia)).
  set (s1 := mkLocals (with_parser (glob s) p) (export s) (import s) (dir s)
               (emitted s)).
  assert (B : - CStr.INT_MAX - 2 <= var (glob s1) read_only < CStr.INT_MAX)
    by (cbn [s1 glob var with_parser]; lia).
  pose proof (loop_body_defined r s1 B) as NB.
  destruct (loop_body r s1) as [s2| | |] eqn:Body;
    try discriminate; [|congruence].
  pose proof (loop_body_read_only _ _ _ Body) as RO.
  pose proof (ArgsSpec.loop_body_remaining exclude_addfile strerror_errno
                PACKAGE_VERSION have_statfs have_firmlinks _ _ _ Body) as Rem.
  cbn [s1 glob var with_parser argparser_state] in RO, Rem.
  apply IH.
  - apply (loop_body_tidy _ _ _ Body). exact Tp.
  - lia.
  - lia.
Qed.

Lemma select_backends_never_undef (s : locals) : select_backends s <> Undef.
Proof.
  unfold Args.select_backends. intros H.
  destruct (negb have_statfs && negb (var (glob s) exclude_kernfs =? 0)%Z);
    [discriminate|].
  unfold bind in H.
  destruct (export s) as [e|];
    [destruct (negb (dir_export_init e =? 0)%Z); [discriminate|]|];
    (destruct (import s) as [i|];
     [destruct (negb (dir_import_init i =? 0)%Z); discriminate | discriminate]).
Qed.

(** X12: [argv_parse] comes to an end within its budget of parse steps and
    nothing on the way is undefined (no parse step reads outside a string,
    and the count of [-r] stays within [int]): it returns the start-up
    choices, or ends the process through [die] or [exit].  This holds for
    every argument vector and all globals such that [read_only] at the start
    and the length of the arguments (the characters and one more for each
    argument) stay together within [INT_MAX]; from the initial globals, for
    every argument vector shorter than [INT_MAX]. *)
Theorem argv_parse_always_ends (args : list string) (g0 : globals) :
  - CStr.INT_MAX - 1 <= var g0 read_only ->
  var g0 read_only + Z.of_nat (tokens_left args) <= CStr.INT_MAX ->
  exists r, argv_parse args g0 = Some r /\ r <> Undef.
Proof.
  intros Lo Hi.
  pose proof (ArgsSpec.argv_parse_total exclude_addfile strerror_errno
                PACKAGE_VERSION have_statfs have_firmlinks no_color
                dir_export_init dir_import_init args g0) as Total.
  destruct (argv_parse args g0) as [r|] eqn:E; [|congruence].
  exists r. split; [reflexivity|]. intros ->.
  unfold Args.argv_parse in E.
  assert (T0 : tidy (mkParser args None None None false) = true) by reflexivity.
  destruct (parse_step_safe_parts _ T0) as [NU Step].
  destruct (argparser_next (mkParser args None None None false))
    as [[r p]| | |] eqn:N; try discriminate; [|congruence].
  destruct (Step r p eq_refl) as [Tp _].
  destruct (ArgsSpec.next_remaining _ _ _ _ eq_refl N) as [Le _].
  unfold remaining at 2 in Le. cbn [shortopt argv] in Le.
  match type of E with
  | match ?b with _ => _ end = _ =>
      pose proof (parse_loop_defined (budget args)
        (mkLocals (with_parser (assign si 0 (assign dir_ui (-1)
           (assign uic_theme (if no_color then 0 else 2) g0))) p)
           None None None []) Tp) as D;
      destruct b as [[s| | |]|] eqn:B
  end; try discriminate.
  - injection E as E. exact (select_backends_never_undef s E).
  - apply D; [|  |reflexivity];
      cbn [glob var with_parser assign setting_eqb argparser_state]; lia.
Qed.

End Safety.

Lemma argv_parse_always_ends_witness :
  exists r, parse_on_linux ["ncdu"; "-r"; "-rr"; "--color=dark"; "/srv"] = Some r
            /\ r <> Undef.
Proof.
  apply (argv_parse_always_ends (fun _ => 0)
           (fun _ => "No such file or directory") "1.17" true false false
           (fun _ => 0) (fun _ => 0)
           ["ncdu"; "-r"; "-rr"; "--color=dark"; "/srv"] initial_globals).
  - vm_compute. discriminate.
  - vm_compute. discriminate.
Defined.

(** At [INT_MAX] one more [-r] is the signed overflow of [read_only++]. *)
Example read_only_overflow :
  Args.argv_parse (fun _ => 0) (fun _ => "No such file or directory") "1.17"
    true false false (fun _ => 0) (fun _ => 0)
    ["ncdu"; "-r"] (assign read_only CStr.INT_MAX initial_globals)
  = Some Undef.
Proof. reflexivity. Qed.

Lemma append_empty (s : string) : s ++ "" = s.
Proof. induction s as [|c s IH]; simpl; [reflexivity | rewrite IH; reflexivity]. Qed.

Lemma next_in_run (q : argparser) (x : ascii) (r : string) :
  last_arg q = None ->
  shortopt q = Some (String x r) ->
  argparser_next q = argparser_shortopt q (String x r).
Proof.
  intros LA SO. unfold argparser_next.
  destruct (argv q); cbn [argparser_next_from]; rewrite LA, SO; reflexivity.
Qed.

Lemma run_steps (run : string) :
  forall q : argparser,
    shortopt q = match run with EmptyString => None | _ => Some run end ->
    last_arg q = None ->
    argsep q = false ->
    exists q',
      parse_steps (String.length run) q
      = Ret (map (fun x => (1, Some (short x))) (list_ascii_of_string run), q')
      /\ argv q' = argv q
      /\ between_tokens q' = true
      /\ argsep q' = false.
Proof.
  induction run as [|x r IH]; intros q SO LA Sep.
  - exists q. repeat split; auto.
    unfold between_tokens. rewrite SO, LA. reflexivity.
  - cbn [String.length parse_steps]. rewrite (next_in_run q x r LA SO).
    destruct (shortopt_step q x r Sep) as (q1 & E & _ & L1 & S1 & A1 & LA1 & Sep1).
    rewrite E. cbn [bind snd fst].
    destruct (IH q1 S1) as (q' & E' & A' & B' & Sep'); [congruence | exact Sep1|].
    rewrite E'. cbn [bind snd fst]. exists q'.
    rewrite L1. repeat split; auto. congruence.
Qed.

Lemma next_short_token (p : argparser) (c : ascii) (run : string) (rest : list string) :
  between_tokens p = true ->
  argsep p = false ->
  argv p = String "-" (String c run) :: rest ->
  Ascii.eqb c "-" = false ->
  Ascii.eqb c CStr.NUL = false ->
  argparser_next p
  = argparser_shortopt (with_last (with_argv p rest)
                          (Some (String "-" (String c run))))
      (String c run).
Proof.
  intros B Sep A Dash Nul. unfold argparser_next. rewrite A.
  unfold between_tokens in B.
  destruct (shortopt p) eqn:SO; [discriminate|].
  destruct (last_arg p) eqn:LA; [discriminate|].
  cbn [argparser_next_from]. rewrite LA, SO.
  cbn [argsep with_last with_argv deref advance]. rewrite Sep, Nul, Dash.
  reflexivity.
Qed.

(** X13: a token made of a dash and letters is a run of short options: as
    many parse steps as it has letters return them one by one, in order,
    and leave the parser before the next token. *)
Theorem short_run_in_order (p : argparser) (c : ascii) (run : string)
  (rest : list string) :
  between_tokens p = true ->
  argsep p = false ->
  argv p = String "-" (String c run) :: rest ->
  Ascii.eqb c "-" = false ->
  Ascii.eqb c CStr.NUL = false ->
  exists p',
    parse_steps (S (String.length run)) p
    = Ret (map (fun x => (1, Some (short x))) (c :: list_ascii_of_string run), p')
    /\ argv p' = rest
    /\ between_tokens p' = true
    /\ argsep p' = false.
Proof.
  intros B Sep A Dash Nul.
  cbn [parse_steps]. rewrite (next_short_token p c run rest B Sep A Dash Nul).
  set (p1 := with_last (with_argv p rest) (Some (String "-" (String c run)))).
  assert (LA1 : last_arg p1 = None).
  { unfold between_tokens in B. simpl.
    destruct (shortopt p); [discriminate|]. destruct (last_arg p); [discriminate|].
    reflexivity. }
  destruct (shortopt_step p1 c run Sep) as (q & E & _ & L & S & Aq & LAq & Sepq).
  rewrite E. cbn [bind snd fst].
  destruct (run_steps run q S) as (q' & E' & A' & B' & Sep'); [congruence | exact Sepq|].
  rewrite E'. cbn [bind snd fst map]. exists q'. rewrite L.
  repeat split; auto. rewrite A', Aq. reflexivity.
Qed.

Lemma short_run_in_order_witness :
  exists p',
    parse_steps (S (String.length "Lx")) (mkParser ["-rLx"; "/srv"] None None None false)
    = Ret (map (fun x => (1, Some (short x)))
             ("r"%char :: list_ascii_of_string "Lx"), p')
    /\ argv p' = ["/srv"]
    /\ between_tokens p' = true
    /\ argsep p' = false.
Proof.
  apply (short_run_in_order (mkParser ["-rLx"; "/srv"] None None None false)
           "r"%char "Lx" ["/srv"]); reflexivity.
Defined.

Lemma next_long_token (p : argparser) (x : ascii) (more : string) (rest : list string)
  (tail : string) :
  between_tokens p = true ->
  argsep p = false ->
  argv p = (String "-" (String "-" (String x more)) ++ tail) :: rest ->
  Ascii.eqb x CStr.NUL = false ->
  argparser_next p
  = match split_eq (String "-" (String "-" (String x more)) ++ tail) with
    | Some (name, value) =>
        Ret (1, with_last_arg
                  (with_last (with_last (with_argv p rest)
                     (Some (String "-" (String "-" (String x more)) ++ tail)))
                     (Some name)) (Some value))
    | None =>
        Ret (1, with_last_arg
                  (with_last (with_argv p rest)
                     (Some (String "-" (String "-" (String x more)) ++ tail))) None)
    end.
Proof.
  intros B Sep A Nul. unfold argparser_next. rewrite A.
  unfold between_tokens in B.
  destruct (shortopt p) eqn:SO; [discriminate|].
  destruct (last_arg p) eqn:LA; [discriminate|].
  cbn [argparser_next_from]. rewrite LA, SO.
  cbn [argsep with_last with_argv deref advance append]. rewrite Sep, Nul.
  reflexivity.
Qed.

Ltac norm :=
  unfold with_shortopt, with_last, with_argv, with_last_arg, with_argsep,
    shortbuf_string, short;
  cbn [argv shortopt last last_arg argsep shown];
  repeat match goal with
         | H : shortopt _ = None |- _ => rewrite H
         | H : last_arg _ = None |- _ => rewrite H
         | H : argsep _ = false |- _ => rewrite H
         end;
  cbn [argv shortopt last last_arg argsep shown];
  reflexivity.

(** X14: the value of an option is the same whether it is attached or the
    next token: [-cVALUE] and [-c VALUE] give the value and the same parser
    afterwards, and so do [--name=VALUE] and [--name VALUE]; with nothing
    attached and no token left the process ends, naming the option. *)
Theorem value_forms_agree (p : argparser) (c x : ascii) (more value : string)
  (rest : list string) :
  between_tokens p = true ->
  argsep p = false ->
  Ascii.eqb c "-" = false ->
  Ascii.eqb c CStr.NUL = false ->
  Ascii.eqb x CStr.NUL = false ->
  occurs "=" (String x more) = false ->
  value <> "" ->
  let name := String "-" (String "-" (String x more)) in
  let after (opt : string) := mkParser rest None (Some opt) None false in
  next_with_value (with_argv p (String "-" (String c value) :: rest))
  = Ret (value, after (short c))
  /\ next_with_value (with_argv p (short c :: value :: rest))
     = Ret (value, after (short c))
  /\ next_with_value (with_argv p ((name ++ "=" ++ value) :: rest))
     = Ret (value, after name)
  /\ next_with_value (with_argv p (name :: value :: rest))
     = Ret (value, after name)
  /\ next_with_value (with_argv p [short c])
     = Die ("Option '" ++ short c ++ "' requires an argument." ++ nl)
  /\ next_with_value (with_argv p [name])
     = Die ("Option '" ++ name ++ "' requires an argument." ++ nl).
Proof.
  intros B Sep Dash Nul NulX NoEq NotEmpty name after.
  assert (Parts : shortopt p = None /\ last_arg p = None).
  { unfold between_tokens in B.
    destruct (shortopt p); [discriminate|]. destruct (last_arg p); [discriminate|].
    split; reflexivity. }
  destruct Parts as [SO LA].
  assert (Bw : forall av, between_tokens (with_argv p av) = true).
  { intros av. unfold between_tokens. simpl. rewrite SO, LA. reflexivity. }
  assert (NoEqName : occurs "=" name = false).
  { subst name. cbn [occurs]. cbn [occurs] in NoEq. exact NoEq. }
  unfold next_with_value.
  split; [|split; [|split; [|split; [|split]]]].
  - rewrite (next_short_token _ c value rest (Bw _) Sep eq_refl Dash Nul).
    unfold argparser_shortopt. cbn [bind snd].
    destruct value as [|v0 vr]; [congruence|].
    unfold argparser_arg. norm.
  - unfold short at 1.
    rewrite (next_short_token _ c "" (value :: rest) (Bw _) Sep eq_refl Dash Nul).
    unfold argparser_shortopt. cbn [bind snd].
    unfold argparser_arg, argparser_pop. norm.
  - change (name ++ "=" ++ value)
      with (String "-" (String "-" (String x more)) ++ ("=" ++ value)).
    rewrite (next_long_token _ x more rest ("=" ++ value) (Bw _) Sep eq_refl NulX).
    change (String "-" (String "-" (String x more)) ++ ("=" ++ value))
      with (name ++ "=" ++ value).
    rewrite (split_eq_first name value NoEqName). cbn [bind snd].
    unfold argparser_arg. norm.
  - replace name with (String "-" (String "-" (String x more)) ++ "") at 1
      by (subst name; cbn [append]; rewrite append_empty; reflexivity).
    rewrite (next_long_token _ x more (value :: rest) "" (Bw _) Sep eq_refl NulX).
    replace (String "-" (String "-" (String x more)) ++ "") with name
      by (subst name; cbn [append]; rewrite append_empty; reflexivity).
    rewrite (split_eq_none name NoEqName). cbn [bind snd].
    unfold argparser_arg, argparser_pop. norm.
  - unfold short at 1.
    rewrite (next_short_token _ c "" [] (Bw _) Sep eq_refl Dash Nul).
    unfold argparser_shortopt. cbn [bind snd].
    unfold argparser_arg, argparser_pop. norm.
  - replace name with (String "-" (String "-" (String x more)) ++ "") at 1
      by (subst name; cbn [append]; rewrite append_empty; reflexivity).
    rewrite (next_long_token _ x more [] "" (Bw _) Sep eq_refl NulX).
    replace (String "-" (String "-" (String x more)) ++ "") with name
      by (subst name; cbn [append]; rewrite append_empty; reflexivity).
    rewrite (split_eq_none name NoEqName). cbn [bind snd].
    unfold argparser_arg, argparser_pop. norm.
Qed.

Lemma value_forms_agree_witness :
  next_with_value (mkParser ["-ofile.json"; "/srv"] None None None false)
  = Ret ("file.json", mkParser ["/srv"] None (Some "-o") None false)
  /\ next_with_value (mkParser ["--color=dark"; "/srv"] None None None false)
     = Ret ("dark", mkParser ["/srv"] None (Some "--color") None false).
Proof.
  destruct (value_forms_agree (mkParser [] None None None false)
              "o"%char "c"%char "olor" "file.json" ["/srv"]
              eq_refl eq_refl eq_refl eq_refl eq_refl eq_refl
              ltac:(discriminate)) as (A & _).
  destruct (value_forms_agree (mkParser [] None None None false)
              "o"%char "c"%char "olor" "dark" ["/srv"]
              eq_refl eq_refl eq_refl eq_refl eq_refl eq_refl
              ltac:(discriminate)) as (_ & _ & C & _).
  split; [exact A | exact C].
Defined.

Lemma tokens_left_length (av : list string) : (length av <= tokens_left av)%nat.
Proof.
  induction av as [|a av IH]; simpl; [lia|]. fold (tokens_left av). lia.
Qed.

Lemma last_after (a : string) (av : list string) (d : option string) :
  List.last (map Some (a :: av)) d = List.last (map Some av) (Some a).
Proof.
  revert a d. induction av as [|b av IH]; intros a d; [reflexivity|].
  change (List.last (map Some (a :: b :: av)) d)
    with (List.last (map Some (b :: av)) d).
  rewrite (IH b d).
  change (List.last (map Some (b :: av)) (Some a))
    with (List.last (Some b :: map Some av) (Some a)).
  destruct av; [reflexivity|]. rewrite <- (IH b (Some a)). reflexivity.
Qed.

Lemma last_or_default (post : list string) (d : string) :
  match List.last (map Some post) None with Some a => a | None => d end
  = List.last post d.
Proof.
  induction post as [|a post IH]; [reflexivity|].
  destruct post as [|b post]; [reflexivity|].
  change (List.last (map Some (a :: b :: post)) None)
    with (List.last (map Some (b :: post)) None).
  change (List.last (a :: b :: post) d) with (List.last (b :: post) d).
  exact IH.
Qed.

Section Settings.
Variable exclude_addfile : string -> Z.
Variable strerror_errno : string -> string.
Variable PACKAGE_VERSION : string.
Variables have_statfs have_firmlinks no_color : bool.
Variables dir_export_init dir_import_init : string -> Z.

Local Abbreviation arg_option := (Args.arg_option exclude_addfile strerror_errno).
Local Abbreviation loop_body :=
  (Args.loop_body exclude_addfile strerror_errno PACKAGE_VERSION have_statfs
     have_firmlinks).
Local Abbreviation parse_loop :=
  (Args.parse_loop exclude_addfile strerror_errno PACKAGE_VERSION have_statfs
     have_firmlinks).
Local Abbreviation select_backends :=
  (Args.select_backends strerror_errno have_statfs dir_export_init dir_import_init).
Local Abbreviation argv_parse :=
  (Args.argv_parse exclude_addfile strerror_errno PACKAGE_VERSION have_statfs
     have_firmlinks no_color dir_export_init dir_import_init).

Ltac split_ifs H :=
  repeat match type of H with
         | (if ?c then _ else _) = _ => destruct c
         | match CStr.int_incr ?x with _ => _ end = _ =>
             destruct (CStr.int_incr x) eqn:?
         end.

(** The loop reads its state only through the next parse step. *)
Lemma parse_loop_by_step (fuel : nat) (s : locals) (q : argparser) :
  argparser_next (argparser_state (glob s)) = argparser_next q ->
  parse_loop fuel s
  = parse_loop fuel (mkLocals (with_parser (glob s) q) (export s) (import s)
                       (dir s) (emitted s)).
Proof.
  intros E. destruct fuel as [|fuel]; [reflexivity|].
  cbn [Args.parse_loop glob export import dir emitted].
  cbn [argparser_state with_parser]. rewrite E. reflexivity.
Qed.

(** After the separator every token is a positional argument. *)
Lemma positional_loop (av : list string) :
  forall (fuel : nat) (s : locals),
    argv (argparser_state (glob s)) = av ->
    between_tokens (argparser_state (glob s)) = true ->
    argsep (argparser_state (glob s)) = true ->
    (length av < fuel)%nat ->
    exists s',
      parse_loop fuel s = Some (Ret s')
      /\ var (glob s') = var (glob s)
      /\ exclude_calls (glob s') = exclude_calls (glob s)
      /\ export s' = export s /\ import s' = import s
      /\ dir s' = List.last (map Some av) (dir s)
      /\ emitted s' = (emitted s ++ map (fun a => (2, Some a)) av)%list.
Proof.
  induction av as [|a av IH]; intros fuel s A B Sep Fuel;
    (destruct fuel as [|fuel]; [simpl in Fuel; lia|]);
    unfold between_tokens in B;
    destruct (shortopt (argparser_state (glob s))) eqn:SO; try discriminate;
    destruct (last_arg (argparser_state (glob s))) eqn:LA; try discriminate;
    cbn [Args.parse_loop]; unfold argparser_next; rewrite A;
    cbn [argparser_next_from]; rewrite LA, SO.
  - change (0 >? 0) with false. cbv iota.
    eexists. split; [reflexivity|]. cbn [glob export import dir emitted].
    rewrite app_nil_r. repeat split.
  - cbn [argsep with_last with_argv]. rewrite Sep. cbn [orb].
    change (2 >? 0) with true. cbv iota.
    unfold Args.loop_body. change (2 =? 2)%Z with true. cbv iota.
    cbn [glob export import dir emitted].
    match goal with
    | |- exists s', parse_loop fuel ?s2 = _ /\ _ =>
        destruct (IH fuel s2) as (s' & E & V & X & Ex & Im & D & Em)
    end.
    { reflexivity. }
    { unfold between_tokens. cbn. rewrite SO, LA. reflexivity. }
    { cbn. exact Sep. }
    { simpl in Fuel. lia. }
    exists s'. split; [exact E|].
    cbn [glob export import dir emitted] in V, X, Ex, Im, D, Em.
    repeat split; auto.
    + rewrite D. cbn [argparser_state with_parser last with_last].
      symmetry. apply last_after.
    + rewrite Em. cbn [argparser_state with_parser last with_last].
      rewrite <- app_assoc. reflexivity.
Qed.

(** X15: after the separator nothing is an option: for the arguments [--]
    and any tokens behind it, whatever they look like, [argv_parse] returns
    every token as a positional argument, scans the last of them (or [.]
    when there is none), and leaves every setting at its default. *)
Theorem separator_ends_options (prog : string) (post : list string) :
  Ascii.eqb (deref prog) "-" = false ->
  exists st,
    argv_parse (prog :: "--" :: post) initial_globals = Some (Ret st)
    /\ tokens st = map (fun a => (2, Some a)) post
    /\ input st = dir_scan (List.last post ".")
    /\ output st = dir_mem
    /\ exclude_calls (settings st) = []
    /\ forall x, var (settings st) x
                 = match x with
                   | dir_ui => 2
                   | uic_theme => if no_color then 0 else 2
                   | _ => initial_var x
                   end.
Proof.
  intros Prog. unfold Args.argv_parse.
  rewrite (skip_program_name prog _ Prog).
  set (g1 := assign si 0 (assign dir_ui (-1)
               (assign uic_theme (if no_color then 0 else 2) initial_globals))).
  set (s0 := mkLocals (with_parser g1 (mkParser ("--" :: post) None (Some prog) None false))
               None None None []).
  set (q := mkParser post None (Some "--") None true).
  assert (Step : argparser_next (argparser_state (glob s0)) = argparser_next q).
  { reflexivity. }
  rewrite (parse_loop_by_step _ s0 q Step).
  cbn [glob export import dir emitted s0].
  match goal with
  | |- exists st, match parse_loop ?f ?s1 with _ => _ end = _ /\ _ =>
      destruct (positional_loop post f s1) as (s' & E & V & X & Ex & Im & D & Em)
  end.
  { reflexivity. }
  { reflexivity. }
  { reflexivity. }
  { unfold budget. pose proof (tokens_left_length (prog :: "--" :: post)) as L.
    simpl in L. simpl. lia. }
  rewrite E. cbn [glob export import dir emitted] in V, X, Ex, Im, D, Em.
  unfold Args.select_backends. rewrite V, Ex, Im.
  match goal with
  | |- context [(?a =? 0)%Z] => change (a =? 0)%Z with true
  end.
  rewrite andb_false_r. cbn [bind snd fst]. rewrite V.
  match goal with
  | |- context [(?a =? -1)%Z] => change (a =? -1)%Z with true
  end.
  cbv iota.
  eexists. split; [reflexivity|].
  cbn [tokens input output settings].
  split; [exact Em|]. split.
  { rewrite D. f_equal. apply last_or_default. }
  split; [reflexivity|]. split.
  { cbn [exclude_calls assign]. rewrite X. reflexivity. }
  intros x. cbn [var assign]. rewrite V. destruct x; reflexivity.
Qed.

End Settings.

Lemma separator_ends_options_witness :
  exists st,
    parse_on_linux ["ncdu"; "--"; "--help"; "-x"] = Some (Ret st)
    /\ tokens st = map (fun a => (2, Some a)) ["--help"; "-x"]
    /\ input st = dir_scan (List.last ["--help"; "-x"] ".")
    /\ output st = dir_mem
    /\ exclude_calls (settings st) = []
    /\ forall x, var (settings st) x
                 = match x with
                   | dir_ui => 2
                   | uic_theme => if false then 0 else 2
                   | _ => initial_var x
                   end.
Proof.
  apply (separator_ends_options (fun _ => 0)
           (fun _ => "No such file or directory") "1.17" true false false
           (fun _ => 0) (fun _ => 0) "ncdu" ["--help"; "-x"]).
  reflexivity.
Defined.

(** The values a setting may take. *)
Lemma sane_by_var (g g' : globals) : var g' = var g -> sane g -> sane g'.
Proof. unfold sane. intros ->. tauto. Qed.

Lemma sane_assign (x : setting) (v : Z) (g : globals) :
  sane g -> allowed x v -> sane (assign x v g).
Proof.
  unfold sane, allowed. intros (D & U & C & R & F) A.
  destruct x; cbn [var assign setting_eqb];
    (repeat split; [tauto || lia ..|]);
    intros y Hy; specialize (F y Hy);
    simpl in Hy; decompose [or] Hy; subst; try contradiction;
    cbn [setting_eqb]; tauto || lia.
Qed.

(** The last step of [argv_parse]: the scan interface left at -1 gets its
    default. *)
Lemma finish_settings (g : globals) (d : Z) :
  sane g ->
  allowed dir_ui d /\ d <> -1 ->
  let g' := if (var g dir_ui =? -1)%Z then assign dir_ui d g else g in
  sane g'
  /\ var g' dir_ui <> -1
  /\ forall browse_key help_key delete_key quit_key ncresize tv s sh,
       Sched.update_delay sh = var g' update_delay ->
       Sched.input_handle browse_key help_key delete_key quit_key ncresize
         1 tv s sh <> None.
Proof.
  intros S [A N] g'.
  assert (S' : sane g').
  { subst g'. destruct (var g dir_ui =? -1)%Z; [|exact S].
    apply sane_assign; assumption. }
  split; [exact S'|]. split.
  - subst g'. destruct (Z.eqb_spec (var g dir_ui) (-1)) as [E|E]; [|exact E].
    cbn. exact N.
  - intros bk hk dk qk nr tv s sh U.
    unfold Sched.input_handle. change (negb (1 =? 1)%Z) with false. cbv iota.
    destruct S' as (D & _).
    destruct (Z.eqb_spec (Sched.update_delay sh) 0) as [Z0|_]; [lia|].
    destruct (negb (Sched.lastupdate s =? _)%Z); cbn [fst snd];
      match goal with
      | |- (if ?c then _ else _) <> None => destruct c; discriminate
      end.
Qed.

Section Invariants.
Variable exclude_addfile : string -> Z.
Variable strerror_errno : string -> string.
Variable PACKAGE_VERSION : string.
Variables have_statfs have_firmlinks no_color : bool.
Variables dir_export_init dir_import_init : string -> Z.

Local Abbreviation arg_option := (Args.arg_option exclude_addfile strerror_errno).
Local Abbreviation loop_body :=
  (Args.loop_body exclude_addfile strerror_errno PACKAGE_VERSION have_statfs
     have_firmlinks).
Local Abbreviation parse_loop :=
  (Args.parse_loop exclude_addfile strerror_errno PACKAGE_VERSION have_statfs
     have_firmlinks).
Local Abbreviation select_backends :=
  (Args.select_backends strerror_errno have_statfs dir_export_init dir_import_init).
Local Abbreviation argv_parse :=
  (Args.argv_parse exclude_addfile strerror_errno PACKAGE_VERSION have_statfs
     have_firmlinks no_color dir_export_init dir_import_init).

Ltac split_ifs H :=
  repeat match type of H with
         | (if ?c then _ else _) = _ => destruct c
         | match CStr.int_incr ?x with _ => _ end = _ =>
             destruct (CStr.int_incr x) eqn:?
         end.

Ltac allowed_value := unfold allowed; cbn; first [tauto | lia | split; [tauto | lia]].

Lemma arg_option_sane (g g' : globals) (r : Z) :
  arg_option g = Ret (r, g') -> sane g -> sane g'.
Proof.
  unfold Args.arg_option. intros H S. split_ifs H;
    try discriminate;
    try (match goal with
         | E : CStr.int_incr _ = Some _ |- _ =>
             apply CStrFacts.int_incr_some in E; destruct E as [-> _]
         end);
    try (injection H as _ <-;
         first [ exact S
               | apply sane_assign; [exact S | allowed_value]
               | apply sane_assign; [exact S|];
                 unfold allowed; destruct S as (_ & _ & _ & R & _); lia ]);
    (unfold bind in H;
     destruct (ARG g) as [[v g1]| | |] eqn:E; try discriminate;
     apply ARG_parts in E; destruct E as (V & _ & _);
     pose proof (sane_by_var g g1 V S) as S1;
     cbn [fst snd] in H; split_ifs H;
     try discriminate; injection H as _ <-;
     first [ exact S1
           | apply (sane_by_var g1); [reflexivity | exact S1]
           | apply sane_assign; [exact S1 | allowed_value] ]).
Qed.

Lemma loop_body_sane (r : Z) (s s' : locals) :
  loop_body r s = Ret s' -> sane (glob s) -> sane (glob s').
Proof.
  unfold Args.loop_body. intros H S. split_ifs H; try discriminate.
  - injection H as <-. exact S.
  - unfold bind in H.
    destruct (ARG (glob s)) as [[v g1]| | |] eqn:E; try discriminate.
    injection H as <-. apply ARG_parts in E. destruct E as (V & _ & _).
    apply (sane_by_var _ _ V S).
  - unfold bind in H.
    destruct (ARG (glob s)) as [[v g1]| | |] eqn:E; try discriminate.
    injection H as <-. apply ARG_parts in E. destruct E as (V & _ & _).
    apply (sane_by_var _ _ V S).
  - unfold bind in H.
    destruct (Args.arg_option exclude_addfile strerror_errno (glob s))
      as [[r0 g1]| | |] eqn:E; try discriminate.
    cbn [fst snd] in H. split_ifs H; try discriminate.
    injection H as <-. apply (arg_option_sane _ _ _ E S).
Qed.

Lemma parse_loop_sane (fuel : nat) :
  forall s s' : locals,
    parse_loop fuel s = Some (Ret s') -> sane (glob s) -> sane (glob s').
Proof.
  induction fuel as [|fuel IH]; intros s s' H S; [discriminate|].
  cbn [Args.parse_loop] in H.
  destruct (argparser_next (argparser_state (glob s))) as [[r p]| | |];
    try discriminate.
  destruct (r >? 0).
  - match type of H with
    | match ?b with _ => _ end = _ => destruct b as [s2| | |] eqn:B
    end; try discriminate.
    apply (IH s2 s' H). apply (loop_body_sane _ _ _ B). exact S.
  - injection H as <-. exact S.
Qed.

(** X16: whatever the arguments, settings that [argv_parse] returns are
    among the values the program knows: the refresh interval is 100 or
    2000, the scan interface is 0, 1 or 2 (never the -1 it starts from), the
    colour theme is 0, 1 or 2, the read-only level is not negative and each
    switch is 0 or 1.  So a throttled tick with that refresh interval never
    divides by zero. *)
Theorem parsed_settings_are_sane (args : list string) (st : startup) :
  argv_parse args initial_globals = Some (Ret st) ->
  sane (settings st)
  /\ var (settings st) dir_ui <> -1
  /\ forall browse_key help_key delete_key quit_key ncresize tv s sh,
       Sched.update_delay sh = var (settings st) update_delay ->
       Sched.input_handle browse_key help_key delete_key quit_key ncresize
         1 tv s sh <> None.
Proof.
  unfold Args.argv_parse. intros H.
  destruct (argparser_next (mkParser args None None None false))
    as [[r p]| | |]; try discriminate.
  match type of H with
  | match parse_loop ?f ?s0 with _ => _ end = _ =>
      destruct (parse_loop f s0) as [[s| | |]|] eqn:L; try discriminate;
      assert (S : sane (glob s))
  end.
  { apply (parse_loop_sane _ _ _ L). cbn [glob].
    apply (sane_by_var (assign si 0 (assign dir_ui (-1)
             (assign uic_theme (if no_color then 0 else 2) initial_globals))));
      [reflexivity|].
    repeat apply sane_assign; try allowed_value.
    - unfold sane. cbn. repeat split; try tauto; try lia.
      intros x Hx. simpl in Hx. decompose [or] Hx; subst; try contradiction;
        cbn; tauto.
    - unfold allowed. destruct no_color; tauto. }
  injection H as H. unfold Args.select_backends in H.
  destruct (negb have_statfs && negb (var (glob s) exclude_kernfs =? 0)%Z);
    [discriminate|].
  unfold bind in H.
  destruct (export s) as [e|].
  - destruct (negb (dir_export_init e =? 0)%Z); [discriminate|].
    cbn [fst snd] in H.
    set (g2 := if String.eqb e "-" then assign ncurses_tty 1 (glob s) else glob s) in H.
    assert (S2 : sane g2).
    { subst g2. destruct (String.eqb e "-"); [|exact S].
      apply sane_assign; [exact S | allowed_value]. }
    destruct (import s) as [i|].
    + destruct (negb (dir_import_init i =? 0)%Z); [discriminate|].
      cbn [fst snd] in H.
      set (g3 := if String.eqb i "-" then assign ncurses_tty 1 g2 else g2) in H.
      assert (S3 : sane g3).
      { subst g3. destruct (String.eqb i "-"); [|exact S2].
        apply sane_assign; [exact S2 | allowed_value]. }
      injection H as <-. cbn [settings].
      apply finish_settings; [exact S3|].
      destruct (String.eqb e "-"); allowed_value.
    + cbn [fst snd] in H. injection H as <-. cbn [settings].
      apply finish_settings; [exact S2|].
      destruct (String.eqb e "-"); allowed_value.
  - cbn [fst snd] in H.
    destruct (import s) as [i|].
    + destruct (negb (dir_import_init i =? 0)%Z); [discriminate|].
      cbn [fst snd] in H.
      set (g3 := if String.eqb i "-" then assign ncurses_tty 1 (glob s) else glob s) in H.
      assert (S3 : sane g3).
      { subst g3. destruct (String.eqb i "-"); [|exact S].
        apply sane_assign; [exact S | allowed_value]. }
      injection H as <-. cbn [settings].
      apply finish_settings; [exact S3 | allowed_value].
    + cbn [fst snd] in H. injection H as <-. cbn [settings].
      apply finish_settings; [exact S | allowed_value].
Qed.

End Invariants.

Lemma parsed_settings_are_sane_witness :
  exists st,
    parse_on_linux ["ncdu"; "-q"; "-1"; "--color"; "dark"] = Some (Ret st)
    /\ sane (settings st)
    /\ var (settings st) dir_ui <> -1.
Proof.
  destruct (parse_on_linux ["ncdu"; "-q"; "-1"; "--color"; "dark"])
    as [[st| | |]|] eqn:E; try (vm_compute in E; discriminate).
  exists st. split; [reflexivity|].
  destruct (parsed_settings_are_sane (fun _ => 0)
              (fun _ => "No such file or directory") "1.17" true false false
              (fun _ => 0) (fun _ => 0) _ st E) as (S & D & _).
  split; assumption.
Defined.

Section Counting.
Variable exclude_addfile : string -> Z.
Variable strerror_errno : string -> string.
Variable PACKAGE_VERSION : string.
Variables have_statfs have_firmlinks no_color : bool.
Variables dir_export_init dir_import_init : string -> Z.

Local Abbreviation parse_loop :=
  (Args.parse_loop exclude_addfile strerror_errno PACKAGE_VERSION have_statfs
     have_firmlinks).
Local Abbreviation argv_parse :=
  (Args.argv_parse exclude_addfile strerror_errno PACKAGE_VERSION have_statfs
     have_firmlinks no_color dir_export_init dir_import_init).

Lemma read_only_loop (n : nat) :
  forall (fuel : nat) (s : locals),
    argv (argparser_state (glob s)) = repeat "-r" n ->
    between_tokens (argparser_state (glob s)) = true ->
    argsep (argparser_state (glob s)) = false ->
    (n < fuel)%nat ->
    - CStr.INT_MAX - 2 <= var (glob s) read_only ->
    var (glob s) read_only + Z.of_nat n <= CStr.INT_MAX ->
    exists s',
      parse_loop fuel s = Some (Ret s')
      /\ var (glob s') read_only = var (glob s) read_only + Z.of_nat n
      /\ (forall x, x <> read_only -> var (glob s') x = var (glob s) x)
      /\ exclude_calls (glob s') = exclude_calls (glob s)
      /\ export s' = export s /\ import s' = import s /\ dir s' = dir s.
Proof.
  induction n as [|n IH]; intros fuel s A B Sep Fuel Lo Hi;
    (destruct fuel as [|fuel]; [lia|]); cbn [Args.parse_loop].
  - unfold between_tokens in B.
    destruct (shortopt (argparser_state (glob s))) eqn:SO; try discriminate.
    destruct (last_arg (argparser_state (glob s))) eqn:LA; try discriminate.
    unfold argparser_next. rewrite A. cbn [repeat argparser_next_from].
    rewrite LA, SO. change (0 >? 0) with false. cbv iota.
    eexists. split; [reflexivity|].
    cbn [glob export import dir var with_parser exclude_calls Z.of_nat].
    repeat split. lia.
  - cbn [repeat] in A.
    rewrite (next_short_token _ "r" "" (repeat "-r" n) B Sep A eq_refl eq_refl).
    cbn [argparser_shortopt]. cbn [argsep with_last with_argv with_shortopt].
    rewrite Sep. change (1 >? 0) with true. cbv iota.
    unfold Args.loop_body, Args.arg_option, OPT.
    cbn [glob argparser_state with_parser last with_last shown shortbuf_string
         String.eqb Ascii.eqb Bool.eqb orb export import dir emitted fst snd bind
         Z.eqb Pos.eqb var].
    rewrite (CStrFacts.int_incr_small (var (glob s) read_only)) by lia.
    cbn [fst snd bind Z.eqb Pos.eqb].
    match goal with
    | |- exists s', parse_loop fuel ?s2 = _ /\ _ =>
        destruct (IH fuel s2) as (s' & E & R & V & X & Ex & Im & D)
    end.
    { reflexivity. }
    { unfold between_tokens in *. cbn.
      destruct (shortopt (argparser_state (glob s))); [discriminate|].
      destruct (last_arg (argparser_state (glob s))); [discriminate|].
      reflexivity. }
    { cbn. exact Sep. }
    { lia. }
    { cbn [glob var assign setting_eqb]. lia. }
    { cbn [glob var assign setting_eqb]. lia. }
    exists s'. split; [exact E|].
    cbn [glob export import dir var assign setting_eqb] in R, V, X, Ex, Im, D.
    repeat split; auto.
    + rewrite R. cbn [var with_parser]. lia.
    + intros x Hx. rewrite (V x Hx). destruct x; try reflexivity. congruence.
Qed.

(** X17: [-r] counts: given [n] times ([n] within the range of [int], as
    the argument count is), the read-only level that [argv_parse] returns
    is [n], and nothing else differs from a start without options. *)
Theorem read_only_counts (prog : string) (n : nat) :
  Ascii.eqb (deref prog) "-" = false ->
  Z.of_nat n <= CStr.INT_MAX ->
  exists st,
    argv_parse (prog :: repeat "-r" n) initial_globals = Some (Ret st)
    /\ var (settings st) read_only = Z.of_nat n
    /\ input st = dir_scan "."
    /\ output st = dir_mem
    /\ forall x, x <> read_only ->
                 var (settings st) x
                 = match x with
                   | dir_ui => 2
                   | uic_theme => if no_color then 0 else 2
                   | _ => initial_var x
                   end.
Proof.
  intros Prog Range. unfold Args.argv_parse.
  rewrite (skip_program_name prog _ Prog).
  match goal with
  | |- exists st, match parse_loop ?f ?s1 with _ => _ end = _ /\ _ =>
      destruct (read_only_loop n f s1) as (s' & E & R & V & X & Ex & Im & D)
  end.
  { reflexivity. }
  { reflexivity. }
  { reflexivity. }
  { unfold budget. pose proof (tokens_left_length (prog :: repeat "-r" n)) as L.
    cbn [length] in L. rewrite repeat_length in L. lia. }
  { vm_compute. discriminate. }
  { cbn [glob var with_parser assign setting_eqb initial_globals initial_var].
    lia. }
  rewrite E. cbn [glob export import dir emitted] in R, V, X, Ex, Im, D.
  unfold Args.select_backends. rewrite Ex, Im, D.
  rewrite (V exclude_kernfs) by discriminate.
  match goal with
  | |- context [(?a =? 0)%Z] => change (a =? 0)%Z with true
  end.
  rewrite andb_false_r. cbn [bind snd fst].
  rewrite (V dir_ui) by discriminate.
  match goal with
  | |- context [(?a =? -1)%Z] => change (a =? -1)%Z with true
  end.
  cbv iota.
  eexists. split; [reflexivity|].
  cbn [input output settings].
  split; [cbn [var assign setting_eqb]; rewrite R; cbn; lia|].
  split; [reflexivity|]. split; [reflexivity|].
  intros x Hx. cbn [var assign].
  destruct x; cbn [setting_eqb]; try reflexivity;
    try (rewrite V by discriminate; reflexivity).
  congruence.
Qed.

End Counting.

Lemma read_only_counts_witness :
  exists st,
    parse_on_linux ("ncdu" :: repeat "-r" 2) = Some (Ret st)
    /\ var (settings st) read_only = Z.of_nat 2
    /\ input st = dir_scan "."
    /\ output st = dir_mem
    /\ forall x, x <> read_only ->
                 var (settings st) x
                 = match x with
                   | dir_ui => 2
                   | uic_theme => if false then 0 else 2
                   | _ => initial_var x
                   end.
Proof.
  apply (read_only_counts (fun _ => 0)
           (fun _ => "No such file or directory") "1.17" true false false
           (fun _ => 0) (fun _ => 0) "ncdu" 2).
  - reflexivity.
  - vm_compute. discriminate.
Defined.

End ArgsMore.

(** ** More on the scheduler *)
Module SchedMore.
Import Sched SchedSpec.
Local Open Scope Z_scope.

(** X22: for a time of day as [gettimeofday] reports it and a refresh
    interval above 0, the bucket is the count of whole intervals among the
    milliseconds since the start of the cycle of 1000 seconds: it lies
    between 0 and 999999 over the interval, does not go down while the time
    goes on within a second, and is the same one cycle later. *)
Theorem bucket_range_and_period (delay : Z) (tv : timeval) :
  0 < delay ->
  0 <= tv_sec tv ->
  0 <= tv_usec tv < 1000000 ->
  bucket delay tv = (1000 * (tv_sec tv mod 1000) + tv_usec tv / 1000) / delay
  /\ 0 <= bucket delay tv <= 999999 / delay
  /\ bucket delay (mkTimeval (tv_sec tv + 1000) (tv_usec tv)) = bucket delay tv
  /\ (forall later, tv_usec tv <= later < 1000000 ->
        bucket delay tv <= bucket delay (mkTimeval (tv_sec tv) later)).
Proof.
  intros D S U.
  assert (Form : forall sec usec, 0 <= sec -> 0 <= usec < 1000000 ->
            bucket delay (mkTimeval sec usec)
            = (1000 * (sec mod 1000) + usec / 1000) / delay
            /\ 0 <= 1000 * (sec mod 1000) + usec / 1000 <= 999999).
  { intros sec usec Hs Hu. unfold bucket. cbn [tv_sec tv_usec].
    rewrite (Z.rem_mod_nonneg sec 1000) by lia.
    rewrite (Z.quot_div_nonneg usec 1000) by lia.
    pose proof (Z.mod_pos_bound sec 1000 ltac:(lia)) as M.
    assert (Q : 0 <= usec / 1000 <= 999).
    { split; [apply Z.div_pos; lia|].
      apply Z.lt_succ_r. apply Z.div_lt_upper_bound; lia. }
    rewrite Z.quot_div_nonneg by lia. split; [reflexivity | lia]. }
  destruct tv as [sec usec]. cbn [tv_sec tv_usec] in *.
  destruct (Form sec usec S U) as [E R].
  split; [exact E|]. split; [|split].
  - rewrite E. split; [apply Z.div_pos; lia|].
    apply Z.div_le_mono; lia.
  - destruct (Form (sec + 1000) usec ltac:(lia) U) as [E' _].
    rewrite E', E.
    replace (sec + 1000) with (sec + 1 * 1000) by lia.
    rewrite Z.mod_add by lia. reflexivity.
  - intros later L.
    destruct (Form sec later S ltac:(lia)) as [E' _].
    rewrite E', E. apply Z.div_le_mono; [lia|].
    assert (usec / 1000 <= later / 1000) by (apply Z.div_le_mono; lia).
    lia.
Qed.

Lemma bucket_range_and_period_witness :
  bucket 100 (mkTimeval 1099 900000)
  = (1000 * (1099 mod 1000) + 900000 / 1000) / 100
  /\ 0 <= bucket 100 (mkTimeval 1099 900000) <= 999999 / 100
  /\ bucket 100 (mkTimeval (1099 + 1000) 900000) = bucket 100 (mkTimeval 1099 900000)
  /\ (forall later, 900000 <= later < 1000000 ->
        bucket 100 (mkTimeval 1099 900000) <= bucket 100 (mkTimeval 1099 later)).
Proof.
  apply (bucket_range_and_period 100 (mkTimeval 1099 900000)); simpl; lia.
Defined.

Section Collaborators.
Variables browse_key help_key delete_key quit_key : Z -> shared -> Z * shared.
Variable ncresize : Z -> Z -> shared -> Z.

Local Abbreviation drain :=
  (Sched.drain browse_key help_key delete_key quit_key ncresize).
Local Abbreviation input_handle :=
  (Sched.input_handle browse_key help_key delete_key quit_key ncresize).

(** Resize notifications at the head of the input: each is answered by a
    frame, and the rest is drained in the same mode. *)
Lemma drain_resizes (wait : Z) (k : nat) (keys : list Z) :
  forall (s : statics) (sh : shared) (out : list frame),
    exists s1 sh1 more,
      drain wait (repeat KEY_RESIZE k ++ keys) s sh out
      = drain wait keys s1 sh1 (out ++ more)
      /\ length more = k
      /\ Forall (fun f => site f = Resized) more
      /\ pstate sh1 = pstate sh /\ dir sh1 = dir sh
      /\ errno_left sh1 = errno_left sh /\ update_delay sh1 = update_delay sh
      /\ lastupdate s1 = lastupdate s /\ ncurses_init s1 = ncurses_init s
      /\ same_or_collapsed s s1.
Proof.
  induction k as [|k IH]; intros s sh out.
  - exists s, sh, []. rewrite app_nil_r.
    repeat split; auto. left. split; reflexivity.
  - cbn [repeat app Sched.drain].
    change (KEY_RESIZE =? ERR) with false. rewrite Z.eqb_refl. cbv iota.
    match goal with
    | |- exists s1 sh1 more, Sched.drain _ _ _ _ _ _ _ ?s0 ?sh0 ?out0 = _ /\ _ =>
        destruct (IH s0 sh0 out0)
          as (s1 & sh1 & more & E & L & F & P & D & Er & U & Lu & Ni & M)
    end.
    exists s1, sh1.
    eexists. split; [rewrite E, <- app_assoc; reflexivity|].
    split; [simpl; rewrite L; reflexivity|].
    split; [constructor; [reflexivity | exact F]|].
    cbn [pstate dir errno_left update_delay with_nodelay with_pending] in P, D, Er, U.
    repeat split; auto.
    + rewrite Lu. destruct (negb _); reflexivity.
    + rewrite Ni. destruct (negb _); reflexivity.
    + unfold same_or_collapsed in *.
      destruct (negb (ncresize (min_rows s) (min_cols s) (with_pending sh (repeat KEY_RESIZE k ++ keys)) =? 0));
        cbn [min_rows min_cols with_min] in M; tauto.
Qed.

(** A tick that gets as far as reading input. *)
Lemma tick_reads (wait : Z) (tv : timeval) (s : statics) (sh : shared) :
  ncurses_init s = true ->
  (wait = 1 -> update_delay sh <> 0) ->
  exists s0 first,
    input_handle wait tv s sh
    = Some (drain wait (pending sh) s0 (with_nodelay sh (negb (wait =? 0))) first)
    /\ ncurses_init s0 = true
    /\ min_rows s0 = min_rows s /\ min_cols s0 = min_cols s
    /\ (wait <> 1 -> s0 = s /\ first = [screen_draw Unconditional sh])
    /\ (length first <= 1)%nat.
Proof.
  intros NI D. unfold Sched.input_handle.
  destruct (Z.eqb_spec wait 1) as [W|W]; cbn [negb].
  - destruct (Z.eqb_spec (update_delay sh) 0) as [Z0|_]; [exfalso; exact (D W Z0)|].
    destruct (negb (lastupdate s =? bucket (update_delay sh) tv));
      cbn [fst snd ncurses_init with_lastupdate]; rewrite NI; cbn [negb];
      eexists; eexists; (split; [reflexivity|]);
      repeat split; auto; try contradiction; simpl; lia.
  - cbn [fst snd]. rewrite NI. cbn [negb].
    eexists; eexists. split; [reflexivity|]. repeat split; auto.
Qed.

(** X18: while the scan shows a fatal error, the first key the terminal
    delivers ends the tick with 1 whatever the key is; without a fatal error
    only [q] does, and any other key ends the tick with 0.  Resize
    notifications before the key are answered first, and the keys behind
    it stay pending. *)
Theorem scan_key_ends_tick (wait : Z) (tv : timeval) (s : statics) (sh : shared)
  (k : nat) (ch : Z) (rest : list Z) :
  ncurses_init s = true ->
  (wait = 1 -> update_delay sh <> 0) ->
  pstate sh = ST_CALC ->
  pending sh = repeat KEY_RESIZE k ++ ch :: rest ->
  ch <> ERR -> ch <> KEY_RESIZE ->
  exists s' sh' fs,
    input_handle wait tv s sh
    = Some (match Tracker.dir_fatalerr (dir sh) with
            | Some _ => 1
            | None => if ch =? 113 then 1 else 0
            end, (s', sh'), fs)
    /\ pending sh' = rest
    /\ dir sh' = dir sh
    /\ pstate sh' = ST_CALC.
Proof.
  intros NI D P Pend NE NR.
  destruct (tick_reads wait tv s sh NI D) as (s0 & first & E & _).
  rewrite E. cbn [pending with_nodelay]. rewrite Pend.
  destruct (drain_resizes wait k (ch :: rest) s0 (with_nodelay sh (negb (wait =? 0))) first)
    as (s1 & sh1 & more & E1 & _ & _ & P1 & D1 & _).
  rewrite E1. cbn [Sched.drain].
  destruct (Z.eqb_spec ch ERR) as [?|_]; [contradiction|].
  destruct (Z.eqb_spec ch KEY_RESIZE) as [?|_]; [contradiction|].
  cbn [pstate with_pending]. rewrite P1. cbn [pstate with_nodelay]. rewrite P.
  eexists; eexists; eexists. split.
  - unfold Tracker.dir_key. cbn [dir with_pending]. rewrite D1.
    cbn [dir with_nodelay]. reflexivity.
  - cbn [pending dir pstate with_pending]. rewrite D1, P1.
    cbn [dir pstate with_nodelay]. auto.
Qed.

(** X19: when the terminal has nothing but resize notifications to deliver,
    the tick answers each with one frame, and its result tells whether the
    terminal is gone: 1 when the failing read left [EPIPE], [EBADF] or
    [EIO], and 0 otherwise. *)
Theorem tick_without_keys (wait : Z) (tv : timeval) (s : statics) (sh : shared)
  (k : nat) :
  ncurses_init s = true ->
  (wait = 1 -> update_delay sh <> 0) ->
  pending sh = repeat KEY_RESIZE k ->
  exists s' sh' first more,
    input_handle wait tv s sh
    = Some (if (errno_left sh =? EPIPE) || (errno_left sh =? EBADF)
               || (errno_left sh =? EIO) then 1 else 0,
            (s', sh'), first ++ more)
    /\ pending sh' = []
    /\ (length first <= 1)%nat
    /\ length more = k
    /\ Forall (fun f => site f = Resized) more
    /\ same_or_collapsed s s'.
Proof.
  intros NI D Pend.
  destruct (tick_reads wait tv s sh NI D) as (s0 & first & E & _ & R0 & C0 & _ & L).
  rewrite E. cbn [pending with_nodelay]. rewrite Pend.
  rewrite <- (app_nil_r (repeat KEY_RESIZE k)).
  destruct (drain_resizes wait k [] s0 (with_nodelay sh (negb (wait =? 0))) first)
    as (s1 & sh1 & more & E1 & Lm & F & _ & _ & Er & _ & _ & _ & M).
  rewrite E1. cbn [Sched.drain]. rewrite Er. cbn [errno_left with_nodelay].
  exists s1, (with_pending sh1 []), first, more.
  split; [reflexivity|]. repeat split; auto.
  unfold same_or_collapsed in *. rewrite R0, C0 in M. exact M.
Qed.

Lemma drain_min (wait : Z) (keys : list Z) :
  forall (s : statics) (sh : shared) (out : list frame)
         (r : Z) (s' : statics) (sh' : shared) (fs : list frame),
    drain wait keys s sh out = (r, (s', sh'), fs) ->
    same_or_collapsed s s'
    /\ (min_rows s = 0 /\ min_cols s = 0 -> min_rows s' = 0 /\ min_cols s' = 0).
Proof.
  unfold same_or_collapsed.
  induction keys as [|ch rest IH]; intros s sh out r s' sh' fs H.
  - cbn in H. injection H as _ <- _ _. tauto.
  - cbn [Sched.drain] in H.
    assert (Done : forall (x : Z * (statics * shared) * list frame),
              x = (r, (s', sh'), fs) -> fst (snd (fst x)) = s ->
              ((min_rows s' = min_rows s /\ min_cols s' = min_cols s)
               \/ (min_rows s' = 0 /\ min_cols s' = 0))
              /\ (min_rows s = 0 /\ min_cols s = 0 ->
                  min_rows s' = 0 /\ min_cols s' = 0)).
    { intros x -> <-. simpl. tauto. }
    destruct (ch =? ERR); [apply (Done _ H); reflexivity|].
    destruct (ch =? KEY_RESIZE).
    + apply IH in H.
      destruct (negb (ncresize (min_rows s) (min_cols s) (with_pending sh rest) =? 0));
        cbn [min_rows min_cols with_min] in H; tauto.
    + cbn [pstate with_pending] in H.
      destruct (pstate sh); try (apply (Done _ H); reflexivity).
      apply IH in H. exact H.
Qed.

(** X20: a tick leaves the minimum sizes of the window as they are or sets
    both to 0, and sizes that are 0 stay 0; they are 0 after a tick that
    reads a resize notification first while the size renegotiation fails. *)
Theorem resize_failure_collapses_minimum (wait : Z) (tv : timeval)
  (s s' : statics) (sh sh' : shared) (r : Z) (fs : list frame) :
  input_handle wait tv s sh = Some (r, (s', sh'), fs) ->
  same_or_collapsed s s'
  /\ (min_rows s = 0 /\ min_cols s = 0 -> min_rows s' = 0 /\ min_cols s' = 0)
  /\ (ncurses_init s = true ->
      (exists rest, pending sh = KEY_RESIZE :: rest) ->
      (forall x, ncresize (min_rows s) (min_cols s) x <> 0) ->
      min_rows s' = 0 /\ min_cols s' = 0).
Proof.
  intros H.
  assert (Start : exists s0 first,
            (ncurses_init s = false /\ s' = s0
             \/ ncurses_init s = true
                /\ drain wait (pending sh) s0 (with_nodelay sh (negb (wait =? 0))) first
                   = (r, (s', sh'), fs))
            /\ min_rows s0 = min_rows s /\ min_cols s0 = min_cols s).
  { unfold Sched.input_handle in H.
    destruct (negb (wait =? 1)).
    - cbn [fst snd] in H. destruct (ncurses_init s) eqn:NI; cbn [negb] in H.
      + injection H as H. exists s, [screen_draw Unconditional sh]. auto.
      + injection H as _ <- _ _. exists s, []. auto.
    - destruct (update_delay sh =? 0); [discriminate|].
      destruct (negb (lastupdate s =? bucket (update_delay sh) tv));
        cbn [fst snd ncurses_init with_lastupdate] in H;
        (destruct (ncurses_init s) eqn:NI; cbn [negb] in H;
         [injection H as H; eexists; eexists; split; [right; split; [reflexivity | exact H]|];
          split; reflexivity
         |injection H as _ <- _ _; eexists; exists []; split; [left; split; reflexivity|];
          split; reflexivity]). }
  destruct Start as (s0 & first & Run & R0 & C0).
  unfold same_or_collapsed.
  destruct Run as [[NI ->] | [NI Dr]].
  - rewrite R0, C0. split; [tauto|]. split; [tauto|]. intros T. congruence.
  - destruct (drain_min _ _ _ _ _ _ _ _ _ Dr) as [M Z0].
    unfold same_or_collapsed in M. rewrite R0, C0 in M, Z0.
    split; [exact M|]. split; [exact Z0|].
    intros _ (rest & Pend) Fail.
    cbn [pending with_nodelay] in Dr. rewrite Pend in Dr.
    cbn [Sched.drain] in Dr.
    change (KEY_RESIZE =? ERR) with false in Dr. rewrite Z.eqb_refl in Dr.
    cbv iota in Dr. rewrite R0, C0 in Dr.
    destruct (Z.eqb_spec (ncresize (min_rows s) (min_cols s)
                            (with_pending (with_nodelay sh (negb (wait =? 0))) rest)) 0)
      as [E|_]; [exfalso; exact (Fail _ E)|].
    cbn [negb] in Dr.
    destruct (drain_min _ _ _ _ _ _ _ _ _ Dr) as [_ Z1].
    apply Z1. split; reflexivity.
Qed.

(** X21: a tick of a policy other than the throttled one always draws, as
    the first thing it does, never fails, and leaves the bucket recorded by
    the throttled ticks alone. *)
Theorem unthrottled_tick_draws_first (wait : Z) (tv : timeval) (s : statics)
  (sh : shared) :
  wait <> 1 ->
  exists r s' sh' more,
    input_handle wait tv s sh
    = Some (r, (s', sh'), screen_draw Unconditional sh :: more)
    /\ lastupdate s' = lastupdate s
    /\ scheduled (screen_draw Unconditional sh :: more) = false.
Proof.
  intros W. unfold Sched.input_handle.
  destruct (Z.eqb_spec wait 1) as [?|_]; [contradiction|]. cbn [negb fst snd].
  destruct (ncurses_init s); cbn [negb].
  - match goal with
    | |- exists r s' sh' more, Some ?d = _ /\ _ =>
        destruct d as [[r [s' sh']] fs] eqn:Dr
    end.
    destruct (drain_spec browse_key help_key delete_key quit_key ncresize
                _ _ _ _ _ _ _ _ _ Dr) as (L & _ & extra & -> & A & _).
    exists r, s', sh', extra. split; [reflexivity|]. split; [exact L|].
    unfold scheduled. cbn [existsb]. fold (scheduled extra).
    rewrite (answers_not_scheduled _ _ A). reflexivity.
  - eexists; eexists; eexists; exists []. repeat split.
Qed.

End Collaborators.

Lemma scan_key_ends_tick_witness :
  exists s' sh' fs,
    Sched.input_handle go_on go_on go_on go_on fits 1 (mkTimeval 5 0)
      (mkStatics true 999 17 60) (idle ST_CALC [KEY_RESIZE; 113; 10])
    = Some (match Tracker.dir_fatalerr (dir (idle ST_CALC [KEY_RESIZE; 113; 10])) with
            | Some _ => 1
            | None => if 113 =? 113 then 1 else 0
            end, (s', sh'), fs)
    /\ pending sh' = [10]
    /\ dir sh' = dir (idle ST_CALC [KEY_RESIZE; 113; 10])
    /\ pstate sh' = ST_CALC.
Proof.
  apply (scan_key_ends_tick go_on go_on go_on go_on fits 1 (mkTimeval 5 0)
           (mkStatics true 999 17 60) (idle ST_CALC [KEY_RESIZE; 113; 10])
           1 113 [10]).
  - reflexivity.
  - intros _. simpl. lia.
  - reflexivity.
  - reflexivity.
  - discriminate.
  - discriminate.
Defined.

Lemma tick_without_keys_witness :
  exists s' sh' first more,
    Sched.input_handle go_on go_on go_on go_on fits 0 (mkTimeval 5 0)
      (mkStatics true 999 17 60)
      (mkShared ST_BROWSE 100 Tracker.init [KEY_RESIZE] EIO false)
    = Some (if (EIO =? EPIPE) || (EIO =? EBADF) || (EIO =? EIO) then 1 else 0,
            (s', sh'), first ++ more)
    /\ pending sh' = []
    /\ (length first <= 1)%nat
    /\ length more = 1%nat
    /\ Forall (fun f => site f = Resized) more
    /\ same_or_collapsed (mkStatics true 999 17 60) s'.
Proof.
  apply (tick_without_keys go_on go_on go_on go_on fits 0 (mkTimeval 5 0)
           (mkStatics true 999 17 60)
           (mkShared ST_BROWSE 100 Tracker.init [KEY_RESIZE] EIO false) 1).
  - reflexivity.
  - intros E. discriminate E.
  - reflexivity.
Defined.

Lemma resize_failure_collapses_minimum_witness :
  exists s' sh' r fs,
    Sched.input_handle go_on go_on go_on go_on (fun _ _ _ => 1) 1 (mkTimeval 5 0)
      (mkStatics true 50 17 60) (idle ST_BROWSE [KEY_RESIZE])
    = Some (r, (s', sh'), fs)
    /\ min_rows s' = 0 /\ min_cols s' = 0.
Proof.
  destruct (Sched.input_handle go_on go_on go_on go_on (fun _ _ _ => 1) 1
              (mkTimeval 5 0) (mkStatics true 50 17 60)
              (idle ST_BROWSE [KEY_RESIZE]))
    as [[[r [s' sh']] fs]|] eqn:E; [|vm_compute in E; discriminate].
  exists s', sh', r, fs. split; [reflexivity|].
  destruct (resize_failure_collapses_minimum go_on go_on go_on go_on
              (fun _ _ _ => 1) _ _ _ _ _ _ _ _ E) as (_ & _ & C).
  apply C.
  - reflexivity.
  - exists []. reflexivity.
  - intros x. discriminate.
Defined.

Lemma unthrottled_tick_draws_first_witness :
  exists r s' sh' more,
    Sched.input_handle go_on go_on go_on go_on fits 0 (mkTimeval 5 0) (mkStatics true 50 17 60) (idle ST_BROWSE [10])
    = Some (r, (s', sh'), screen_draw Unconditional (idle ST_BROWSE [10]) :: more)
    /\ lastupdate s' = lastupdate (mkStatics true 50 17 60)
    /\ scheduled (screen_draw Unconditional (idle ST_BROWSE [10]) :: more) = false.
Proof.
  apply (unthrottled_tick_draws_first go_on go_on go_on go_on fits 0 (mkTimeval 5 0) (mkStatics true 50 17 60)
           (idle ST_BROWSE [10])).
  discriminate.
Defined.

End SchedMore.

(** ** The terminal set-up and the main loop: further properties *)
Module DriverSpec.
Import Args Sched Driver.
Local Open Scope Z_scope.

Lemma no_call_in_frames (f : term_call -> bool) (fs : list frame) :
  (forall x, f (screen x) = false) -> filter f (map screen fs) = [].
Proof.
  intro F. induction fs as [|x fs IH]; [reflexivity|].
  cbn. rewrite F. exact IH.
Qed.

Lemma consistent_log (w : world) (cs : list term_call) :
  filter opens cs = [] -> filter ends cs = [] ->
  consistent w -> consistent (log w cs).
Proof.
  intros O E [C1 C2]. unfold consistent, log. cbn [calls vars].
  rewrite !filter_app, O, E, C1, !app_nil_r. split; [reflexivity | exact C2].
Qed.

Section Environment.
Variable ncurses_tty : Z.
Variables tty_opens newterm_ok stdin_is_tty initscr_ok : bool.
Variable strerror_errno : string.
Variable ncresize : Z -> Z -> shared -> Z.
Variables browse_key help_key delete_key quit_key : Z -> shared -> Z * shared.
Variable dir_process : world -> Z * world.
Variable delete_process : world -> world.

Local Abbreviation init_nc :=
  (Driver.init_nc ncurses_tty tty_opens newterm_ok stdin_is_tty initscr_ok
     strerror_errno ncresize).
Local Abbreviation main_round :=
  (Driver.main_round ncurses_tty tty_opens newterm_ok stdin_is_tty initscr_ok
     strerror_errno ncresize browse_key help_key delete_key quit_key
     dir_process delete_process).
Local Abbreviation main_loop :=
  (Driver.main_loop ncurses_tty tty_opens newterm_ok stdin_is_tty initscr_ok
     strerror_errno ncresize browse_key help_key delete_key quit_key
     dir_process delete_process).
Local Abbreviation run :=
  (Driver.run ncurses_tty tty_opens newterm_ok stdin_is_tty initscr_ok
     strerror_errno ncresize browse_key help_key delete_key quit_key
     dir_process delete_process).
Local Abbreviation drain :=
  (Sched.drain browse_key help_key delete_key quit_key ncresize).
Local Abbreviation input_handle :=
  (Sched.input_handle browse_key help_key delete_key quit_key ncresize).
Local Abbreviation handler :=
  (Driver.handler browse_key help_key delete_key quit_key).
Local Abbreviation handler_answers :=
  (Driver.handler_answers browse_key help_key delete_key quit_key).

(** What a call of [init_nc] that returns has done. *)
Lemma init_nc_parts (w w1 : world) :
  init_nc w = Ret w1 ->
  ncurses_init (vars w1) = true
  /\ shared_vars w1 = shared_vars w
  /\ dir_ui w1 = dir_ui w
  /\ lastupdate (vars w1) = lastupdate (vars w)
  /\ same_or_collapsed (vars w) (vars w1)
  /\ (if ncurses_init (vars w) then w1 = w
      else exists opening,
             calls w1 = (calls w ++ opening
                         ++ setup_calls (min_rows (vars w)) (min_cols (vars w)))%list
             /\ length (filter opens opening) = 1%nat
             /\ filter ends opening = []).
Proof.
  unfold Driver.init_nc. intro H.
  destruct (ncurses_init (vars w)) eqn:I.
  - injection H as <-. rewrite I.
    split; [reflexivity|]. split; [reflexivity|]. split; [reflexivity|].
    split; [reflexivity|]. split; [left; split; reflexivity | reflexivity].
  - assert (Fin : forall (ok : bool) (opening : list term_call),
              length (filter opens opening) = 1%nat ->
              filter ends opening = [] ->
              (opened <-- Ret (ok, log (mkWorld (with_init (vars w) true)
                                          (shared_vars w) (dir_ui w) (calls w)) opening) ;;;
               if negb (fst opened) then Die ("Error while initializing ncurses." ++ nl)%string
               else
                 let w2 := log (snd opened)
                             [uic_init; cbreak; noecho; curs_set 0; keypad; bkgd;
                              ncresize_call (min_rows (with_init (vars w) true))
                                (min_cols (with_init (vars w) true))] in
                 if negb (ncresize (min_rows (with_init (vars w) true))
                            (min_cols (with_init (vars w) true)) (shared_vars w) =? 0)
                 then Ret (mkWorld (with_min (vars w2) 0 0) (shared_vars w2)
                             (dir_ui w2) (calls w2))
                 else Ret w2) = Ret w1 ->
              ncurses_init (vars w1) = true
              /\ shared_vars w1 = shared_vars w
              /\ dir_ui w1 = dir_ui w
              /\ lastupdate (vars w1) = lastupdate (vars w)
              /\ same_or_collapsed (vars w) (vars w1)
              /\ exists opening,
                   calls w1 = (calls w ++ opening
                               ++ setup_calls (min_rows (vars w)) (min_cols (vars w)))%list
                   /\ length (filter opens opening) = 1%nat
                   /\ filter ends opening = []).
    { intros ok opening L E G. cbn [bind fst snd] in G.
      destruct ok; [|discriminate]. cbn [negb] in G.
      cbn [log vars shared_vars dir_ui calls with_init min_rows min_cols] in G.
      revert G; destruct (negb (ncresize _ _ _ =? 0)); intro G; injection G as <-;
        cbn [log vars shared_vars dir_ui calls with_min with_init
             ncurses_init lastupdate min_rows min_cols];
        (split; [reflexivity|]; split; [reflexivity|]; split; [reflexivity|];
         split; [reflexivity|]; split;
         [first [right; split; reflexivity | left; split; reflexivity]|]);
        exists opening; rewrite <- app_assoc; (split; [reflexivity|]);
        split; assumption. }
    cbn [vars shared_vars dir_ui calls] in H.
    revert H. destruct (negb (ncurses_tty =? 0)); intro H.
    + destruct tty_opens; [|discriminate]. cbn [negb] in H.
      apply Fin in H; [exact H| |]; destruct newterm_ok; reflexivity.
    + destruct stdin_is_tty; [|discriminate]. cbn [negb] in H.
      apply Fin in H; [exact H| |]; reflexivity.
Qed.

(** X23: a call of [init_nc] that returns leaves the terminal initialized,
    so that a further call does nothing at all: the screen is set up once.
    The call writes neither the shared variables nor [lastupdate], keeps
    the minimum sizes or sets both to 0, and, when the terminal was not
    initialized before, adds exactly the calls that open the screen (one
    [initscr] or [newterm], no [endwin]) followed by the set-up calls. *)
Theorem init_nc_sets_up_once (w w1 : world) :
  init_nc w = Ret w1 ->
  ncurses_init (vars w1) = true
  /\ init_nc w1 = Ret w1
  /\ shared_vars w1 = shared_vars w
  /\ lastupdate (vars w1) = lastupdate (vars w)
  /\ same_or_collapsed (vars w) (vars w1)
  /\ (ncurses_init (vars w) = false ->
      exists opening,
        calls w1 = (calls w ++ opening
                    ++ setup_calls (min_rows (vars w)) (min_cols (vars w)))%list
        /\ length (filter opens opening) = 1%nat
        /\ filter ends opening = []).
Proof.
  intro H. destruct (init_nc_parts w w1 H) as (I & S & _ & L & M & C).
  split; [exact I|].
  split; [unfold Driver.init_nc; rewrite I; reflexivity|].
  split; [exact S|]. split; [exact L|]. split; [exact M|].
  intro N. rewrite N in C. exact C.
Qed.

(** A blocking tick outside the scan: the first key that is no resize
    notification goes to the handler of the mode, which decides the result;
    when no key reaches a handler the result tells whether the input
    failed. *)
Lemma drain_answer (keys : list Z) :
  forall (s : statics) (sh0 : shared) (x out : list _)
         (r : Z) (s' : statics) (sh' : shared) (fs : list frame),
    pstate sh0 <> ST_CALC ->
    drain 0 keys s (handed sh0 x) out = (r, (s', sh'), fs) ->
    (exists h k ch rest,
       handler (pstate sh0) = Some h
       /\ keys = (repeat KEY_RESIZE k ++ ch :: rest)%list
       /\ ch <> ERR /\ ch <> KEY_RESIZE
       /\ h ch (handed sh0 rest) = (r, sh'))
    \/ (r = (if input_failed sh0 then 1 else 0)
        /\ exists rest, sh' = handed sh0 rest).
Proof.
  induction keys as [|ch rest IH]; intros s sh0 x out r s' sh' fs NC H.
  - cbn in H. injection H as <- _ <- _. right.
    split; [reflexivity|]. exists []. reflexivity.
  - cbn [Sched.drain] in H.
    assert (Now : forall h, handler (pstate sh0) = Some h ->
              ch <> ERR -> ch <> KEY_RESIZE ->
              (fst (h ch (handed sh0 rest)),
               (s, snd (h ch (handed sh0 rest))), out) = (r, (s', sh'), fs) ->
              exists h k ch0 rest0,
                handler (pstate sh0) = Some h
                /\ ch :: rest = (repeat KEY_RESIZE k ++ ch0 :: rest0)%list
                /\ ch0 <> ERR /\ ch0 <> KEY_RESIZE
                /\ h ch0 (handed sh0 rest0) = (r, sh')).
    { intros h Hh E1 E2 G. injection G as <- _ <- _.
      exists h, O, ch, rest. split; [exact Hh|]. split; [reflexivity|].
      split; [exact E1|]. split; [exact E2|].
      destruct (h ch (handed sh0 rest)); reflexivity. }
    revert H. destruct (Z.eqb_spec ch ERR) as [->|NE]; intro H.
    { injection H as <- _ <- _. right.
      split; [reflexivity|]. exists rest. reflexivity. }
    revert H. destruct (Z.eqb_spec ch KEY_RESIZE) as [->|NR]; intro H.
    { change (with_nodelay (with_pending (handed sh0 x) rest) (negb (0 =? 0)))
        with (handed sh0 rest) in H.
      apply IH in H; [|exact NC].
      destruct H as [(h & k & c & rest0 & Hh & -> & E1 & E2 & A)|H];
        [left | right; exact H].
      exists h, (S k), c, rest0. split; [exact Hh|]. split; [reflexivity|].
      split; [exact E1|]. split; [exact E2 | exact A]. }
    change (with_pending (handed sh0 x) rest) with (handed sh0 rest) in H.
    change (pstate (handed sh0 rest)) with (pstate sh0) in H.
    destruct (pstate sh0) eqn:P.
    + contradiction NC. reflexivity.
    + left. exact (Now browse_key eq_refl NE NR H).
    + left. exact (Now help_key eq_refl NE NR H).
    + apply IH in H; [|rewrite P; discriminate].
      destruct H as [(h & k & c & rest0 & Hh & _)|H]; [|right; exact H].
      rewrite P in Hh. discriminate Hh.
    + left. exact (Now delete_key eq_refl NE NR H).
    + left. exact (Now quit_key eq_refl NE NR H).
Qed.

(** A round outside the scan and the deletion: [init_nc], and then a tick
    that reads the terminal. *)
Lemma interactive_round (w : world) :
  pstate (shared_vars w) <> ST_CALC ->
  pstate (shared_vars w) <> ST_DEL ->
  main_round w
  = (w1 <-- init_nc (if dir_ui w =? 1 then log w [newline_stderr] else w) ;;;
     let r := drain 0 (pending (shared_vars w1)) (vars w1)
                (with_nodelay (shared_vars w1) false)
                [screen_draw Unconditional (shared_vars w1)] in
     Ret (negb (fst (fst r) =? 0),
          mkWorld (fst (snd (fst r))) (snd (snd (fst r))) (dir_ui w1)
            (calls w1 ++ map screen (snd r))%list)).
Proof.
  intros NC ND. unfold Driver.main_round.
  set (w0 := if dir_ui w =? 1 then log w [newline_stderr] else w).
  assert (S0 : shared_vars w0 = shared_vars w)
    by (unfold w0; destruct (dir_ui w =? 1); reflexivity).
  assert (E : match pstate (shared_vars w) with
              | ST_CALC => Ret w
              | _ => init_nc w0
              end = init_nc w0).
  { destruct (pstate (shared_vars w)); try reflexivity. contradiction NC; reflexivity. }
  rewrite E. clear E.
  destruct (init_nc w0) as [w1| | |] eqn:I; try reflexivity.
  destruct (init_nc_parts _ _ I) as (N & S & _).
  cbn [bind]. rewrite S, S0.
  unfold Sched.input_handle. cbn [negb Z.eqb fst snd]. rewrite N. cbn [negb].
  rewrite <- S0, <- S.
  cbn [with_nodelay pending].
  destruct (drain 0 (pending (shared_vars w1)) (vars w1)
              (with_nodelay (shared_vars w1) false)
              [screen_draw Unconditional (shared_vars w1)])
    as [[r [s sh]] fs] eqn:D.
  unfold with_nodelay in D. cbn [negb] in *.
  rewrite S, S0 in *.
  destruct (pstate (shared_vars w)); try reflexivity;
    [contradiction NC | contradiction ND]; reflexivity.
Qed.


Lemma outside_consistent (step : world -> world) (w : world) :
  outside step -> consistent w -> consistent (step w).
Proof.
  intros O [C1 C2]. destruct (O w) as (I & cs & E & F1 & F2).
  unfold consistent. rewrite E, I, !filter_app, F1, F2, C1, !app_nil_r.
  split; [reflexivity | exact C2].
Qed.

Lemma init_consistent (w w1 : world) :
  consistent w -> init_nc w = Ret w1 -> consistent w1.
Proof.
  intros [C1 C2] H. destruct (init_nc_parts _ _ H) as (I & _ & _ & _ & _ & C).
  destruct (ncurses_init (vars w)) eqn:N.
  - subst w1. split; [exact C1 | rewrite N; exact C2].
  - destruct C as (opening & E & L & F).
    unfold consistent. rewrite E, I, !filter_app, C1, F, !length_app, C2, L.
    split; reflexivity.
Qed.

Lemma tick_consistent (w w' : world) (stop : bool) :
  pstate (shared_vars w) <> ST_CALC ->
  pstate (shared_vars w) <> ST_DEL ->
  consistent (if dir_ui w =? 1 then log w [newline_stderr] else w) ->
  main_round w = Ret (stop, w') -> consistent w'.
Proof.
  intros NC ND C0 H. rewrite (interactive_round w NC ND) in H.
  destruct (init_nc _) as [w1| | |] eqn:I; try discriminate H.
  cbn [bind] in H. injection H as _ <-.
  destruct (init_consistent _ _ C0 I) as [C1 C2].
  destruct (drain 0 (pending (shared_vars w1)) (vars w1)
              (with_nodelay (shared_vars w1) false)
              [screen_draw Unconditional (shared_vars w1)])
    as [[r [s sh]] fs] eqn:D.
  destruct (SchedSpec.drain_spec browse_key help_key delete_key quit_key ncresize
              _ _ _ _ _ _ _ _ _ D) as (_ & In' & _).
  unfold consistent. cbn [fst snd calls vars].
  rewrite !filter_app, !no_call_in_frames, !app_nil_r, In'
    by (intro; reflexivity).
  split; assumption.
Qed.

Lemma round_consistent (w w' : world) (stop : bool) :
  outside (fun w => snd (dir_process w)) -> outside delete_process ->
  consistent w -> main_round w = Ret (stop, w') -> consistent w'.
Proof.
  intros OP OD C H.
  set (w0 := if dir_ui w =? 1 then log w [newline_stderr] else w).
  assert (C0 : consistent w0).
  { unfold w0. destruct (dir_ui w =? 1); [|exact C].
    apply consistent_log; [reflexivity | reflexivity | exact C]. }
  assert (S0 : shared_vars w0 = shared_vars w)
    by (unfold w0; destruct (dir_ui w =? 1); reflexivity).
  destruct (pstate (shared_vars w)) eqn:P;
    try (apply (tick_consistent w w' stop); [rewrite P; discriminate..| exact C0 | exact H]).
  - unfold Driver.main_round in H. rewrite P in H. cbn [bind] in H. rewrite P in H.
    assert (CP := outside_consistent _ w OP C). cbn beta in CP.
    revert H. destruct (negb (fst (dir_process w) =? 0)); intro H;
      injection H as _ <-; [|exact CP].
    destruct (dir_ui (snd (dir_process w)) =? 1); [|exact CP].
    apply consistent_log; [reflexivity | reflexivity | exact CP].
  - unfold Driver.main_round in H. rewrite P in H. fold w0 in H.
    destruct (init_nc w0) as [w1| | |] eqn:I; try discriminate H.
    cbn [bind] in H.
    destruct (init_nc_parts _ _ I) as (_ & S & _).
    rewrite S, S0, P in H. injection H as _ <-.
    apply (outside_consistent _ _ OD). exact (init_consistent _ _ C0 I).
Qed.

Lemma loop_consistent (rounds : nat) :
  forall (w w' : world),
    outside (fun w => snd (dir_process w)) -> outside delete_process ->
    consistent w -> main_loop rounds w = Ret (Some w') -> consistent w'.
Proof.
  induction rounds as [|n IH]; intros w w' OP OD C H; [discriminate H|].
  cbn [Driver.main_loop] in H.
  destruct (main_round w) as [[stop w1]| | |] eqn:R; try discriminate H.
  cbn [bind fst snd] in H.
  assert (C1 := round_consistent _ _ _ OP OD C R).
  destruct stop.
  - injection H as <-. exact C1.
  - exact (IH _ _ OP OD C1 H).
Qed.


End Environment.

Lemma init_nc_sets_up_once_witness :
  ncurses_init (vars (mkWorld (mkStatics true 999 17 60) (idle ST_BROWSE []) 2
                        [isatty_stdin; initscr; uic_init; cbreak; noecho;
                         curs_set 0; keypad; bkgd; ncresize_call 17 60])) = true
  /\ Driver.init_nc 0 true true true true "" fits
       (mkWorld (mkStatics true 999 17 60) (idle ST_BROWSE []) 2
          [isatty_stdin; initscr; uic_init; cbreak; noecho;
           curs_set 0; keypad; bkgd; ncresize_call 17 60])
     = Ret (mkWorld (mkStatics true 999 17 60) (idle ST_BROWSE []) 2
              [isatty_stdin; initscr; uic_init; cbreak; noecho;
               curs_set 0; keypad; bkgd; ncresize_call 17 60]).
Proof.
  destruct (init_nc_sets_up_once 0 true true true true "" fits
              (fresh (idle ST_BROWSE []) 2)
              (mkWorld (mkStatics true 999 17 60) (idle ST_BROWSE []) 2
                 [isatty_stdin; initscr; uic_init; cbreak; noecho;
                  curs_set 0; keypad; bkgd; ncresize_call 17 60]))
    as (I & Again & _).
  - reflexivity.
  - split; [exact I | exact Again].
Defined.



End DriverSpec.
